(* ===== verification/_CoqProject ===== *)
-Q . S2P
Prelude.v
Semaphore.v
Base64.v
Aging.v
Config.v
Bot.v
Orchestrator.v
OrchestratorInv.v
OrchestratorThm.v
OrchestratorFifo.v
OrchestratorErrors.v
OrchestratorSpec.v
Scenarios.v
Program.v
Pixel.v
Raster.v
Draw.v
Prepare.v
Collage.v
CollageOrder.v
CollageScenarios.v
EndToEnd.v
