(* ===== verification/Prelude.v ===== *)
(** * A verification development for genai-image-gpt ([src/main.py])

    The program is a Telegram bot of 131 lines.  A user sends a photo; the
    bot asks the OpenAI image-edit endpoint for an "aged" version of it and
    replies with a side-by-side collage of the original and the generated
    photo drawn on a fixed template.  Its parts, and how they interact:

    - configuration ([main.py] lines 15-43): environment lookup of the two
      credentials and of [TEMPLATE_PATH], the fail-fast check of line 21,
      the layout constants [BORDER_WIDTH] and [CORNER_RAD];
    - the aging client [age_photo] (lines 46-59): enters the global
      [asyncio.Semaphore(4)] [OPENAI_SEM], calls [client.images.edit] once,
      decodes [res.data[0].b64_json] with [base64.b64decode], and releases
      the slot on every path;
    - the image preparer [_prepare] (lines 62-68): decode, [ImageOps.fit]
      to the slot size, rounded-rectangle alpha mask, [putalpha];
    - the collage composer [make_collage] (lines 71-92): template, two
      [_prepare] calls, two masked pastes, per slot a white rounded outline
      and a blurred shadow alpha-composited at [+4] pixels, RGB conversion;
    - the orchestrator [handle_photo]/[work] (lines 99-118): sends a status
      message, spawns a task that runs [age_photo], then [make_collage] in a
      worker thread, increments [TOTAL_GENERATED] under [COUNTER_LOCK],
      edits the status and replies with the collage; every exception is
      caught and turned into a failure status;
    - the bot wiring [start]/[main] (lines 95-128) and the start-up (lines
      15-24, 131-132): the module import loads the configuration and builds
      the OpenAI client; [main] builds the [Application], registers two
      handlers in order and polls; python-telegram-bot dispatches each
      update to the first handler that accepts it.

    ** Files of the development (in [_CoqProject] order)

    - [Prelude] (this file): the [py_scope] notations ([let!], [raise!]),
      the Python exception type [exc] and the result type [res], exhaustive
      range checks on [Z] (byte-level facts proved by running them), list
      counting lemmas, the generic event-trace runner [run] with its
      invariant principle, the tactics [byte_lia] and [zbool], and the
      [model] hint databases.
    - [Semaphore]: [asyncio.Semaphore] (CPython's [locks.py]) as a value
      and a FIFO waiter queue; [acquire] and [release] with hand-off to the
      first waiter; the queue order ([precedes]) kept by both.
    - [Base64]: [base64.b64decode] in its default non-strict mode, as
      CPython's [binascii.a2b_base64] state machine, and the encoder; the
      round trip [b64decode (b64encode l) = l] and what the non-strict
      mode ignores (C32).
    - [Aging]: the request [age_photo] sends and [age_result], the value
      or exception it returns for each answer of [images.edit].
    - [Config]: [load_dotenv], [os.getenv], the [RuntimeError] check of
      line 21 and the [/start] text.
    - [Bot]: [main]'s handlers, their [check_update] (command entity,
      [filters.PHOTO]), the first-match dispatch, [start] and the entry of
      [handle_photo] ([update.message.photo[-1]]) (C27, C28).
    - [Orchestrator]: the whole concurrent bot ([handle_photo] and every
      [work] task) as an executable step function [step] over a world
      (semaphore, [TOTAL_GENERATED], task table, chat output, log), driven
      by events: one resumption of one coroutine by the event loop, with
      the result of the call it awaited.  An inductive [sstep] states the
      same rules and is proved equivalent.  [make_collage] enters through
      the [Composer] interface.
    - [OrchestratorInv]: the invariant of reachable worlds (counter and
      log, frames, semaphore accounting, waiter queue, chat output) and its
      preservation by every step.
    - [OrchestratorThm]: the safety, functional, termination and liveness
      theorems (C1-C9) for every [Composer].
    - [OrchestratorFifo]: first come, first served on [OPENAI_SEM]: the
      queue order of two parked requests is kept by every run (C30), and a
      request at place [k] of the queue has its slot once [k + 1] OpenAI
      calls have returned (C33); without a timeout, calls that never
      return keep all four slots forever (C35).
    - [OrchestratorErrors]: the error paths of [work] from any reachable
      world: a failed OpenAI call gives its slot back and reports [str(e)]
      (C11), a [reply_photo] that raises leaves a request counted and
      reported as failed (C10), a failure edit that raises leaves the
      request without a final message for good (C25).
    - [OrchestratorSpec]: the request lifecycle as an abstract transition
      system [astep] (no scheduler, no semaphore), the abstraction [abs] of
      a world and the forward simulation: every step of the orchestrator is
      an [astep] or a stutter (C24).
    - [Scenarios]: runs replayed by [vm_compute]: the witnesses of C1-C11,
      C24, C25, C30, C33 and C35.
    - [Program]: the program as a whole: [import_main] (lines 15-24),
      [main] (121-126), [script] (the [__main__] guard, 131-132) and the
      running bot [bot_step], which dispatches each update with [Bot] and
      turns a handled photo into the orchestrator's [Arrive] event with
      the downloaded bytes (C31).
    - [Pixel]: Pillow's [BLEND]/[DIV255] macros and the loop body of
      [ImagingAlphaComposite] with every C conversion written out (C23).
    - [Raster]: images as size plus pixel function, raster equivalence
      and the [Proper] instances of the operations; [new], [paint],
      [putalpha], [paste] with a mask, [alpha_composite], [convert]; the
      [Pil] interface for the parts of Pillow used as given (codecs,
      LANCZOS, rasterisers, blur) with the laws the proofs rely on (C20).
    - [Draw]: [ImageDraw.rounded_rectangle]'s decomposition into corner
      pieces and inclusive bands, for fills and outlines.
    - [Prepare]: [ImageOps.fit]'s crop box (exact rationals in place of
      Python floats), [resize]'s checks and [_prepare] (C16, C17, C21).
    - [Collage]: [make_collage], its loop over the boxes, the [Composer]
      instance, and the theorems on its result (C13-C15, C18, C19, C26).
    - [CollageOrder]: pointwise raster operations on disjoint column bands
      commute, so the two slots can be drawn in either order (C29).
    - [CollageScenarios]: a small [Pil] instance satisfying the laws, and
      the witnesses of the image theorems on it.
    - [EndToEnd]: the running program with [make_collage] on
      [TEMPLATE_PATH] as its [Composer]: where each request's photo comes
      from and what a successful request receives (C34), with one request
      replayed through the whole program on the small [Pil] instance.

    ** What the theorems show

    - Orchestrator: at most four OpenAI calls in flight and semaphore
      accounting exact (C1); [TOTAL_GENERATED] equals the number of
      compositions that returned, logged as 1..N (C2); all slots are free
      when every request is finished (C3); message sequences per terminal
      state (C4, C5); a parked request implies a slot holder (C6); every
      run without arrivals is bounded by a measure (C7); no reachable
      world is stuck and every request can be driven to its end (C8, C9);
      a [reply_photo] that raises after the counter was incremented leaves
      the request counted and reported as failed (C10); a failed OpenAI
      call, whatever the cause, hands its slot back, is logged and
      reported with its text (C11); the orchestrator refines the abstract
      request lifecycle (C24); a failure edit that raises leaves the
      request without any final message, whatever happens later (C25);
      parked requests are served in queue order (C30), each within as many
      returned OpenAI calls as there are requests ahead of it, plus one
      (C33); four OpenAI calls that never return block every later request
      for good, since [images.edit] has no timeout (C35).
    - Aging: round trip of the answer's payload (C12); [b64decode] ignores
      non-alphabet characters and anything after a completed padding
      (C32).
    - Collage: success and order of operations (C13), error order (C14),
      template untouched outside the slots (C15), [fit] and [_prepare]
      results (C16, C17), the darkened slot interior (C18), the right
      box's one-column overhang (C19), byte-exact [paste] and
      [alpha_composite] arithmetic (C20, C23), which side [ImageOps.fit]
      crops, chosen by aspect ratio and not by length (C21), the canvas is
      a well-formed RGBA image, opaque over an opaque template (C26); the
      two slots are independent, drawn in either order (C29).
    - Configuration: the start-up check, with [.env] read as
      python-dotenv does (C22).
    - Bot wiring: which handler an update reaches and what it does (C27);
      edited messages and channel posts reach the handlers and make them
      raise [AttributeError] (C28).
    - The whole program: a photo message creates exactly one request with
      the largest size's bytes, and a failed download or status reply
      creates none and is only logged (C31); end to end, the requests'
      photos are exactly those of the accepted photo updates, in order,
      and a request that succeeds received its status, "Готово!" and the
      PNG of the canvas drawn from its photo and the generated one (C34).

    ** Bounds, fuel and assumptions

    There is no fuel: [step] is total and structural, and termination of
    the orchestrator is a measure ([pending]) that decreases on each
    resumption.  Byte identities are checked over the whole byte range
    (or [0 .. 255*255] for [DIV255]) by computation.  The C integer types
    of [ImagingAlphaComposite] are kept at their widths ([u8], [u32],
    [i32]) and shown not to wrap on bytes.  The [Pil] laws are the only
    assumptions on Pillow's unmodelled parts; the blur's reach
    [blur_reach 3] is a parameter of C18-C19 (9 pixels for Pillow's
    three box passes at radius 3; 0 for the instance of
    [CollageScenarios]).

    ** Not modelled

    The Telegram and OpenAI network protocols (their results are the
    events' payloads), PNG/JPEG codecs, LANCZOS resampling, the
    rasterisation of arcs and pie slices and the Gaussian kernel (the
    [Pil] interface), Python float rounding in [ImageOps.fit], logging,
    the network side of [run_polling] (the updates and Telegram's answers
    are the events' payloads, the file storage is the [download]
    parameter), the import lines 1-14, and the effect of the
    [ThreadPoolExecutor(max_workers=8)] of [main] (recorded in
    [application]): it only restricts which interleavings of the
    [ComposeReturns] events happen, so the safety theorems hold for it as
    they are.  Telegram's entity parsing
    and python-telegram-bot's handler checks are modelled from those
    libraries' documented behaviour.  Pillow's rasterisers, its
    Gaussian kernel and its codecs are C library code outside this
    repository, kept abstract behind [Pil] with the laws the theorems need:
    a faithful model needs their source, which a model of [main.py] does
    not have; every theorem holds for every implementation of [Pil]
    satisfying those laws.  Lines 1-14 (imports) have no behaviour of
    their own beyond the names they bind. *)

From Stdlib Require Export ZArith Lia String Ascii Strings.Byte DecimalString.
From stdpp Require Export base list decidable sets strings.

Local Open Scope string_scope.

(** ** Python exceptions that reach the program's [except] clauses *)

Inductive exc :=
| DecodeError                    (** [PIL.UnidentifiedImageError] *)
| TemplateLoadError              (** [FileNotFoundError] on [TEMPLATE_PATH] *)
| ValueError (msg : string)
| IndexError (msg : string)
| TypeError (msg : string)
| BinasciiError (msg : string)   (** [binascii.Error] from [b64decode] *)
| ApiError (msg : string)        (** [openai.APIError] and subclasses *)
| TelegramError (msg : string)  (** [telegram.error.TelegramError] *)
| ZeroDivisionError (msg : string)
| RuntimeError (msg : string)
| AttributeError (msg : string).

#[export] Instance exc_eq_dec : EqDecision exc.
Proof. solve_decision. Defined.

(** [str(e)], as used in [f"Не получилось: {e}"] (line 116). *)
Definition exc_str (e : exc) : string :=
  match e with
  | DecodeError => "cannot identify image file"
  | TemplateLoadError => "No such file or directory"
  | ValueError m | IndexError m | TypeError m | BinasciiError m
  | ApiError m | TelegramError m | ZeroDivisionError m | RuntimeError m
  | AttributeError m => m
  end.

Inductive res (A : Type) : Type :=
| Ok (a : A)
| Err (e : exc).
Arguments Ok {A} a.
Arguments Err {A} e.

Definition res_bind {A B} (r : res A) (k : A -> res B) : res B :=
  match r with Ok a => k a | Err e => Err e end.

Declare Scope py_scope.
Delimit Scope py_scope with py.
Notation "'let!' x := c 'in' k" := (res_bind c (fun x => k))
  (at level 10, x name, c at level 100, k at level 200) : py_scope.
Notation "'raise!' e" := (Err e) (at level 10) : py_scope.
Open Scope py_scope.

Lemma res_bind_ok {A B} (r : res A) (k : A -> res B) b :
  res_bind r k = Ok b <-> exists a, r = Ok a /\ k a = Ok b.
Proof. destruct r; simpl; naive_solver. Qed.

Lemma res_bind_err {A B} (r : res A) (k : A -> res B) e :
  r = Err e -> res_bind r k = Err e.
Proof. now intros ->. Qed.

(** ** Bytes and exhaustive checks on integer ranges *)

Open Scope Z_scope.

Definition is_byte (z : Z) : Prop := 0 <= z <= 255.
#[export] Instance is_byte_dec z : Decision (is_byte z) := _.

(** [forall_range f lo n] checks [f] on [lo, lo+1, ..., lo+n-1]: the
    byte-level identities of PIL's integer code are proved by running it. *)
Fixpoint forall_range (f : Z -> bool) (lo : Z) (n : nat) : bool :=
  match n with
  | O => true
  | S n' => f lo && forall_range f (lo + 1) n'
  end.

Lemma forall_range_spec f lo n :
  forall_range f lo n = true -> forall z, lo <= z < lo + Z.of_nat n -> f z = true.
Proof.
  revert lo. induction n as [|n IH]; simpl; intros lo H z Hz; [lia|].
  apply andb_true_iff in H as [H1 H2].
  destruct (Z.eq_dec z lo) as [->|Hne]; [exact H1|].
  apply (IH (lo + 1) H2). lia.
Qed.


(** ** Lists consumed three elements at a time (base64 quads, RGB triples) *)

Lemma list_ind3 {A} (P : list A -> Prop) :
  P [] -> (forall a, P [a]) -> (forall a b, P [a; b]) ->
  (forall a b c r, P r -> P (a :: b :: c :: r)) -> forall l, P l.
Proof.
  intros H0 H1 H2 H3 l. remember (length l) as n eqn:Hn.
  revert l Hn. induction n as [n IH] using lt_wf_ind. intros l ->.
  destruct l as [|a [|b [|c r]]]; auto.
  apply H3, (IH (length r)); [simpl; lia | reflexivity].
Qed.

(** ** Counting list elements, and the effect of an in-place update *)

Fixpoint countb {A} (f : A -> bool) (l : list A) : nat :=
  match l with
  | [] => 0
  | x :: l' => (if f x then 1 else 0) + countb f l'
  end%nat.

Lemma countb_app {A} (f : A -> bool) l1 l2 :
  countb f (l1 ++ l2) = (countb f l1 + countb f l2)%nat.
Proof. induction l1; simpl; lia. Qed.

Lemma countb_insert {A} (f : A -> bool) (l : list A) i x y :
  l !! i = Some x ->
  (countb f (<[i:=y]> l) + (if f x then 1 else 0) =
   countb f l + (if f y then 1 else 0))%nat.
Proof.
  revert i. induction l as [|z l IH]; intros [|i] Hi; simpl in *; try discriminate.
  - injection Hi as ->. lia.
  - specialize (IH i Hi). lia.
Qed.

Lemma countb_le_length {A} (f : A -> bool) l : (countb f l <= length l)%nat.
Proof. induction l; simpl; [|destruct (f _)]; lia. Qed.

Lemma countb_pos {A} (f : A -> bool) l :
  (0 < countb f l)%nat <-> exists i x, l !! i = Some x /\ f x = true.
Proof.
  induction l as [|z l IH]; simpl.
  - split; [lia|]. intros (i & x & H & _). by rewrite lookup_nil in H.
  - destruct (f z) eqn:E; split.
    + intros _. by exists 0%nat, z.
    + lia.
    + intros H. destruct (proj1 IH ltac:(lia)) as (i & x & Hx & Hf). by exists (S i), x.
    + intros ([|i] & x & Hx & Hf); simpl in Hx; [congruence|].
      apply IH. eauto.
Qed.

Fixpoint sum_nat {A} (f : A -> nat) (l : list A) : nat :=
  match l with [] => 0 | x :: l' => f x + sum_nat f l' end%nat.

Lemma sum_nat_app {A} (f : A -> nat) l1 l2 :
  sum_nat f (l1 ++ l2) = (sum_nat f l1 + sum_nat f l2)%nat.
Proof. induction l1; simpl; lia. Qed.

Lemma sum_nat_insert {A} (f : A -> nat) (l : list A) i x y :
  l !! i = Some x -> (sum_nat f (<[i:=y]> l) + f x = sum_nat f l + f y)%nat.
Proof.
  revert i. induction l as [|z l IH]; intros [|i] Hi; simpl in *; try discriminate.
  - injection Hi as ->. lia.
  - specialize (IH i Hi). lia.
Qed.

(** ** Runs of a step function over a list of events *)

Fixpoint run {W E} (step : W -> E -> option W) (w : W) (evs : list E) : option W :=
  match evs with
  | [] => Some w
  | ev :: evs' => match step w ev with Some w' => run step w' evs' | None => None end
  end.

Lemma run_app {W E} (step : W -> E -> option W) w evs1 evs2 :
  run step w (evs1 ++ evs2) =
  match run step w evs1 with Some w' => run step w' evs2 | None => None end.
Proof.
  revert w. induction evs1 as [|ev evs1 IH]; intros w; simpl; [done|].
  destruct (step w ev); [apply IH | done].
Qed.

Section RunInvariant.
  Context {W E : Type} (step : W -> E -> option W) (I : W -> Prop).
  Hypothesis step_inv : forall w ev w', I w -> step w ev = Some w' -> I w'.

Lemma run_invariant evs : forall w w', I w -> run step w evs = Some w' -> I w'.
Proof.
  induction evs as [|ev evs IH]; simpl; intros w w' Hw Hrun.
  - congruence.
  - destruct (step w ev) eqn:Hs; [|discriminate]. eauto.
Qed.
End RunInvariant.

Ltac byte_lia := unfold is_byte in *; lia.

(** Boolean comparisons on [Z] (the tests of the drawing code) turned
    into linear facts for [lia]. *)
Ltac zbool :=
  repeat (rewrite ?andb_true_iff, ?orb_true_iff, ?negb_true_iff, ?andb_false_iff,
            ?orb_false_iff, ?Z.leb_le, ?Z.ltb_lt, ?Z.leb_gt, ?Z.ltb_ge, ?Z.eqb_eq, ?Z.eqb_neq in * ).

Lemma forall_byte_spec f :
  forall_range f 0 256 = true -> forall z, is_byte z -> f z = true.
Proof. intros H z Hz. apply (forall_range_spec f 0 256 H). byte_lia. Qed.

(** Two-argument checks, for identities relating two consecutive bytes. *)
Lemma forall_byte2_spec (f : Z -> Z -> bool) :
  forall_range (fun x => forall_range (f x) 0 256) 0 256 = true ->
  forall x y, is_byte x -> is_byte y -> f x y = true.
Proof.
  intros H x y Hx Hy. apply forall_byte_spec; [|exact Hy].
  exact (forall_byte_spec _ H x Hx).
Qed.

Create HintDb model.
Create Rewrite HintDb model_rw.

(** ** Python [bytes]: lists of octets, read as integers [0..255] *)

Abbreviation bytes := (list byte).

Definition byte_val (b : byte) : Z := Z.of_N (Byte.to_N b).

(** Storing an [int] into an [unsigned char] keeps its low eight bits. *)
Definition byte_of_Z (z : Z) : byte :=
  match Byte.of_N (Z.to_N (z mod 256)) with Some b => b | None => Byte.x00 end.

Lemma byte_val_range b : is_byte (byte_val b).
Proof.
  unfold is_byte, byte_val. pose proof (Byte.to_N_bounded b). lia.
Qed.

Lemma byte_val_of_Z z : byte_val (byte_of_Z z) = z mod 256.
Proof.
  unfold byte_val, byte_of_Z.
  pose proof (Z.mod_pos_bound z 256 ltac:(lia)) as Hr.
  destruct (Byte.of_N (Z.to_N (z mod 256))) as [b|] eqn:E.
  - apply Byte.to_of_N in E. rewrite E. lia.
  - apply Byte.of_N_None_iff in E. lia.
Qed.

Lemma byte_of_Z_val b : byte_of_Z (byte_val b) = b.
Proof.
  unfold byte_of_Z, byte_val.
  pose proof (Byte.to_N_bounded b).
  rewrite Z.mod_small by lia. rewrite N2Z.id. now rewrite Byte.of_to_N.
Qed.

Lemma byte_val_inj b1 b2 : byte_val b1 = byte_val b2 -> b1 = b2.
Proof.
  intros H. rewrite <- (byte_of_Z_val b1), <- (byte_of_Z_val b2). now rewrite H.
Qed.

#[export] Hint Resolve byte_val_range : model.
#[export] Hint Rewrite byte_val_of_Z byte_of_Z_val : model_rw.

(** Decimal rendering of a count, as [%d] and [%zd] do. *)
Definition string_of_nat (n : nat) : string :=
  NilZero.string_of_uint (Nat.to_uint n).



Close Scope Z_scope.
