(* ===== verification/Semaphore.v ===== *)
(** * [asyncio.Semaphore], as used by [OPENAI_SEM = asyncio.Semaphore(4)]

    [age_photo] (main.py lines 46-59) runs its body inside
    [async with OPENAI_SEM:].  This file models the semaphore of CPython's
    [asyncio/locks.py] (3.12): a counter [_value] and a FIFO deque
    [_waiters] of parked tasks, named here by their task index.

    - [acquire]: when [locked()] is false the counter is decremented and the
      caller proceeds; otherwise the caller is appended to [_waiters].
      [locked()] is [_value == 0] or "some waiter is not cancelled"; no task
      is ever cancelled in this program, so it is [_value == 0 or waiters].
    - [release]: [_value += 1], then [_wake_up_next()] decrements [_value]
      again and completes the first waiter's future.  The net effect is a
      hand-off: with a waiter the counter is unchanged and that waiter now
      holds the slot; without one the counter grows by one.

    The lemmas give the accounting used by the orchestrator's invariant:
    "counter + holders = capacity", and "a non-empty queue means the
    counter is zero". *)

From S2P Require Import Prelude.

Module Semaphore.

Record sem := mk_sem { value : nat; waiters : list nat }.

(** [asyncio.Semaphore(n)] *)
Definition new (n : nat) : sem := mk_sem n [].

(** [Semaphore.locked] with no cancelled waiter. *)
Definition locked (s : sem) : bool :=
  Nat.eqb (value s) 0 || negb (bool_decide (waiters s = [])).

(** [await Semaphore.acquire()] started by task [t]: [true] when [t] got
    the slot at once, [false] when it was parked. *)
Definition acquire (s : sem) (t : nat) : sem * bool :=
  if locked s then (mk_sem (value s) (waiters s ++ [t]), false)
  else (mk_sem (value s - 1) (waiters s), true).

(** [Semaphore.release()] : the new state and the woken task, if any. *)
Definition release (s : sem) : sem * option nat :=
  match waiters s with
  | [] => (mk_sem (S (value s)) [], None)
  | t :: ws => (mk_sem (value s) ws, Some t)
  end.

(** Well-formedness used by the orchestrator: parked tasks only when the
    counter is zero. *)
Definition queue_ok (s : sem) : Prop := waiters s <> [] -> value s = 0.

Lemma acquire_granted s t s' :
  acquire s t = (s', true) ->
  value s = S (value s') /\ waiters s' = waiters s /\ waiters s = [].
Proof.
  unfold acquire, locked. destruct (value s) as [|v]; simpl; [congruence|].
  destruct (bool_decide (waiters s = [])) eqn:E; simpl; [|congruence].
  apply bool_decide_eq_true in E. intros [= <-]. simpl. split_and!; [lia|done|done].
Qed.

(** With [queue_ok], a parked acquirer always found the counter at zero. *)
Lemma acquire_parked s t s' :
  queue_ok s -> acquire s t = (s', false) ->
  value s' = value s /\ waiters s' = waiters s ++ [t] /\ value s = 0.
Proof.
  unfold queue_ok, acquire, locked. intros Hq.
  destruct (Nat.eqb_spec (value s) 0) as [Hv|Hv]; simpl.
  - intros [= <-]. simpl. auto.
  - destruct (bool_decide (waiters s = [])) eqn:E; simpl; [congruence|].
    apply bool_decide_eq_false in E. specialize (Hq E). lia.
Qed.

Lemma acquire_queue_ok s t : queue_ok s -> queue_ok (fst (acquire s t)).
Proof.
  unfold queue_ok, acquire, locked. intros Hq.
  destruct (Nat.eqb_spec (value s) 0) as [Hv|Hv]; simpl; [auto|].
  destruct (bool_decide (waiters s = [])) eqn:E; simpl.
  - apply bool_decide_eq_true in E. rewrite E. congruence.
  - apply bool_decide_eq_false in E. specialize (Hq E). lia.
Qed.

Lemma release_none s s' :
  release s = (s', None) -> value s' = S (value s) /\ waiters s = [] /\ waiters s' = [].
Proof. unfold release. destruct (waiters s); simpl; intros H; inversion H; subst; simpl; auto. Qed.

Lemma release_some s s' t :
  release s = (s', Some t) ->
  value s' = value s /\ waiters s = t :: waiters s'.
Proof. unfold release. destruct (waiters s); simpl; intros H; inversion H; subst; simpl; auto. Qed.

Lemma release_queue_ok s : queue_ok s -> queue_ok (fst (release s)).
Proof.
  unfold queue_ok, release. intros Hq.
  destruct (waiters s) as [|t ws]; simpl; [congruence|].
  intros _. apply Hq. congruence.
Qed.

(** ** First come, first served *)

(** [i] is ahead of [j] in the waiter queue. *)
Definition precedes (q : list nat) (i j : nat) : Prop :=
  exists a b, q !! a = Some i /\ q !! b = Some j /\ (a < b)%nat.

(** The order of two parked tasks, as long as the first is parked. *)
Definition fifo_ok (s : sem) (i j : nat) : Prop := i ∈ waiters s -> precedes (waiters s) i j.

Lemma precedes_in q i j : precedes q i j -> i ∈ q /\ j ∈ q.
Proof. intros (a & b & Ha & Hb & _). split; eapply list_elem_of_lookup_2; eauto. Qed.

Lemma precedes_snoc q k i j : precedes q i j -> precedes (q ++ [k]) i j.
Proof.
  intros (a & b & Ha & Hb & Hab). exists a, b.
  rewrite !lookup_app_l by eauto using lookup_lt_Some. auto.
Qed.

(** Serving the head keeps the order of the others; the head itself is
    then no longer parked. *)
Lemma precedes_pop h q i j : NoDup (h :: q) -> i ∈ q -> precedes (h :: q) i j -> precedes q i j.
Proof.
  intros [Hh _]%NoDup_cons Hi (a & b & Ha & Hb & Hab).
  destruct a as [|a]; [injection Ha as ->; contradiction|].
  destruct b as [|b]; [lia|]. exists a, b. simpl in Ha, Hb. split_and!; auto with lia.
Qed.

Lemma acquire_fifo s k i j : k <> i -> fifo_ok s i j -> fifo_ok (fst (acquire s k)) i j.
Proof.
  unfold fifo_ok, acquire. intros Hk Hf. destruct (locked s); simpl; [|exact Hf].
  intros [Hi|Hi%list_elem_of_singleton]%elem_of_app; [|congruence].
  apply precedes_snoc, Hf, Hi.
Qed.

Lemma release_fifo s i j : NoDup (waiters s) -> fifo_ok s i j -> fifo_ok (fst (release s)) i j.
Proof.
  unfold fifo_ok, release. intros Hnd Hf. destruct (waiters s) as [|h q]; simpl; [done|].
  intros Hi. apply (precedes_pop h); [exact Hnd | exact Hi |]. apply Hf. now right.
Qed.

(** Positions in the queue: [acquire] keeps them, [release] moves every
    waiter but the served one one place forward. *)
Lemma acquire_keeps_position s k i m :
  waiters s !! m = Some i -> waiters (fst (acquire s k)) !! m = Some i.
Proof.
  unfold acquire. intros Hm. destruct (locked s); simpl; [|exact Hm].
  rewrite lookup_app_l by eauto using lookup_lt_Some. exact Hm.
Qed.

Lemma acquire_member s k i : k <> i -> i ∈ waiters (fst (acquire s k)) -> i ∈ waiters s.
Proof.
  unfold acquire. intros Hk. destruct (locked s); simpl; [|done].
  intros [Hi|Hi%list_elem_of_singleton]%elem_of_app; [exact Hi | congruence].
Qed.

Lemma release_member s i : i ∈ waiters (fst (release s)) -> i ∈ waiters s.
Proof. unfold release. destruct (waiters s); simpl; [done|]. intros H. now right. Qed.

Lemma release_position s i m :
  NoDup (waiters s) -> i ∈ waiters (fst (release s)) -> waiters s !! m = Some i ->
  exists m', m = S m' /\ waiters (fst (release s)) !! m' = Some i.
Proof.
  unfold release. intros Hnd. destruct (waiters s) as [|h q]; simpl; [done|].
  intros Hi Hm. apply NoDup_cons in Hnd as [Hh _].
  destruct m as [|m']; [injection Hm as ->; contradiction|]. eauto.
Qed.

End Semaphore.
