(* ===== verification/Base64.v ===== *)
(** * [base64.b64decode], as called by [age_photo] (main.py line 59)

    [base64.b64decode(res.data[0].b64_json)] first turns its argument into
    bytes ([_bytes_from_decode_data]: a [str] must be ASCII, [None] is a
    [TypeError]) and then runs [binascii.a2b_base64] in non-strict mode.
    That C loop (CPython 3.12, [Modules/binascii.c]) is modelled here as a
    structural recursion over the input with its four variables
    [quad_pos], [leftchar], [pads] and the output written so far:
    characters outside the alphabet are skipped, a completed pad sequence
    stops the parse, and a leftover quad is an error.

    The encoder [b2a_base64] ([base64.b64encode]) is the service's side of
    the payload; the round trip [b64decode_b64encode] is the contract
    between the two. *)

From S2P Require Import Prelude.

Module Base64.

Local Open Scope Z_scope.

(** [table_a2b_base64]: the value of an alphabet character, 255 otherwise. *)
Definition a2b_index (c : Z) : Z :=
  if (65 <=? c) && (c <=? 90) then c - 65
  else if (97 <=? c) && (c <=? 122) then c - 71
  else if (48 <=? c) && (c <=? 57) then c + 4
  else if c =? 43 then 62
  else if c =? 47 then 63
  else 255.

(** [table_b2a_base64]: the character of a 6-bit value. *)
Definition b2a_char (i : Z) : Z :=
  if i <? 26 then 65 + i
  else if i <? 52 then 71 + i
  else if i <? 62 then i - 4
  else if i =? 62 then 43
  else 47.

Definition BASE64_PAD : Z := 61.

Definition err_one_more (nbytes : nat) : exc :=
  BinasciiError
    ("Invalid base64-encoded string: number of data characters ("
     ++ string_of_nat (Nat.div nbytes 3 * 4 + 1)
     ++ ") cannot be 1 more than a multiple of 4")%string.

Definition err_padding : exc := BinasciiError "Incorrect padding".

(** The main loop of [binascii_a2b_base64_impl] with [strict_mode = 0].
    [acc] is the output so far, most recent byte first. *)
Fixpoint a2b_loop (quad_pos leftchar pads : Z) (acc : bytes) (s : list Z)
    : res bytes :=
  match s with
  | [] =>
      if quad_pos =? 0 then Ok (rev acc)
      else if quad_pos =? 1 then Err (err_one_more (length acc))
      else Err err_padding
  | c :: s' =>
      if c =? BASE64_PAD then
        (* [if (quad_pos >= 2 && quad_pos + ++pads >= 4) goto done;] *)
        if 2 <=? quad_pos then
          if 4 <=? quad_pos + (pads + 1) then Ok (rev acc)
          else a2b_loop quad_pos leftchar (pads + 1) acc s'
        else a2b_loop quad_pos leftchar pads acc s'
      else
        let v := a2b_index c in
        if 64 <=? v then a2b_loop quad_pos leftchar pads acc s'
        else if quad_pos =? 0 then a2b_loop 1 v 0 acc s'
        else if quad_pos =? 1 then
          a2b_loop 2 (Z.land v 15) 0
            (byte_of_Z (Z.lor (Z.shiftl leftchar 2) (Z.shiftr v 4)) :: acc) s'
        else if quad_pos =? 2 then
          a2b_loop 3 (Z.land v 3) 0
            (byte_of_Z (Z.lor (Z.shiftl leftchar 4) (Z.shiftr v 2)) :: acc) s'
        else
          a2b_loop 0 0 0 (byte_of_Z (Z.lor (Z.shiftl leftchar 6) v) :: acc) s'
  end.

Definition a2b_base64 (s : list Z) : res bytes := a2b_loop 0 0 0 [] s.

Definition codes_of_string (str : string) : list Z :=
  map (fun a => Z.of_nat (nat_of_ascii a)) (list_ascii_of_string str).

Definition string_of_codes (cs : list Z) : string :=
  string_of_list_ascii (map (fun c => ascii_of_nat (Z.to_nat c)) cs).

(** [_bytes_from_decode_data] on [str] or [None]. *)
Definition bytes_from_decode_data (s : option string) : res (list Z) :=
  match s with
  | None =>
      Err (TypeError
        "argument should be a bytes-like object or ASCII string, not 'NoneType'")
  | Some str =>
      let cs := codes_of_string str in
      if forallb (fun c => c <? 128) cs then Ok cs
      else Err (ValueError "string argument should contain only ASCII characters")
  end.

(** [base64.b64decode(s)] *)
Definition b64decode (s : option string) : res bytes :=
  let! cs := bytes_from_decode_data s in a2b_base64 cs.

(** [binascii.b2a_base64(data, newline=False)], i.e. [base64.b64encode]. *)
Definition enc3 (a b c : byte) : list Z :=
  let va := byte_val a in let vb := byte_val b in let vc := byte_val c in
  [b2a_char (Z.shiftr va 2);
   b2a_char (Z.lor (Z.shiftl (Z.land va 3) 4) (Z.shiftr vb 4));
   b2a_char (Z.lor (Z.shiftl (Z.land vb 15) 2) (Z.shiftr vc 6));
   b2a_char (Z.land vc 63)].

Fixpoint b2a_base64 (l : bytes) : list Z :=
  match l with
  | a :: b :: c :: rest => enc3 a b c ++ b2a_base64 rest
  | [a; b] =>
      let va := byte_val a in let vb := byte_val b in
      [b2a_char (Z.shiftr va 2);
       b2a_char (Z.lor (Z.shiftl (Z.land va 3) 4) (Z.shiftr vb 4));
       b2a_char (Z.shiftl (Z.land vb 15) 2); BASE64_PAD]
  | [a] =>
      let va := byte_val a in
      [b2a_char (Z.shiftr va 2); b2a_char (Z.shiftl (Z.land va 3) 4);
       BASE64_PAD; BASE64_PAD]
  | [] => []
  end.

Definition b64encode (l : bytes) : string := string_of_codes (b2a_base64 l).

(** ** Alphabet and bit-level facts, checked over all 6-bit and 8-bit values *)

Lemma b2a_char_spec i :
  0 <= i < 64 ->
  (b2a_char i =? BASE64_PAD) = false /\ a2b_index (b2a_char i) = i /\
  0 <= b2a_char i < 128.
Proof.
  intros Hi.
  assert (H : forall_range (fun i => negb (b2a_char i =? BASE64_PAD) &&
                 (a2b_index (b2a_char i) =? i) && (0 <=? b2a_char i) &&
                 (b2a_char i <? 128)) 0 64 = true) by (vm_compute; reflexivity).
  pose proof (forall_range_spec _ 0 64 H i ltac:(lia)) as Hc.
  apply andb_true_iff in Hc as [Hc H4]; apply andb_true_iff in Hc as [Hc H3];
    apply andb_true_iff in Hc as [H1 H2].
  apply negb_true_iff in H1. lia.
Qed.

(** The six-bit groups of a byte triple are in range, and decoding them
    gives back the bytes: [D1] for the first output byte, [D2] for the
    second, [D3] for the third. *)
Lemma six_bit_ranges va vb vc :
  is_byte va -> is_byte vb -> is_byte vc ->
  0 <= Z.shiftr va 2 < 64 /\
  0 <= Z.lor (Z.shiftl (Z.land va 3) 4) (Z.shiftr vb 4) < 64 /\
  0 <= Z.lor (Z.shiftl (Z.land vb 15) 2) (Z.shiftr vc 6) < 64 /\
  0 <= Z.land vc 63 < 64.
Proof.
  intros Ha Hb Hc.
  pose proof (forall_byte2_spec (fun x y =>
    let i1 := Z.shiftr x 2 in
    let i2 := Z.lor (Z.shiftl (Z.land x 3) 4) (Z.shiftr y 4) in
    let i3 := Z.lor (Z.shiftl (Z.land x 15) 2) (Z.shiftr y 6) in
    let i4 := Z.land y 63 in
    (0 <=? i1) && (i1 <? 64) && (0 <=? i2) && (i2 <? 64) &&
    (0 <=? i3) && (i3 <? 64) && (0 <=? i4) && (i4 <? 64))
    ltac:(vm_compute; reflexivity)) as H.
  pose proof (H va vb Ha Hb) as H1. pose proof (H vb vc Hb Hc) as H2.
  cbv zeta in H1, H2. repeat rewrite andb_true_iff in H1, H2. lia.
Qed.

Lemma decode_byte1 va vb :
  is_byte va -> is_byte vb ->
  byte_of_Z (Z.lor (Z.shiftl (Z.shiftr va 2) 2)
     (Z.shiftr (Z.lor (Z.shiftl (Z.land va 3) 4) (Z.shiftr vb 4)) 4)) = byte_of_Z va /\
  Z.land (Z.lor (Z.shiftl (Z.land va 3) 4) (Z.shiftr vb 4)) 15 = Z.shiftr vb 4.
Proof.
  intros Ha Hb.
  pose proof (forall_byte2_spec (fun x y =>
    (Z.lor (Z.shiftl (Z.shiftr x 2) 2)
       (Z.shiftr (Z.lor (Z.shiftl (Z.land x 3) 4) (Z.shiftr y 4)) 4) =? x) &&
    (Z.land (Z.lor (Z.shiftl (Z.land x 3) 4) (Z.shiftr y 4)) 15 =? Z.shiftr y 4))
    ltac:(vm_compute; reflexivity) va vb Ha Hb) as H.
  apply andb_true_iff in H as [H1 H2]. apply Z.eqb_eq in H1, H2. now rewrite H1.
Qed.

Lemma decode_byte2 vb vc :
  is_byte vb -> is_byte vc ->
  Z.lor (Z.shiftl (Z.shiftr vb 4) 4)
     (Z.shiftr (Z.lor (Z.shiftl (Z.land vb 15) 2) (Z.shiftr vc 6)) 2) = vb /\
  Z.land (Z.lor (Z.shiftl (Z.land vb 15) 2) (Z.shiftr vc 6)) 3 = Z.shiftr vc 6.
Proof.
  intros Hb Hc.
  pose proof (forall_byte2_spec (fun x y =>
    (Z.lor (Z.shiftl (Z.shiftr x 4) 4)
       (Z.shiftr (Z.lor (Z.shiftl (Z.land x 15) 2) (Z.shiftr y 6)) 2) =? x) &&
    (Z.land (Z.lor (Z.shiftl (Z.land x 15) 2) (Z.shiftr y 6)) 3 =? Z.shiftr y 6))
    ltac:(vm_compute; reflexivity) vb vc Hb Hc) as H.
  apply andb_true_iff in H as [H1 H2]. now apply Z.eqb_eq in H1, H2.
Qed.

Lemma decode_byte3 vc :
  is_byte vc -> Z.lor (Z.shiftl (Z.shiftr vc 6) 6) (Z.land vc 63) = vc.
Proof.
  intros Hc. apply Z.eqb_eq.
  exact (forall_byte_spec (fun x => Z.lor (Z.shiftl (Z.shiftr x 6) 6) (Z.land x 63) =? x)
           ltac:(vm_compute; reflexivity) vc Hc).
Qed.

(** One alphabet character of value [i] takes one step of the loop. *)
Lemma a2b_loop_char i qp lc pads acc s :
  0 <= i < 64 ->
  a2b_loop qp lc pads acc (b2a_char i :: s) =
  if qp =? 0 then a2b_loop 1 i 0 acc s
  else if qp =? 1 then
    a2b_loop 2 (Z.land i 15) 0 (byte_of_Z (Z.lor (Z.shiftl lc 2) (Z.shiftr i 4)) :: acc) s
  else if qp =? 2 then
    a2b_loop 3 (Z.land i 3) 0 (byte_of_Z (Z.lor (Z.shiftl lc 4) (Z.shiftr i 2)) :: acc) s
  else a2b_loop 0 0 0 (byte_of_Z (Z.lor (Z.shiftl lc 6) i) :: acc) s.
Proof.
  intros Hi. destruct (b2a_char_spec i Hi) as (Hp & Hx & _).
  simpl. rewrite Hp, Hx. destruct (Z.leb_spec 64 i); [lia|]. reflexivity.
Qed.

Ltac b64_step :=
  rewrite a2b_loop_char by lia; cbn [Z.eqb Pos.eqb].

(** A full quad decodes to its three bytes and leaves the loop at
    [quad_pos = 0]. *)
Lemma a2b_loop_enc3 a b c lc acc s :
  a2b_loop 0 lc 0 acc (enc3 a b c ++ s) = a2b_loop 0 0 0 (c :: b :: a :: acc) s.
Proof.
  pose proof (byte_val_range a) as Ha; pose proof (byte_val_range b) as Hb;
    pose proof (byte_val_range c) as Hc.
  destruct (six_bit_ranges _ _ _ Ha Hb Hc) as (R1 & R2 & R3 & R4).
  destruct (decode_byte1 _ _ Ha Hb) as [D1 E1].
  destruct (decode_byte2 _ _ Hb Hc) as [D2 E2].
  unfold enc3. simpl app. do 4 b64_step.
  rewrite D1, E1, D2, E2, decode_byte3 by exact Hc.
  now rewrite !byte_of_Z_val.
Qed.

(** The last group of a length that is not a multiple of three: its
    characters and its padding decode to the remaining bytes, and the
    parse stops at the completed padding, whatever follows. *)
Lemma a2b_loop_last1 a lc acc t :
  a2b_loop 0 lc 0 acc (b2a_base64 [a] ++ t) = Ok (rev acc ++ [a]).
Proof.
  pose proof (byte_val_range a) as Ha.
  destruct (six_bit_ranges _ 0 0 Ha ltac:(byte_lia) ltac:(byte_lia)) as (R1 & R2 & _).
  destruct (decode_byte1 _ 0 Ha ltac:(byte_lia)) as [D1 _].
  cbn [b2a_base64 app]. b64_step.
  replace (Z.shiftl (Z.land (byte_val a) 3) 4)
    with (Z.lor (Z.shiftl (Z.land (byte_val a) 3) 4) (Z.shiftr 0 4)) by apply Z.lor_0_r.
  b64_step. cbn -[byte_of_Z Z.lor Z.shiftl Z.shiftr Z.land].
  rewrite D1, byte_of_Z_val. reflexivity.
Qed.

Lemma a2b_loop_last2 a b lc acc t :
  a2b_loop 0 lc 0 acc (b2a_base64 [a; b] ++ t) = Ok (rev acc ++ [a; b]).
Proof.
  pose proof (byte_val_range a) as Ha; pose proof (byte_val_range b) as Hb.
  destruct (six_bit_ranges _ _ 0 Ha Hb ltac:(byte_lia)) as (R1 & R2 & R3 & _).
  destruct (decode_byte1 _ _ Ha Hb) as [D1 E1].
  destruct (decode_byte2 _ 0 Hb ltac:(byte_lia)) as [D2 _].
  cbn [b2a_base64 app]. b64_step. b64_step.
  replace (Z.shiftl (Z.land (byte_val b) 15) 2)
    with (Z.lor (Z.shiftl (Z.land (byte_val b) 15) 2) (Z.shiftr 0 6)) by apply Z.lor_0_r.
  b64_step. cbn -[byte_of_Z Z.lor Z.shiftl Z.shiftr Z.land].
  rewrite D1, E1, D2, !byte_of_Z_val. simpl. now rewrite <- app_assoc.
Qed.

Lemma a2b_loop_b2a l lc acc :
  a2b_loop 0 lc 0 acc (b2a_base64 l) = Ok (rev acc ++ l).
Proof.
  revert lc acc. induction l as [|a|a b|a b c rest IH] using list_ind3; intros lc acc.
  - simpl. now rewrite app_nil_r.
  - rewrite <- (app_nil_r (b2a_base64 [a])). apply a2b_loop_last1.
  - rewrite <- (app_nil_r (b2a_base64 [a; b])). apply a2b_loop_last2.
  - cbn [b2a_base64]. rewrite a2b_loop_enc3, IH.
    simpl. now rewrite <- !app_assoc.
Qed.

(** Every encoded character is ASCII. *)
Lemma b2a_base64_ascii l : Forall (fun c => 0 <= c < 128) (b2a_base64 l).
Proof.
  assert (Hch : forall i, 0 <= i < 64 -> 0 <= b2a_char i < 128)
    by (intros i Hi; apply (b2a_char_spec i Hi)).
  induction l as [|a|a b|a b c rest IH] using list_ind3; simpl;
    [constructor|..]; pose proof (byte_val_range a) as Ha;
    try pose proof (byte_val_range b) as Hb; try pose proof (byte_val_range c) as Hc.
  - destruct (six_bit_ranges _ 0 0 Ha ltac:(byte_lia) ltac:(byte_lia)) as (R1 & R2 & _).
    rewrite Z.lor_0_r in R2. repeat constructor; try apply Hch; unfold BASE64_PAD; lia.
  - destruct (six_bit_ranges _ _ 0 Ha Hb ltac:(byte_lia)) as (R1 & R2 & R3 & _).
    rewrite Z.lor_0_r in R3. repeat constructor; try apply Hch; unfold BASE64_PAD; lia.
  - destruct (six_bit_ranges _ _ _ Ha Hb Hc) as (R1 & R2 & R3 & R4).
    repeat constructor; try apply Hch; auto.
Qed.

Lemma codes_of_string_of_codes cs :
  Forall (fun c => 0 <= c < 256) cs -> codes_of_string (string_of_codes cs) = cs.
Proof.
  unfold codes_of_string, string_of_codes. rewrite list_ascii_of_string_of_list_ascii.
  induction 1 as [|c cs Hc _ IH]; simpl; [done|].
  rewrite nat_ascii_embedding by lia. rewrite Z2Nat.id by lia. now f_equal.
Qed.

(** The payload the service encodes is decoded to the same bytes. *)
Theorem b64decode_b64encode l : b64decode (Some (b64encode l)) = Ok l.
Proof.
  unfold b64decode, b64encode, bytes_from_decode_data.
  pose proof (b2a_base64_ascii l) as Ha.
  rewrite codes_of_string_of_codes
    by (rewrite List.Forall_forall in Ha |- *; intros c Hc; specialize (Ha c Hc); lia).
  replace (forallb (fun c => c <? 128) (b2a_base64 l)) with true.
  - simpl. apply (a2b_loop_b2a l 0 []).
  - symmetry. apply forallb_forall. intros c Hc.
    rewrite List.Forall_forall in Ha. specialize (Ha c Hc). lia.
Qed.

(** ** What the non-strict mode accepts *)

(** The characters the loop does not skip: the pad and the alphabet. *)
Definition b64_char (c : Z) : bool := (c =? BASE64_PAD) || (a2b_index c <? 64).

Lemma a2b_loop_filter qp lc pads acc s :
  a2b_loop qp lc pads acc s = a2b_loop qp lc pads acc (List.filter b64_char s).
Proof.
  revert qp lc pads acc. induction s as [|c s IH]; intros qp lc pads acc; [reflexivity|].
  cbn [List.filter]. unfold b64_char at 1.
  destruct (c =? BASE64_PAD) eqn:Ep; cbn [orb].
  - cbn [a2b_loop]. rewrite Ep, !IH. reflexivity.
  - destruct (Z.ltb_spec (a2b_index c) 64) as [Hv|Hv]; cbn [a2b_loop]; rewrite Ep.
    + replace (64 <=? a2b_index c) with false by (symmetry; apply Z.leb_gt; lia).
      rewrite !IH. reflexivity.
    + replace (64 <=? a2b_index c) with true by (symmetry; apply Z.leb_le; lia). apply IH.
Qed.

Lemma a2b_loop_b2a_padded l lc acc t :
  (length l mod 3 <> 0)%nat -> a2b_loop 0 lc 0 acc (b2a_base64 l ++ t) = Ok (rev acc ++ l).
Proof.
  revert lc acc. induction l as [|a|a b|a b c rest IH] using list_ind3; intros lc acc Hl.
  - simpl in Hl. contradiction.
  - apply a2b_loop_last1.
  - apply a2b_loop_last2.
  - cbn [b2a_base64]. rewrite <- app_assoc, a2b_loop_enc3, IH.
    + simpl. now rewrite <- !app_assoc.
    + replace (length (a :: b :: c :: rest)) with (length rest + 1 * 3)%nat in Hl by (simpl; lia).
      now rewrite Nat.Div0.mod_add in Hl.
Qed.

(** C32: [b64decode]'s non-strict mode (line 59): [binascii.a2b_base64]
    gives the same result as on its input with every character other than
    the 64 letters of the alphabet and [=] removed, so line breaks,
    spaces and stray symbols in the payload are ignored; and once the
    padding of a final group is complete the parse stops, so anything
    after an encoding that ends in padding is ignored. *)
Theorem a2b_base64_nonstrict s :
  a2b_base64 s = a2b_base64 (List.filter b64_char s) /\
  forall l t, (length l mod 3 <> 0)%nat -> a2b_base64 (b2a_base64 l ++ t) = Ok l.
Proof.
  split; [apply a2b_loop_filter|]. intros l t Hl. exact (a2b_loop_b2a_padded l 0 [] t Hl).
Qed.

Lemma a2b_base64_nonstrict_witness :
  (length [byte_of_Z 104; byte_of_Z 105] mod 3 <> 0)%nat /\
  a2b_base64 (b2a_base64 [byte_of_Z 104; byte_of_Z 105] ++ [33; 10; 65]) =
    Ok [byte_of_Z 104; byte_of_Z 105].
Proof.
  split; [vm_compute; discriminate|].
  apply (proj2 (a2b_base64_nonstrict [])). vm_compute. discriminate.
Defined.

End Base64.
