(* ===== verification/Aging.v ===== *)
(** * The aging client [age_photo] (main.py lines 46-59), without its semaphore

    [age_photo] wraps the uploaded photo in a [BytesIO] named
    ["input.png"], sends one [client.images.edit] request with the fixed
    model, prompt, [n], quality and size, and returns
    [base64.b64decode(res.data[0].b64_json)].  The [async with OPENAI_SEM]
    around it is interleaved with the other requests and lives in
    [Orchestrator]; this file holds what happens between entering and
    leaving the semaphore: the request that is sent ([edit_request_of]) and
    the function from the service's answer to the bytes or the exception
    that [age_photo] produces ([age_result]).

    The OpenAI SDK's [ImagesResponse.data] is [Optional[List[Image]]] and
    [Image.b64_json] is [Optional[str]]; both [None] cases are kept. *)

From S2P Require Import Prelude Base64.

Module Aging.

Local Open Scope string_scope.

(** [MODEL_NAME] (line 20) and [PROMPT] (lines 26-30). *)
Definition MODEL_NAME : string := "gpt-image-1".
Definition PROMPT : string :=
  "сделай фотографию этого человека через 15 лет. "
  ++ "сохрани основные черты лица, цвет волос, элементы одежды. "
  ++ "он должен выглядеть успешным, фотография должна быть портретной".

(** The keyword arguments of [client.images.edit] (lines 51-58). *)
Record edit_request := mk_edit_request {
  req_model : string;
  req_image : list (string * bytes);   (** [image=[buf]], [buf.name] and contents *)
  req_prompt : string;
  req_n : nat;
  req_quality : string;
  req_size : string
}.

Definition edit_request_of (original : bytes) : edit_request :=
  {| req_model := MODEL_NAME;
     req_image := [("input.png", original)];
     req_prompt := PROMPT;
     req_n := 1;
     req_quality := "high";
     req_size := "1024x1024" |}.

(** [openai.types.Image] and [ImagesResponse], the fields the code reads. *)
Record image_item := mk_image_item { b64_json : option string }.
Record images_response := mk_images_response { data : option (list image_item) }.

(** [base64.b64decode(res.data[0].b64_json)] (line 59). *)
Definition decode_response (r : images_response) : res bytes :=
  match data r with
  | None => Err (TypeError "'NoneType' object is not subscriptable")
  | Some [] => Err (IndexError "list index out of range")
  | Some (it :: _) => Base64.b64decode (b64_json it)
  end.

(** The value of [age_photo(original)] once [client.images.edit] has
    returned [call] (a response or the exception it raised). *)
Definition age_result (call : res images_response) : res bytes :=
  let! r := call in decode_response r.

(** C12: when the service answers with one image whose [b64_json] is the
    base64 encoding of [png], [age_photo] returns exactly [png]. *)
Theorem age_result_answer png rest :
  age_result (Ok (mk_images_response
                    (Some (mk_image_item (Some (Base64.b64encode png)) :: rest)))) = Ok png.
Proof. apply Base64.b64decode_b64encode. Qed.

End Aging.
