(* ===== verification/Config.v ===== *)
(** * Configuration and the [/start] reply (main.py lines 15-22 and 95-96)

    At import time the module runs [load_dotenv()], reads the two
    credentials and [TEMPLATE_PATH] (default ["data/template.png"]) with
    [os.getenv], and raises [RuntimeError] unless both credentials are
    truthy.  The environment is an association list searched from the
    front; [load_dotenv] appends the [.env] file's entries behind the
    process environment, the last line of a key set twice in [.env] first
    (python-dotenv reads the file into a dict, so a later line overrides an
    earlier one), which is python-dotenv's default ([override=False]:
    a variable already set keeps its value).  A Python [str] is truthy
    when it is not empty and [None] is falsy. *)

From S2P Require Import Prelude Aging.

Module Config.

Local Open Scope string_scope.

Definition env := list (string * string).

(** [os.getenv(k)] and [os.getenv(k, d)]. *)
Fixpoint getenv (e : env) (k : string) : option string :=
  match e with
  | [] => None
  | (k', v) :: rest => if String.eqb k k' then Some v else getenv rest k
  end.

Definition getenv_default (e : env) (k d : string) : string :=
  match getenv e k with Some v => v | None => d end.

(** [load_dotenv()]: the [.env] entries (in file order), behind the
    process environment; among them the last line for a key wins. *)
Definition load_dotenv (dotenv process : env) : env := (process ++ rev dotenv)%list.

(** Python truthiness of [Optional[str]]. *)
Definition truthy (o : option string) : bool :=
  match o with Some s => negb (String.eqb s "") | None => false end.

Record config := mk_config {
  OPENAI_API_KEY : option string;
  TELEGRAM_BOT_KEY : option string;
  TEMPLATE_PATH : string
}.

(** Lines 17-22. *)
Definition load_config (e : env) : res config :=
  let api := getenv e "OPENAI_API_KEY" in
  let bot := getenv e "TELEGRAM_BOT_KEY" in
  let path := getenv_default e "TEMPLATE_PATH" "data/template.png" in
  if negb (truthy api && truthy bot)
  then raise! (RuntimeError "OPENAI_API_KEY and TELEGRAM_BOT_KEY error")
  else Ok (mk_config api bot path).

(** The reply of the [/start] handler (line 96). *)
Definition START_TEXT : string :=
  "Привет! Пришлите фото — верну коллаж «сейчас / через 25 лет».".

Lemma getenv_app e1 e2 k :
  getenv (e1 ++ e2)%list k = match getenv e1 k with Some v => Some v | None => getenv e2 k end.
Proof.
  induction e1 as [|[k' v] e1 IH]; simpl; [reflexivity|].
  destruct (String.eqb k k'); [reflexivity | exact IH].
Qed.

Lemma truthy_true o : truthy o = true <-> exists s, o = Some s /\ s <> "".
Proof.
  destruct o as [s|]; simpl; [|split; [discriminate | intros (? & ? & _); discriminate]].
  destruct (String.eqb_spec s ""); simpl; split.
  - discriminate.
  - intros (? & [= <-] & ?). contradiction.
  - intros _. eauto.
  - reflexivity.
Qed.

(** C22: the start-up check of lines 21-22: the configuration loads
    exactly when both credentials are set to non-empty strings, and then
    carries them and [TEMPLATE_PATH] or its default; otherwise the import
    raises [RuntimeError] with the code's message.  A credential set to the
    empty string is rejected like a missing one, and a variable of the
    process environment wins over the [.env] file, in which the last line
    for a key wins. *)
Theorem load_config_spec dotenv process :
  let e := load_dotenv dotenv process in
  (forall c, load_config e = Ok c <->
     exists a t, getenv e "OPENAI_API_KEY" = Some a /\ a <> "" /\
       getenv e "TELEGRAM_BOT_KEY" = Some t /\ t <> "" /\
       c = mk_config (Some a) (Some t) (getenv_default e "TEMPLATE_PATH" "data/template.png")) /\
  (forall err, load_config e = Err err ->
     err = RuntimeError "OPENAI_API_KEY and TELEGRAM_BOT_KEY error") /\
  (forall k, getenv e k = match getenv process k with Some v => Some v | None => getenv (rev dotenv) k end).
Proof.
  intros e. split_and!; [| | intros k; apply getenv_app].
  - intros c. unfold load_config.
    destruct (truthy (getenv e "OPENAI_API_KEY") && truthy (getenv e "TELEGRAM_BOT_KEY")) eqn:E;
      simpl; rewrite andb_true_iff in E || rewrite andb_false_iff in E.
    + destruct E as [(a & Ea & Ha)%truthy_true (t & Et & Ht)%truthy_true].
      rewrite Ea, Et. split; [intros [= <-]; eauto 10|].
      intros (a' & t' & Ea' & _ & Et' & _ & ->). congruence.
    + split; [discriminate|]. intros (a & t & Ea & Ha & Et & Ht & _).
      destruct E as [E|E]; rewrite ?Ea, ?Et in E; simpl in E;
        apply negb_false_iff, String.eqb_eq in E; contradiction.
  - intros err. unfold load_config. destruct (negb _); [now intros [= <-] | discriminate].
Qed.

End Config.
