(* ===== verification/Bot.v ===== *)
(** * The bot's wiring: [main], [start] and the entry of [handle_photo]

    [main] (lines 121-128) registers two handlers in group 0, in this
    order: [CommandHandler("start", start)] and
    [MessageHandler(filters.PHOTO, handle_photo)]; python-telegram-bot's
    [Application.process_update] gives an update to the first handler of
    the group whose [check_update] accepts it, and to no other.

    The two checks are modelled from python-telegram-bot (v20 and later):
    - [CommandHandler]: the update's effective message is a new or edited
      message (the default filter [filters.UpdateType.MESSAGES]) whose text
      starts with a [bot_command] entity [/cmd] or [/cmd@user]; [cmd] in
      lower case must be ["start"] and [user], when present, the bot's user
      name in lower case.  Telegram marks a leading [/] followed by letters,
      digits and [_] (and optionally [@] and a user name) as that entity.
    - [filters.PHOTO]: a message update ([message], [edited_message],
      [channel_post] or [edited_channel_post]) whose message has a
      non-empty [photo] list.

    [start] replies through [update.message] and [handle_photo] reads
    [update.message.photo[-1]] (line 100): both go through
    [update.message], which is [None] for an edited message or a channel
    post, and then raise [AttributeError].  What [handle_photo] does after
    choosing the photo (download, status message, task) is the [Arrive]
    event of [Orchestrator]. *)

From S2P Require Import Prelude Config.

Module Bot.

Local Open Scope string_scope.

(** [telegram.PhotoSize], [telegram.Message] and [telegram.Update], the
    fields the code and the handlers read. *)
Record photo_size := mk_photo_size { file_id : string; ps_width : nat; ps_height : nat }.

Record tg_message := mk_message {
  text : option string;
  photo : list photo_size            (** [Message.photo], a tuple of sizes, smallest first *)
}.

Record update := mk_update {
  message : option tg_message;
  edited_message : option tg_message;
  channel_post : option tg_message;
  edited_channel_post : option tg_message
}.

(** [Update.effective_message], for the kinds of update above. *)
Definition effective_message (u : update) : option tg_message :=
  match message u, edited_message u, channel_post u with
  | Some m, _, _ | None, Some m, _ | None, None, Some m => Some m
  | None, None, None => edited_channel_post u
  end.

(** ASCII [str.lower()] and the characters of a command. *)
Definition lower_char (c : ascii) : ascii :=
  let n := nat_of_ascii c in
  if (65 <=? n)%nat && (n <=? 90)%nat then ascii_of_nat (n + 32) else c.

Definition lower (s : list ascii) : list ascii := map lower_char s.

Definition is_cmd_char (c : ascii) : bool :=
  let n := nat_of_ascii c in
  (((48 <=? n) && (n <=? 57)) || ((65 <=? n) && (n <=? 90)) || ((97 <=? n) && (n <=? 122))
   || (n =? 95))%nat.

Fixpoint take_while (p : ascii -> bool) (l : list ascii) : list ascii :=
  match l with
  | c :: r => if p c then c :: take_while p r else []
  | [] => []
  end.

(** The leading [bot_command] entity of a text, split at [@]: the command
    and the user name it is addressed to, if any. *)
Definition bot_command (s : string) : option (list ascii * option (list ascii)) :=
  match list_ascii_of_string s with
  | "/"%char :: rest =>
      let cmd := take_while is_cmd_char rest in
      match cmd with
      | [] => None
      | _ =>
          match drop (length cmd) rest with
          | "@"%char :: r =>
              match take_while is_cmd_char r with
              | [] => Some (cmd, None)
              | user => Some (cmd, Some user)
              end
          | _ => Some (cmd, None)
          end
      end
  | _ => None
  end.

(** [CommandHandler("start", start).check_update]. *)
Definition is_start (bot_username : string) (m : tg_message) : bool :=
  match text m with
  | Some s =>
      match bot_command s with
      | Some (cmd, user) =>
          bool_decide (lower cmd = list_ascii_of_string "start") &&
          match user with
          | None => true
          | Some n => bool_decide (lower n = lower (list_ascii_of_string bot_username))
          end
      | None => false
      end
  | None => false
  end.

Definition command_check (bot_username : string) (u : update) : bool :=
  match message u, edited_message u with
  | Some m, _ | None, Some m => is_start bot_username m
  | None, None => false
  end.

(** [MessageHandler(filters.PHOTO, handle_photo).check_update]. *)
Definition photo_check (u : update) : bool :=
  match effective_message u with
  | Some m => negb (bool_decide (photo m = []))
  | None => false
  end.

Inductive handler := HStart | HPhoto.

(** Lines 125-126, in registration order. *)
Definition handlers : list handler := [HStart; HPhoto].

Definition check_update (bot_username : string) (h : handler) (u : update) : bool :=
  match h with HStart => command_check bot_username u | HPhoto => photo_check u end.

(** [Application.process_update] for group 0: the first handler that
    accepts the update. *)
Definition dispatch (bot_username : string) (u : update) : option handler :=
  List.find (fun h => check_update bot_username h u) handlers.

(** [start] (lines 95-96): the text it replies with. *)
Definition start (u : update) : res string :=
  match message u with
  | Some _ => Ok Config.START_TEXT
  | None => raise! (AttributeError "'NoneType' object has no attribute 'reply_text'")
  end.

(** Line 100 up to [get_file]: the photo size [handle_photo] downloads. *)
Definition handle_photo_entry (u : update) : res photo_size :=
  match message u with
  | None => raise! (AttributeError "'NoneType' object has no attribute 'photo'")
  | Some m =>
      match last (photo m) with
      | Some p => Ok p
      | None => raise! (IndexError "tuple index out of range")
      end
  end.

(** What one update leads to. *)
Inductive reaction :=
| Ignored
| RanStart (r : res string)
| RanPhoto (r : res photo_size).

Definition process_update (bot_username : string) (u : update) : reaction :=
  match dispatch bot_username u with
  | None => Ignored
  | Some HStart => RanStart (start u)
  | Some HPhoto => RanPhoto (handle_photo_entry u)
  end.

(** ** Which handler runs, and what it does *)

Lemma last_some_ne {A} (l : list A) p : last l = Some p -> l <> [].
Proof. intros H ->. discriminate. Qed.

Lemma process_new_message bot u m :
  message u = Some m ->
  process_update bot u =
    if is_start bot m then RanStart (start u)
    else if negb (bool_decide (photo m = [])) then RanPhoto (handle_photo_entry u) else Ignored.
Proof.
  intros Hm. unfold process_update, dispatch. simpl.
  unfold command_check, photo_check, effective_message. rewrite Hm.
  destruct (is_start bot m); [reflexivity|]. destruct (negb _); reflexivity.
Qed.

(** A new photo message that is not a [/start] command reaches
    [handle_photo], which picks the last size. *)
Lemma process_photo_message bot u m p :
  message u = Some m -> is_start bot m = false -> last (photo m) = Some p ->
  process_update bot u = RanPhoto (Ok p).
Proof.
  intros Hm Hs Hp. rewrite (process_new_message bot u m Hm), Hs.
  rewrite bool_decide_false by exact (last_some_ne _ _ Hp). unfold handle_photo_entry.
  simpl. now rewrite Hm, Hp.
Qed.

(** Conversely, [handle_photo] gets past [get_file]'s argument only for a
    new message that is not a [/start] command, with the last size. *)
Lemma process_photo_ok_inv bot u p :
  process_update bot u = RanPhoto (Ok p) ->
  exists m, message u = Some m /\ is_start bot m = false /\ last (photo m) = Some p.
Proof.
  destruct (message u) as [m|] eqn:Hm.
  - rewrite (process_new_message bot u m Hm). destruct (is_start bot m) eqn:Hs; [discriminate|].
    destruct (negb _); [|discriminate]. unfold handle_photo_entry. rewrite Hm.
    destruct (last (photo m)) eqn:Hl; [|discriminate]. intros [= ->]. eauto.
  - unfold process_update. destruct (dispatch bot u) as [[]|]; try discriminate.
    unfold handle_photo_entry. rewrite Hm. discriminate.
Qed.

(** C27: an update carrying a new message is handled as [main] wires it:
    a [/start] addressed to the bot (also [/START] or [/start@<bot>]) is
    answered with the greeting; otherwise a message with a photo goes to
    [handle_photo], which downloads the last, i.e. largest, photo size;
    any other new message is ignored. *)
Theorem process_update_spec bot u m :
  message u = Some m ->
  (is_start bot m = true -> process_update bot u = RanStart (Ok Config.START_TEXT)) /\
  (forall p, is_start bot m = false -> last (photo m) = Some p ->
     process_update bot u = RanPhoto (Ok p)) /\
  (is_start bot m = false -> photo m = [] -> process_update bot u = Ignored).
Proof.
  intros Hm. split_and!.
  - intros Hs. rewrite (process_new_message bot u m Hm), Hs. unfold start. now rewrite Hm.
  - intros p. exact (process_photo_message bot u m p Hm).
  - intros Hs Hp. rewrite (process_new_message bot u m Hm), Hs, Hp. reflexivity.
Qed.

(** C28: updates that are not new messages reach the handlers too, but
    both handlers go through [update.message], which is [None] for them:
    an edited photo message or a channel post with a photo (for
    [filters.PHOTO] accepts every message update) makes [handle_photo]
    raise [AttributeError] before any status is sent, and an edited
    [/start] makes [start] raise it. *)
Theorem non_message_updates_raise bot u m :
  message u = None -> effective_message u = Some m ->
  (command_check bot u = false -> photo m <> [] ->
     process_update bot u =
       RanPhoto (Err (AttributeError "'NoneType' object has no attribute 'photo'"))) /\
  (command_check bot u = true ->
     process_update bot u =
       RanStart (Err (AttributeError "'NoneType' object has no attribute 'reply_text'"))).
Proof.
  intros Hm He. unfold process_update, dispatch, start, handle_photo_entry. simpl.
  rewrite Hm. split.
  - intros -> Hp. unfold photo_check. rewrite He, bool_decide_false by exact Hp. reflexivity.
  - intros ->. reflexivity.
Qed.

(** ** Concrete updates *)

Definition sizes : list photo_size :=
  [mk_photo_size "small" 90 67; mk_photo_size "medium" 320 240; mk_photo_size "large" 1280 960].

Definition new_update (m : tg_message) : update := mk_update (Some m) None None None.
Definition edited_update (m : tg_message) : update := mk_update None (Some m) None None.

Lemma process_update_spec_witness :
  (is_start "AgingBot" (mk_message (Some "/START@agingbot") []) = true ->
   process_update "AgingBot" (new_update (mk_message (Some "/START@agingbot") [])) =
     RanStart (Ok Config.START_TEXT)) /\
  (forall p, is_start "AgingBot" (mk_message (Some "/START@agingbot") []) = false ->
     last (photo (mk_message (Some "/START@agingbot") [])) = Some p ->
     process_update "AgingBot" (new_update (mk_message (Some "/START@agingbot") [])) =
       RanPhoto (Ok p)) /\
  (is_start "AgingBot" (mk_message (Some "/START@agingbot") []) = false ->
   photo (mk_message (Some "/START@agingbot") []) = [] ->
   process_update "AgingBot" (new_update (mk_message (Some "/START@agingbot") [])) = Ignored).
Proof. apply (process_update_spec "AgingBot" _ (mk_message (Some "/START@agingbot") [])). reflexivity. Defined.

Lemma non_message_updates_raise_witness :
  (command_check "AgingBot" (edited_update (mk_message None sizes)) = false -> photo (mk_message None sizes) <> [] ->
     process_update "AgingBot" (edited_update (mk_message None sizes)) =
       RanPhoto (Err (AttributeError "'NoneType' object has no attribute 'photo'"))) /\
  (command_check "AgingBot" (edited_update (mk_message None sizes)) = true ->
     process_update "AgingBot" (edited_update (mk_message None sizes)) =
       RanStart (Err (AttributeError "'NoneType' object has no attribute 'reply_text'"))).
Proof.
  apply (non_message_updates_raise "AgingBot" _ (mk_message None sizes)); reflexivity.
Defined.

(** The command check on a few texts, and a new photo message. *)
Example start_command_cases :
  is_start "AgingBot" (mk_message (Some "/start") []) = true /\
  is_start "AgingBot" (mk_message (Some "/start extra words") []) = true /\
  is_start "AgingBot" (mk_message (Some "/start@OtherBot") []) = false /\
  is_start "AgingBot" (mk_message (Some "/startle") []) = false /\
  is_start "AgingBot" (mk_message (Some "start") []) = false /\
  process_update "AgingBot" (new_update (mk_message None sizes)) =
    RanPhoto (Ok (mk_photo_size "large" 1280 960)).
Proof. vm_compute. repeat split. Qed.

End Bot.
