(* ===== verification/Orchestrator.v ===== *)
(** * The request orchestrator: [handle_photo] and its [work] tasks (main.py 99-118)

    The whole running bot is one world: the semaphore [OPENAI_SEM], the
    global [TOTAL_GENERATED], the table of [work()] tasks created by
    [context.application.create_task], the messages sent to the chat and
    the log.  A task is its coroutine frame: the locals [before_bytes],
    [after_bytes], [collage] and a program counter [pc] naming the [await]
    it is suspended at.  The asyncio event loop resumes one suspended
    coroutine at a time; each resumption runs to the next [await] and is one
    [event] here, which also carries the result the awaited operation
    produced (Telegram call, OpenAI call).  A trace of events is one
    interleaving of the scheduler with one behaviour of the environment;
    [run step] replays it and the reachable worlds are those of some trace.

    [make_collage] runs in a worker thread ([asyncio.to_thread]) and is a
    deterministic function of its two arguments and the template file; the
    orchestrator only sees it through the [Composer] interface, which
    [Collage] implements. *)

From S2P Require Import Prelude Semaphore Aging.

Module Orchestrator.

(** What [work] needs from [make_collage]: a function from the two photos
    to the collage bytes or the exception it raises. *)
Class Composer := { compose : bytes -> bytes -> res bytes }.

Local Open Scope string_scope.

(** The chat texts of lines 102, 112 and 116. *)
Definition PROCESSING : string := "⏳ Обрабатываю…".
Definition DONE : string := "Готово!".
Definition FAILED (e : exc) : string := "Не получилось: " ++ exc_str e.

(** The capacity of [OPENAI_SEM = asyncio.Semaphore(4)] (line 32). *)
Definition OPENAI_SEM_CAP : nat := 4.

(** Where a [work()] coroutine is suspended. *)
Inductive outcome :=
| Succeeded                (** [reply_photo] returned: [work] ended normally *)
| Failed (e : exc)         (** the [except] branch's edit returned *)
| Crashed (e : exc).       (** the [except] branch's edit raised [e]: the task dies *)

Inductive pc :=
| Acquiring      (** created, not yet run: will enter [async with OPENAI_SEM] *)
| Waiting        (** parked in [OPENAI_SEM._waiters] *)
| Woken          (** handed a slot by [release], not yet resumed *)
| Calling        (** holds a slot, [await client.images.edit(...)] pending *)
| Composing      (** [await asyncio.to_thread(make_collage, ...)] pending *)
| EditingDone    (** [await status_msg.edit_text("Готово!")] pending *)
| Replying       (** [await update.message.reply_photo(collage)] pending *)
| Failing (e : exc)  (** in [except]: [await status_msg.edit_text(f"...{e}")] *)
| Finished (o : outcome).

#[export] Instance outcome_eq_dec : EqDecision outcome.
Proof. solve_decision. Defined.
#[export] Instance pc_eq_dec : EqDecision pc.
Proof. solve_decision. Defined.

Record task := mk_task {
  before_bytes : bytes;
  after_bytes : option bytes;
  collage : option bytes;
  t_pc : pc
}.

Inductive message :=
| MStatus (text : string)     (** [update.message.reply_text(...)], the status *)
| MEdit (text : string)       (** [status_msg.edit_text(...)] *)
| MPhoto (png : bytes).       (** [update.message.reply_photo(collage)] *)

Inductive log_entry :=
| LogTotal (n : nat)          (** [logging.info("... %d", TOTAL_GENERATED)] *)
| LogError (e : exc).         (** [logging.exception("Ошибка обработки")] *)

Record world := mk_world {
  w_sem : Semaphore.sem;                (** [OPENAI_SEM] *)
  w_total : nat;                        (** [TOTAL_GENERATED] *)
  w_tasks : list task;                  (** the tasks, by creation order *)
  w_out : list (nat * message);         (** chat output, tagged by request *)
  w_log : list log_entry
}.

Definition init : world := mk_world (Semaphore.new OPENAI_SEM_CAP) 0 [] [] [].

(** One resumption of the event loop, with the result of what was awaited. *)
Inductive event :=
| Arrive (before : bytes) (h : res unit)
    (** [handle_photo] runs: [get_file], [download_as_bytearray] and the
        status [reply_text] succeed ([Ok]) or one of them raises *)
| Enter (i : nat)
    (** task [i] is scheduled at [Acquiring] or [Woken] *)
| ApiReturns (i : nat) (r : res Aging.images_response)
    (** [client.images.edit] returns or raises in task [i] *)
| ComposeReturns (i : nat)
    (** the worker thread running [make_collage] for task [i] finishes *)
| EditReturns (i : nat) (r : res unit)
    (** the pending [edit_text] of task [i] returns or raises *)
| ReplyReturns (i : nat) (r : res unit).
    (** the pending [reply_photo] of task [i] returns or raises *)

Section Step.
Context `{C : Composer}.

Definition set_pc (t : task) (p : pc) : task :=
  mk_task (before_bytes t) (after_bytes t) (collage t) p.

Definition set_task (w : world) (i : nat) (t : task) : world :=
  mk_world (w_sem w) (w_total w) (<[i:=t]> (w_tasks w)) (w_out w) (w_log w).

(** Entering the [except] branch: the exception is logged, then the
    failure edit is awaited. *)
Definition fail_task (w : world) (i : nat) (t : task) (e : exc) : world :=
  mk_world (w_sem w) (w_total w) (<[i:=set_pc t (Failing e)]> (w_tasks w))
    (w_out w) (w_log w ++ [LogError e]).

(** [_wake_up_next]: the woken waiter now holds the slot. *)
Definition wake (oj : option nat) (ts : list task) : list task :=
  match oj with
  | Some j => match ts !! j with Some tj => <[j:=set_pc tj Woken]> ts | None => ts end
  | None => ts
  end.

Definition step (w : world) (ev : event) : option world :=
  match ev with
  | Arrive _ (Err _) => Some w
  | Arrive b (Ok _) =>
      (* status_msg = await reply_text(...); create_task(work()) *)
      let i := length (w_tasks w) in
      Some (mk_world (w_sem w) (w_total w) (w_tasks w ++ [mk_task b None None Acquiring])
              (w_out w ++ [(i, MStatus PROCESSING)]) (w_log w))
  | Enter i =>
      t ← w_tasks w !! i;
      match t_pc t with
      | Acquiring =>
          let '(s', got) := Semaphore.acquire (w_sem w) i in
          Some (mk_world s' (w_total w)
                  (<[i:=set_pc t (if got then Calling else Waiting)]> (w_tasks w))
                  (w_out w) (w_log w))
      | Woken => Some (set_task w i (set_pc t Calling))
      | _ => None
      end
  | ApiReturns i r =>
      t ← w_tasks w !! i;
      match t_pc t with
      | Calling =>
          (* leaving [async with OPENAI_SEM] on both paths releases the slot *)
          let '(s', woken) := Semaphore.release (w_sem w) in
          let w1 := mk_world s' (w_total w) (wake woken (w_tasks w)) (w_out w) (w_log w) in
          match Aging.age_result r with
          | Ok a => Some (set_task w1 i (mk_task (before_bytes t) (Some a) None Composing))
          | Err e => Some (fail_task w1 i t e)
          end
      | _ => None
      end
  | ComposeReturns i =>
      t ← w_tasks w !! i;
      match t_pc t, after_bytes t with
      | Composing, Some a =>
          match compose (before_bytes t) a with
          | Ok c =>
              (* with COUNTER_LOCK: TOTAL_GENERATED += 1; logging.info(...) *)
              let n := S (w_total w) in
              Some (mk_world (w_sem w) n
                      (<[i:=mk_task (before_bytes t) (Some a) (Some c) EditingDone]> (w_tasks w))
                      (w_out w) (w_log w ++ [LogTotal n]))
          | Err e => Some (fail_task w i t e)
          end
      | _, _ => None
      end
  | EditReturns i r =>
      t ← w_tasks w !! i;
      match t_pc t, r with
      | EditingDone, Ok _ =>
          Some (mk_world (w_sem w) (w_total w) (<[i:=set_pc t Replying]> (w_tasks w))
                  (w_out w ++ [(i, MEdit DONE)]) (w_log w))
      | EditingDone, Err e => Some (fail_task w i t e)
      | Failing e, Ok _ =>
          Some (mk_world (w_sem w) (w_total w) (<[i:=set_pc t (Finished (Failed e))]> (w_tasks w))
                  (w_out w ++ [(i, MEdit (FAILED e))]) (w_log w))
      | Failing _, Err e' => Some (set_task w i (set_pc t (Finished (Crashed e'))))
      | _, _ => None
      end
  | ReplyReturns i r =>
      t ← w_tasks w !! i;
      match t_pc t, collage t, r with
      | Replying, Some c, Ok _ =>
          Some (mk_world (w_sem w) (w_total w) (<[i:=set_pc t (Finished Succeeded)]> (w_tasks w))
                  (w_out w ++ [(i, MPhoto c)]) (w_log w))
      | Replying, _, Err e => Some (fail_task w i t e)
      | _, _, _ => None
      end
  end.


(** The same transitions as an inductive relation, one rule per branch of
    [step], so that invariants are proved by rule induction. *)
Inductive sstep : world -> event -> world -> Prop :=
| s_arrive_err w b e : sstep w (Arrive b (Err e)) w
| s_arrive w b u :
    sstep w (Arrive b (Ok u))
      (mk_world (w_sem w) (w_total w) (w_tasks w ++ [mk_task b None None Acquiring])
         (w_out w ++ [(length (w_tasks w), MStatus PROCESSING)]) (w_log w))
| s_enter w i t s' got :
    w_tasks w !! i = Some t -> t_pc t = Acquiring ->
    Semaphore.acquire (w_sem w) i = (s', got) ->
    sstep w (Enter i)
      (mk_world s' (w_total w)
         (<[i:=set_pc t (if got then Calling else Waiting)]> (w_tasks w)) (w_out w) (w_log w))
| s_resume w i t :
    w_tasks w !! i = Some t -> t_pc t = Woken ->
    sstep w (Enter i) (set_task w i (set_pc t Calling))
| s_api_ok w i t r s' oj a :
    w_tasks w !! i = Some t -> t_pc t = Calling ->
    Semaphore.release (w_sem w) = (s', oj) -> Aging.age_result r = Ok a ->
    sstep w (ApiReturns i r)
      (set_task (mk_world s' (w_total w) (wake oj (w_tasks w)) (w_out w) (w_log w)) i
         (mk_task (before_bytes t) (Some a) None Composing))
| s_api_err w i t r s' oj e :
    w_tasks w !! i = Some t -> t_pc t = Calling ->
    Semaphore.release (w_sem w) = (s', oj) -> Aging.age_result r = Err e ->
    sstep w (ApiReturns i r)
      (fail_task (mk_world s' (w_total w) (wake oj (w_tasks w)) (w_out w) (w_log w)) i t e)
| s_compose_ok w i t a c :
    w_tasks w !! i = Some t -> t_pc t = Composing -> after_bytes t = Some a ->
    compose (before_bytes t) a = Ok c ->
    sstep w (ComposeReturns i)
      (mk_world (w_sem w) (S (w_total w))
         (<[i:=mk_task (before_bytes t) (Some a) (Some c) EditingDone]> (w_tasks w))
         (w_out w) (w_log w ++ [LogTotal (S (w_total w))]))
| s_compose_err w i t a e :
    w_tasks w !! i = Some t -> t_pc t = Composing -> after_bytes t = Some a ->
    compose (before_bytes t) a = Err e ->
    sstep w (ComposeReturns i) (fail_task w i t e)
| s_edit_done w i t u :
    w_tasks w !! i = Some t -> t_pc t = EditingDone ->
    sstep w (EditReturns i (Ok u))
      (mk_world (w_sem w) (w_total w) (<[i:=set_pc t Replying]> (w_tasks w))
         (w_out w ++ [(i, MEdit DONE)]) (w_log w))
| s_edit_done_err w i t e :
    w_tasks w !! i = Some t -> t_pc t = EditingDone ->
    sstep w (EditReturns i (Err e)) (fail_task w i t e)
| s_edit_failed w i t e u :
    w_tasks w !! i = Some t -> t_pc t = Failing e ->
    sstep w (EditReturns i (Ok u))
      (mk_world (w_sem w) (w_total w) (<[i:=set_pc t (Finished (Failed e))]> (w_tasks w))
         (w_out w ++ [(i, MEdit (FAILED e))]) (w_log w))
| s_edit_failed_err w i t e e' :
    w_tasks w !! i = Some t -> t_pc t = Failing e ->
    sstep w (EditReturns i (Err e')) (set_task w i (set_pc t (Finished (Crashed e'))))
| s_reply w i t c u :
    w_tasks w !! i = Some t -> t_pc t = Replying -> collage t = Some c ->
    sstep w (ReplyReturns i (Ok u))
      (mk_world (w_sem w) (w_total w) (<[i:=set_pc t (Finished Succeeded)]> (w_tasks w))
         (w_out w ++ [(i, MPhoto c)]) (w_log w))
| s_reply_err w i t e :
    w_tasks w !! i = Some t -> t_pc t = Replying ->
    sstep w (ReplyReturns i (Err e)) (fail_task w i t e).

Lemma step_sstep w ev w' : step w ev = Some w' -> sstep w ev w'.
Proof.
  destruct ev as [b [u|e]|i|i r|i|i [u|e]|i [u|e]]; simpl; intros H;
    try (injection H as <-; constructor);
    destruct (w_tasks w !! i) as [t|] eqn:Ht; simpl in H; try discriminate;
    destruct (t_pc t) eqn:Hpc; try discriminate;
    try (destruct (Semaphore.acquire (w_sem w) i) as [s' got] eqn:Ha;
         injection H as <-; eapply s_enter; eauto; fail);
    try (injection H as <-; econstructor; eauto; fail).
  - destruct (Semaphore.release (w_sem w)) as [s' oj] eqn:Hr.
    destruct (Aging.age_result r) as [a|e] eqn:Hres; injection H as <-;
      econstructor; eauto.
  - destruct (after_bytes t) as [a|] eqn:Ha; [|discriminate].
    destruct (compose (before_bytes t) a) as [c|e] eqn:Hc; injection H as <-;
      econstructor; eauto.
  - destruct (collage t) as [c|] eqn:Hc; [|discriminate].
    injection H as <-. econstructor; eauto.
  - destruct (collage t); injection H as <-; econstructor; eauto.
Qed.

Lemma sstep_step w ev w' : sstep w ev w' -> step w ev = Some w'.
Proof.
  destruct 1; simpl; try reflexivity;
    repeat match goal with
    | H : _ !! _ = Some _ |- _ => rewrite H; simpl; clear H
    | H : t_pc _ = _ |- _ => rewrite H; clear H
    | H : after_bytes _ = _ |- _ => rewrite H; clear H
    | H : collage _ = _ |- _ => rewrite H; clear H
    | H : compose _ _ = _ |- _ => rewrite H; clear H
    | H : Aging.age_result _ = _ |- _ => rewrite H; clear H
    | H : Semaphore.release _ = _ |- _ => rewrite H; clear H
    | H : Semaphore.acquire _ _ = _ |- _ => rewrite H; clear H
    end; try reflexivity.
  destruct (collage t); reflexivity.
Qed.

Definition reachable (w : world) : Prop := exists evs, run step init evs = Some w.

End Step.

(** ** Observations on a world *)

Definition is_holder (t : task) : bool :=
  match t_pc t with Woken | Calling => true | _ => false end.
Definition is_calling (t : task) : bool :=
  match t_pc t with Calling => true | _ => false end.
Definition is_waiting (t : task) : bool :=
  match t_pc t with Waiting => true | _ => false end.
Definition is_finished (t : task) : bool :=
  match t_pc t with Finished _ => true | _ => false end.
Definition is_counted (t : task) : bool :=
  match collage t with Some _ => true | None => false end.

(** The messages of request [i], in the order they were sent. *)
Definition msgs_of (i : nat) (out : list (nat * message)) : list message :=
  map snd (List.filter (fun p => Nat.eqb (fst p) i) out).

Definition logged_totals (l : list log_entry) : list nat :=
  omap (fun e => match e with LogTotal n => Some n | LogError _ => None end) l.

End Orchestrator.
