(* ===== verification/OrchestratorInv.v ===== *)
(** * Invariants of the orchestrator, by rule induction on [sstep]

    [inv] collects what holds in every reachable world of [Orchestrator]:
    - [TOTAL_GENERATED] is the number of tasks whose [collage] local is set,
      and the totals logged under [COUNTER_LOCK] are exactly 1, 2, ..., N;
    - each coroutine frame is consistent with its program counter (a
      [collage] is always [make_collage(before, after)] of that task);
    - [OPENAI_SEM]'s counter plus the number of slot holders is 4, the
      waiter queue is duplicate-free, lists exactly the parked tasks, and is
      empty unless the counter is 0;
    - the messages of each request are one of the sequences its program
      counter allows.
    Each component has its own preservation lemma; [inv_step] combines
    them and [reachable_inv] lifts them to every reachable world. *)

From S2P Require Import Prelude Semaphore Aging Orchestrator.

Module OrchestratorInv.
Import Orchestrator.

Section Inv.
Context `{C : Composer}.

(** A [collage] local always holds [make_collage(before, after)]. *)
Definition collage_ok (t : task) : Prop :=
  forall c, collage t = Some c ->
    exists a, after_bytes t = Some a /\ compose (before_bytes t) a = Ok c.

(** Which locals are assigned at each suspension point of [work]. *)
Definition locals_ok (p : pc) (t : task) : Prop :=
  match p with
  | Acquiring | Waiting | Woken | Calling => after_bytes t = None /\ collage t = None
  | Composing => is_Some (after_bytes t) /\ collage t = None
  | EditingDone | Replying | Finished Succeeded => is_Some (collage t)
  | Failing _ | Finished (Failed _) | Finished (Crashed _) => True
  end.

Definition frame_inv (t : task) : Prop := collage_ok t /\ locals_ok (t_pc t) t.

Definition msgs_inv (t : task) (ms : list message) : Prop :=
  let S := MStatus PROCESSING in
  let D := MEdit DONE in
  match t_pc t with
  | Acquiring | Waiting | Woken | Calling | Composing | EditingDone => ms = [S]
  | Replying => ms = [S; D]
  | Failing _ | Finished (Crashed _) => ms = [S] \/ ms = [S; D]
  | Finished (Failed e) => ms = [S; MEdit (FAILED e)] \/ ms = [S; D; MEdit (FAILED e)]
  | Finished Succeeded => exists c, collage t = Some c /\ ms = [S; D; MPhoto c]
  end.

Definition out_inv (ts : list task) (out : list (nat * message)) : Prop :=
  forall i, match ts !! i with
            | Some t => msgs_inv t (msgs_of i out)
            | None => msgs_of i out = []
            end.

Record inv (w : world) : Prop := {
  inv_total : w_total w = countb is_counted (w_tasks w);
  inv_log : logged_totals (w_log w) = seq 1 (w_total w);
  inv_frame : Forall frame_inv (w_tasks w);
  inv_sem : (Semaphore.value (w_sem w) + countb is_holder (w_tasks w) = OPENAI_SEM_CAP)%nat;
  inv_queue : Semaphore.queue_ok (w_sem w);
  inv_nodup : NoDup (Semaphore.waiters (w_sem w));
  inv_waiters : forall i, i ∈ Semaphore.waiters (w_sem w) <->
                  exists t, w_tasks w !! i = Some t /\ t_pc t = Waiting;
  inv_out : out_inv (w_tasks w) (w_out w)
}.

(** ** Helper lemmas on counting, messages and the logged totals *)

Lemma countb_insert_same {A} (f : A -> bool) l i x y :
  l !! i = Some x -> f y = f x -> countb f (<[i:=y]> l) = countb f l.
Proof. intros Hl Hf. pose proof (countb_insert f l i x y Hl). rewrite Hf in H. lia. Qed.

Lemma countb_insert_up {A} (f : A -> bool) l i x y :
  l !! i = Some x -> f x = false -> f y = true -> countb f (<[i:=y]> l) = S (countb f l).
Proof. intros Hl Hx Hy. pose proof (countb_insert f l i x y Hl). rewrite Hx, Hy in H. lia. Qed.

Lemma countb_insert_down {A} (f : A -> bool) l i x y :
  l !! i = Some x -> f x = true -> f y = false -> S (countb f (<[i:=y]> l)) = countb f l.
Proof. intros Hl Hx Hy. pose proof (countb_insert f l i x y Hl). rewrite Hx, Hy in H. lia. Qed.

Lemma msgs_of_snoc j i m out :
  msgs_of j (out ++ [(i, m)]) = msgs_of j out ++ (if Nat.eqb i j then [m] else []).
Proof.
  unfold msgs_of. rewrite List.filter_app, map_app. simpl.
  destruct (Nat.eqb_spec i j); reflexivity.
Qed.

Lemma logged_totals_snoc l e :
  logged_totals (l ++ [e]) =
  logged_totals l ++ match e with LogTotal n => [n] | LogError _ => [] end.
Proof. unfold logged_totals. rewrite omap_app. destruct e; reflexivity. Qed.

Lemma is_counted_set_pc t p : is_counted (set_pc t p) = is_counted t.
Proof. reflexivity. Qed.

(** Updating one task keeps [out_inv] when the other requests' messages are
    unchanged and the updated task's messages fit its new counter. *)
Lemma out_inv_insert ts out out' i t t' :
  out_inv ts out -> ts !! i = Some t ->
  (forall j, j <> i -> msgs_of j out' = msgs_of j out) ->
  msgs_inv t' (msgs_of i out') ->
  out_inv (<[i:=t']> ts) out'.
Proof.
  intros Hout Hi Hother Hnew j.
  destruct (decide (i = j)) as [<-|Hne].
  - rewrite list_lookup_insert_eq by (eapply lookup_lt_Some; eauto). exact Hnew.
  - rewrite list_lookup_insert_ne by done. rewrite Hother by congruence. apply Hout.
Qed.

(** ** [release] hands the slot to the head of the queue, a parked task *)

Lemma release_wake w s' oj :
  inv w -> Semaphore.release (w_sem w) = (s', oj) ->
  match oj with
  | None =>
      Semaphore.waiters (w_sem w) = [] /\ Semaphore.waiters s' = [] /\
      Semaphore.value s' = S (Semaphore.value (w_sem w)) /\ wake oj (w_tasks w) = w_tasks w
  | Some j =>
      exists tj, w_tasks w !! j = Some tj /\ t_pc tj = Waiting /\
      Semaphore.waiters (w_sem w) = j :: Semaphore.waiters s' /\
      Semaphore.value s' = Semaphore.value (w_sem w) /\
      wake oj (w_tasks w) = <[j:=set_pc tj Woken]> (w_tasks w)
  end.
Proof.
  intros Hinv Hrel. destruct oj as [j|].
  - apply Semaphore.release_some in Hrel as [Hv Hq].
    destruct (proj1 (inv_waiters w Hinv j)) as (tj & Hj & Hp);
      [rewrite Hq; set_solver|].
    exists tj. simpl. rewrite Hj. auto.
  - apply Semaphore.release_none in Hrel as (Hv & Hq & Hq'). simpl. auto.
Qed.

Lemma countb_counted_wake oj ts : countb is_counted (wake oj ts) = countb is_counted ts.
Proof.
  destruct oj as [j|]; simpl; [|done].
  destruct (ts !! j) as [tj|] eqn:Hj; [|done].
  eapply countb_insert_same; eauto.
Qed.

Lemma frame_of w i t : inv w -> w_tasks w !! i = Some t -> frame_inv t.
Proof.
  intros Hinv Ht. eapply Forall_lookup_1; [apply (inv_frame w Hinv)|exact Ht].
Qed.

Ltac frame_facts :=
  repeat match goal with
  | Hinv : inv ?w, Ht : w_tasks ?w !! ?i = Some ?t |- _ =>
      let F := fresh "F" in
      pose proof (frame_of w i t Hinv Ht) as F; revert Ht;
      lazymatch goal with Hp : t_pc t = _ |- _ =>
        unfold frame_inv in F; rewrite Hp in F; cbn [locals_ok] in F end
  end; intros.

(** The task answering the API call is not the one [release] wakes. *)
Lemma api_view w i t s' oj :
  inv w -> w_tasks w !! i = Some t -> t_pc t = Calling ->
  Semaphore.release (w_sem w) = (s', oj) -> wake oj (w_tasks w) !! i = Some t.
Proof.
  intros Hinv Ht Hp Hrel. pose proof (release_wake w s' oj Hinv Hrel) as Hw.
  destruct oj as [j|]; [|destruct Hw as (_ & _ & _ & ->); exact Ht].
  destruct Hw as (tj & Hj & Hpj & _ & _ & ->).
  rewrite list_lookup_insert_ne; [exact Ht|]. intros ->. congruence.
Qed.

(** ** Preservation, one component at a time *)

Lemma total_step w ev w' :
  inv w -> sstep w ev w' -> w_total w' = countb is_counted (w_tasks w').
Proof.
  intros Hinv Hs. pose proof (inv_total w Hinv) as Ht0.
  destruct Hs; simpl; frame_facts; rewrite ?Ht0; symmetry; try reflexivity;
    try (rewrite countb_app; simpl; lia);
    try (eapply countb_insert_same; eauto; fail).
  - destruct F as [_ [_ Hc]]. rewrite <- (countb_counted_wake oj (w_tasks w)).
    eapply countb_insert_same; [eapply api_view; eauto|].
    unfold is_counted; simpl; rewrite Hc; reflexivity.
  - rewrite <- (countb_counted_wake oj (w_tasks w)).
    eapply countb_insert_same; [eapply api_view; eauto|reflexivity].
  - destruct F as [_ [_ Hc]]. eapply countb_insert_up; eauto.
    unfold is_counted; rewrite Hc; reflexivity.
Qed.

Lemma log_step w ev w' :
  inv w -> sstep w ev w' -> logged_totals (w_log w') = seq 1 (w_total w').
Proof.
  intros Hinv Hs. pose proof (inv_log w Hinv) as Hl.
  destruct Hs; unfold fail_task, set_task; cbn [w_log w_total];
    rewrite ?logged_totals_snoc, ?Hl, ?app_nil_r; try reflexivity.
  now rewrite seq_S.
Qed.

Lemma frame_set_pc t p : frame_inv t -> locals_ok p t -> frame_inv (set_pc t p).
Proof. intros [Hc _] Hl. split; [exact Hc|]. destruct p as [| | | | | | | |[]]; exact Hl. Qed.

Lemma frame_wake w s' oj :
  inv w -> Semaphore.release (w_sem w) = (s', oj) -> Forall frame_inv (wake oj (w_tasks w)).
Proof.
  intros Hinv Hrel. pose proof (release_wake w s' oj Hinv Hrel) as Hw.
  pose proof (inv_frame w Hinv) as Hf.
  destruct oj as [j|]; [|destruct Hw as (_ & _ & _ & ->); exact Hf].
  destruct Hw as (tj & Hj & Hpj & _ & _ & ->).
  apply Forall_insert; [exact Hf|]. apply frame_set_pc; [eapply frame_of; eauto|].
  pose proof (frame_of w j tj Hinv Hj) as [_ Hl]. rewrite Hpj in Hl. exact Hl.
Qed.

Lemma frame_step w ev w' : inv w -> sstep w ev w' -> Forall frame_inv (w_tasks w').
Proof.
  intros Hinv Hs. pose proof (inv_frame w Hinv) as Hf.
  destruct Hs; simpl; frame_facts; try exact Hf.
  - apply Forall_app; split; [exact Hf|]. repeat constructor; discriminate.
  - apply Forall_insert; [exact Hf|]. apply frame_set_pc; [eapply frame_of; eauto|].
    destruct got; exact (proj2 F).
  - apply Forall_insert; [exact Hf|]. apply frame_set_pc; [eapply frame_of; eauto|exact (proj2 F)].
  - apply Forall_insert; [eapply frame_wake; eauto|]. split; [discriminate|simpl; eauto].
  - apply Forall_insert; [eapply frame_wake; eauto|]. apply frame_set_pc; [eapply frame_of; eauto|done].
  - apply Forall_insert; [exact Hf|]. split; [|simpl; eauto].
    intros c' [= <-]. simpl. eauto.
  - apply Forall_insert; [exact Hf|]. apply frame_set_pc; [eapply frame_of; eauto|done].
  - apply Forall_insert; [exact Hf|]. apply frame_set_pc; [eapply frame_of; eauto|exact (proj2 F)].
  - apply Forall_insert; [exact Hf|]. apply frame_set_pc; [eapply frame_of; eauto|done].
  - apply Forall_insert; [exact Hf|]. apply frame_set_pc; [eapply frame_of; eauto|done].
  - apply Forall_insert; [exact Hf|]. apply frame_set_pc; [eapply frame_of; eauto|done].
  - apply Forall_insert; [exact Hf|]. apply frame_set_pc; [eapply frame_of; eauto|exact (proj2 F)].
  - apply Forall_insert; [exact Hf|]. apply frame_set_pc; [eapply frame_of; eauto|done].
Qed.

(** ** The semaphore's accounting *)

Definition sem_inv (s : Semaphore.sem) (ts : list task) : Prop :=
  (Semaphore.value s + countb is_holder ts = OPENAI_SEM_CAP)%nat /\
  Semaphore.queue_ok s /\ NoDup (Semaphore.waiters s) /\
  (forall k, k ∈ Semaphore.waiters s <-> exists t, ts !! k = Some t /\ t_pc t = Waiting).

Lemma sem_inv_of w : inv w -> sem_inv (w_sem w) (w_tasks w).
Proof. intros []. unfold sem_inv. auto. Qed.

Lemma waiting_insert_ne (ts : list task) i t' k :
  i <> k -> ((exists t, <[i:=t']> ts !! k = Some t /\ t_pc t = Waiting) <->
             (exists t, ts !! k = Some t /\ t_pc t = Waiting)).
Proof. intros Hne. now rewrite list_lookup_insert_ne. Qed.

Lemma waiting_insert_eq (ts : list task) i t t' :
  ts !! i = Some t -> ((exists u, <[i:=t']> ts !! i = Some u /\ t_pc u = Waiting) <->
                       t_pc t' = Waiting).
Proof.
  intros Ht. rewrite list_lookup_insert_eq by (eapply lookup_lt_Some; eauto).
  split; [intros (u & [= <-] & Hu); exact Hu | intros Hu; eauto].
Qed.

(** Replacing a task that is neither parked nor becomes parked, and keeps
    its holder status, does not touch the semaphore's accounting. *)
Lemma sem_inv_insert_same s (ts : list task) i t t' :
  sem_inv s ts -> ts !! i = Some t -> is_holder t' = is_holder t ->
  t_pc t <> Waiting -> t_pc t' <> Waiting -> sem_inv s (<[i:=t']> ts).
Proof.
  intros (Hv & Hq & Hn & Hw) Ht Hh Hnw Hnw'. split_and!; auto.
  - erewrite countb_insert_same; eauto.
  - intros k. destruct (decide (i = k)) as [<-|Hne].
    + rewrite waiting_insert_eq by eauto. rewrite Hw. split; [|done].
      intros (u & Hu & Hp). congruence.
    + rewrite waiting_insert_ne by done. apply Hw.
Qed.

Lemma sem_inv_enter s (ts : list task) i t s' got :
  sem_inv s ts -> ts !! i = Some t -> t_pc t = Acquiring ->
  Semaphore.acquire s i = (s', got) ->
  sem_inv s' (<[i:=set_pc t (if got then Calling else Waiting)]> ts).
Proof.
  intros (Hv & Hq & Hn & Hw) Ht Hp Hacq. destruct got.
  - apply Semaphore.acquire_granted in Hacq as (Hv' & Hq' & Hq0).
    split_and!.
    + erewrite countb_insert_up; eauto; [lia|unfold is_holder; now rewrite Hp].
    + unfold Semaphore.queue_ok. rewrite Hq', Hq0. done.
    + rewrite Hq', Hq0. constructor.
    + intros k. rewrite Hq', Hq0. split; [intros Hk; inversion Hk|].
      intros (u & Hu & Hpu). apply list_lookup_insert_Some in Hu
        as [(<- & <- & _)|(Hne & Hu)]; [discriminate|].
      assert (k ∈ Semaphore.waiters s) by (apply Hw; eauto). rewrite Hq0 in H. inversion H.
  - apply (Semaphore.acquire_parked s i s' Hq) in Hacq as (Hv' & Hq' & Hv0).
    assert (Hi : i ∉ Semaphore.waiters s) by (rewrite Hw; intros (u & Hu & Hpu); congruence).
    split_and!.
    + erewrite countb_insert_same; eauto; [lia|unfold is_holder; now rewrite Hp].
    + intros _. lia.
    + rewrite Hq'. apply NoDup_app. split_and!; [done| |apply NoDup_singleton]. set_solver.
    + intros k. rewrite Hq'. destruct (decide (i = k)) as [<-|Hne].
      * rewrite waiting_insert_eq by eauto. set_solver.
      * rewrite waiting_insert_ne by done. rewrite <- Hw. set_solver.
Qed.

(** Leaving [async with OPENAI_SEM]: the slot goes back to the counter or
    to the first parked task. *)
Lemma sem_inv_api s (ts : list task) i t t' s' oj :
  sem_inv s ts -> ts !! i = Some t -> t_pc t = Calling ->
  Semaphore.release s = (s', oj) -> is_holder t' = false -> t_pc t' <> Waiting ->
  sem_inv s' (<[i:=t']> (wake oj ts)).
Proof.
  intros (Hv & Hq & Hn & Hw) Ht Hp Hrel Hh' Hnw'.
  assert (Hi : i ∉ Semaphore.waiters s) by (rewrite Hw; intros (u & Hu & Hpu); congruence).
  destruct oj as [j|].
  - apply Semaphore.release_some in Hrel as [Hv' Hq'].
    destruct (proj1 (Hw j)) as (tj & Hj & Hpj); [rewrite Hq'; set_solver|].
    assert (Hij : i <> j) by (intros ->; congruence).
    rewrite Hq' in Hn, Hi. apply NoDup_cons in Hn as [Hjn Hn].
    simpl. rewrite Hj. split_and!.
    + pose proof (countb_insert is_holder ts j tj (set_pc tj Woken) Hj) as H1.
      pose proof (countb_insert is_holder (<[j:=set_pc tj Woken]> ts) i t t') as H2.
      rewrite list_lookup_insert_ne in H2 by done. specialize (H2 Ht).
      assert (is_holder tj = false) as Ej by (unfold is_holder; now rewrite Hpj).
      assert (is_holder t = true) as Et by (unfold is_holder; now rewrite Hp).
      rewrite Ej in H1; rewrite Et, Hh' in H2. simpl in H1. lia.
    + intros Hne. rewrite Hv'. apply Hq. rewrite Hq'. discriminate.
    + exact Hn.
    + intros k. destruct (decide (i = k)) as [<-|Hik].
      * rewrite waiting_insert_eq by (rewrite list_lookup_insert_ne; eauto). set_solver.
      * rewrite waiting_insert_ne by done. destruct (decide (j = k)) as [<-|Hjk].
        -- rewrite waiting_insert_eq by eauto. split; [done|discriminate].
        -- rewrite waiting_insert_ne by done. rewrite <- Hw, Hq'. set_solver.
  - apply Semaphore.release_none in Hrel as (Hv' & Hq0 & Hq'). simpl. split_and!.
    + pose proof (countb_insert is_holder ts i t t' Ht) as H1.
      assert (is_holder t = true) as Et by (unfold is_holder; now rewrite Hp).
      rewrite Et, Hh' in H1. lia.
    + unfold Semaphore.queue_ok. rewrite Hq'. done.
    + rewrite Hq'. constructor.
    + intros k. rewrite Hq'. split; [intros Hk; inversion Hk|].
      intros (u & Hu & Hpu). apply list_lookup_insert_Some in Hu
        as [(<- & <- & _)|(Hne & Hu)]; [done|].
      assert (k ∈ Semaphore.waiters s) by (apply Hw; eauto). rewrite Hq0 in H. inversion H.
Qed.

Lemma sem_step w ev w' : inv w -> sstep w ev w' -> sem_inv (w_sem w') (w_tasks w').
Proof.
  intros Hinv Hs. pose proof (sem_inv_of w Hinv) as Hsi.
  destruct Hs; simpl;
    try (eapply sem_inv_insert_same; eauto; unfold is_holder; simpl;
         repeat match goal with H : t_pc _ = _ |- _ => rewrite H end; done).
  - exact Hsi.
  - destruct Hsi as (Hv & Hq & Hn & Hw). split_and!; auto.
    + rewrite countb_app. simpl. lia.
    + intros k. rewrite Hw. split; intros (x & Hu & Hpu); exists x; split; auto.
      * apply lookup_app_l_Some. exact Hu.
      * apply lookup_snoc_Some in Hu as [[_ Hu]|[_ <-]]; [exact Hu|discriminate].
  - eapply sem_inv_enter; eauto.
  - eapply sem_inv_api; eauto; discriminate.
  - eapply sem_inv_api; eauto; discriminate.
Qed.

(** ** The messages of each request *)

Lemma msgs_of_snoc_eq i m out : msgs_of i (out ++ [(i, m)]) = msgs_of i out ++ [m].
Proof. rewrite msgs_of_snoc, Nat.eqb_refl. reflexivity. Qed.

Lemma msgs_of_snoc_ne j i m out : j <> i -> msgs_of j (out ++ [(i, m)]) = msgs_of j out.
Proof.
  intros Hne. rewrite msgs_of_snoc. destruct (Nat.eqb_spec i j); [congruence|].
  apply app_nil_r.
Qed.

Lemma out_inv_wake w s' oj :
  inv w -> Semaphore.release (w_sem w) = (s', oj) -> out_inv (wake oj (w_tasks w)) (w_out w).
Proof.
  intros Hinv Hrel. pose proof (release_wake w s' oj Hinv Hrel) as Hw.
  pose proof (inv_out w Hinv) as Hout.
  destruct oj as [j|]; [|destruct Hw as (_ & _ & _ & ->); exact Hout].
  destruct Hw as (tj & Hj & Hpj & _ & _ & ->).
  eapply out_inv_insert; eauto.
  specialize (Hout j). rewrite Hj in Hout. unfold msgs_inv in *. rewrite Hpj in Hout.
  exact Hout.
Qed.

Ltac old_msgs :=
  match goal with
  | Hout : out_inv ?ts ?out, Ht : ?ts !! ?i = Some ?t, Hp : t_pc ?t = _ |- _ =>
      let M := fresh "M" in
      pose proof (Hout i) as M; rewrite Ht in M; unfold msgs_inv in M; rewrite Hp in M
  end.

Lemma out_step w ev w' : inv w -> sstep w ev w' -> out_inv (w_tasks w') (w_out w').
Proof.
  intros Hinv Hs. pose proof (inv_out w Hinv) as Hout.
  destruct Hs; simpl; try exact Hout;
    try (old_msgs;
         eapply out_inv_insert;
         [ first [exact Hout | eapply out_inv_wake; eauto]
         | first [eassumption | eapply api_view; eauto]
         | intros; rewrite ?msgs_of_snoc_ne by done; reflexivity
         | unfold msgs_inv; simpl; rewrite ?msgs_of_snoc_eq, ?M; simpl ];
         try solve [auto | destruct M as [-> | ->]; auto]).
  - (* a new request: its status message and its task *)
    intros j. destruct (lt_eq_lt_dec j (length (w_tasks w))) as [[Hlt|Heq]|Hgt];
      [| subst j |].
    + rewrite lookup_app_l by done. rewrite msgs_of_snoc_ne by lia. apply Hout.
    + rewrite lookup_app_r, Nat.sub_diag by lia. simpl.
      rewrite msgs_of_snoc_eq. specialize (Hout (length (w_tasks w))).
      rewrite lookup_ge_None_2 in Hout by lia. rewrite Hout. reflexivity.
    + rewrite lookup_ge_None_2 by (rewrite length_app; simpl; lia).
      rewrite msgs_of_snoc_ne by lia. specialize (Hout j).
      rewrite lookup_ge_None_2 in Hout by lia. exact Hout.
  - destruct got; reflexivity.
  - eauto.
Qed.

(** ** All components together *)

Lemma inv_step w ev w' : inv w -> sstep w ev w' -> inv w'.
Proof.
  intros Hinv Hs.
  destruct (sem_step w ev w' Hinv Hs) as (Hv & Hq & Hn & Hw).
  constructor; eauto using total_step, log_step, frame_step, out_step.
Qed.

Lemma inv_init : inv init.
Proof.
  constructor; simpl; try reflexivity.
  - constructor.
  - intros H. exfalso. now apply H.
  - constructor.
  - intros k. split; [intros Hk; inversion Hk|]. intros (t & Ht & _).
    rewrite lookup_nil in Ht. discriminate.
  - intros j. reflexivity.
Qed.

Lemma reachable_inv w : reachable w -> inv w.
Proof.
  intros [evs Hrun]. eapply (run_invariant step inv); [|exact inv_init|exact Hrun].
  intros w1 ev w2 H1 H2. eapply inv_step; [exact H1|]. apply step_sstep; exact H2.
Qed.

End Inv.

End OrchestratorInv.
