(* ===== verification/OrchestratorThm.v ===== *)
(** * What the orchestrator guarantees, and where it departs from the spec

    Consequences of [OrchestratorInv.reachable_inv] stated on the
    observable parts of a reachable world: at most four OpenAI calls in
    flight, [TOTAL_GENERATED] against the produced collages and the log,
    the slots all free when no request is in progress, the messages a
    request receives, absence of deadlock, a bound on every run without new
    arrivals and reachability of a world where every request has finished.
    The witnesses replay concrete traces with a small [Composer]. *)

From S2P Require Import Prelude Semaphore Base64 Aging Orchestrator OrchestratorInv.

Module OrchestratorThm.
Import Orchestrator OrchestratorInv.

Section Thm.
Context `{C : Composer}.

(** ** Observations of a world that the guarantees are stated on *)

(** OpenAI calls in flight, slots of [OPENAI_SEM] held, collages produced,
    the messages request [i] received, and "no request in progress". *)
Definition in_flight (w : world) : nat := countb is_calling (w_tasks w).
Definition slots_held (w : world) : nat := countb is_holder (w_tasks w).
Definition collages_made (w : world) : nat := countb is_counted (w_tasks w).
Definition messages (w : world) (i : nat) : list message := msgs_of i (w_out w).
Definition idle (w : world) : Prop := Forall (fun t => is_finished t = true) (w_tasks w).

Lemma calling_le_holder ts : (countb is_calling ts <= countb is_holder ts)%nat.
Proof.
  induction ts as [|t ts IH]; simpl; [lia|].
  assert (is_calling t = true -> is_holder t = true)
    by (unfold is_calling, is_holder; destruct (t_pc t); done).
  destruct (is_calling t), (is_holder t); lia.
Qed.

Lemma finished_no_holder ts :
  Forall (fun t => is_finished t = true) ts -> countb is_holder ts = 0%nat.
Proof.
  induction 1 as [|t ts Ht _ IH]; simpl; [done|].
  unfold is_finished, is_holder in *. destruct (t_pc t); try discriminate. exact IH.
Qed.

(** C1: at no point are more than four [client.images.edit] calls in
    flight, however many photos arrive and however the event loop
    interleaves them; more precisely at most four tasks hold a slot of
    [OPENAI_SEM], and the free slots and the holders add up to four. *)
Theorem openai_calls_bounded w :
  reachable w ->
  (in_flight w <= slots_held w <= OPENAI_SEM_CAP)%nat /\
  (Semaphore.value (w_sem w) + slots_held w = OPENAI_SEM_CAP)%nat.
Proof.
  intros Hr. pose proof (inv_sem w (reachable_inv w Hr)).
  pose proof (calling_le_holder (w_tasks w)). unfold in_flight, slots_held. lia.
Qed.

(** C2: [TOTAL_GENERATED] is exactly the number of requests whose
    [make_collage] returned (no increment is lost or doubled), and the
    totals logged under [COUNTER_LOCK] are 1, 2, ..., [TOTAL_GENERATED]
    in this order. *)
Theorem total_generated_exact w :
  reachable w ->
  w_total w = collages_made w /\ logged_totals (w_log w) = seq 1 (w_total w).
Proof. intros Hr. destruct (reachable_inv w Hr). auto. Qed.

(** C3: when every request has reached a terminal state, all four slots
    of [OPENAI_SEM] are free and nobody is queued: a failed call or a
    failed decode does not keep its slot. *)
Theorem slots_released_when_idle w :
  reachable w -> idle w ->
  Semaphore.value (w_sem w) = OPENAI_SEM_CAP /\ Semaphore.waiters (w_sem w) = [].
Proof.
  intros Hr Hfin. unfold idle in Hfin. destruct (reachable_inv w Hr) as [_ _ _ Hsem _ _ Hw _].
  assert (Hh : countb is_holder (w_tasks w) = 0%nat) by (apply finished_no_holder; exact Hfin).
  split; [lia|].
  destruct (Semaphore.waiters (w_sem w)) as [|k ks] eqn:E; [done|].
  destruct (proj1 (Hw k)) as (t & Ht & Hp); [set_solver|].
  rewrite Forall_lookup in Hfin. specialize (Hfin k t Ht).
  unfold is_finished in Hfin. rewrite Hp in Hfin. discriminate.
Qed.

(** C4: a request that ends [Succeeded] was counted, and it received
    exactly three messages: the status, the edit to "Готово!", and the
    collage [make_collage(before, after)] of its photo and the generated
    one. *)
Theorem succeeded_request_messages w i t :
  reachable w -> w_tasks w !! i = Some t -> t_pc t = Finished Succeeded ->
  exists a c,
    after_bytes t = Some a /\ compose (before_bytes t) a = Ok c /\
    is_counted t = true /\
    messages w i = [MStatus PROCESSING; MEdit DONE; MPhoto c].
Proof.
  intros Hr Ht Hp. unfold messages. destruct (reachable_inv w Hr) as [_ _ Hf _ _ _ _ Hout].
  specialize (Hout i). rewrite Ht in Hout. unfold msgs_inv in Hout. rewrite Hp in Hout.
  destruct Hout as (c & Hc & Hm).
  destruct (Forall_lookup_1 _ _ _ _ Hf Ht) as [Hcol _].
  destruct (Hcol c Hc) as (a & Ha & Hcomp).
  exists a, c. unfold is_counted. rewrite Hc. auto.
Qed.

(** C5: a collage is sent to a user only for a request that ends
    [Succeeded], and it is the last message of that request; a failed
    request receives its status, possibly "Готово!", and one failure edit
    carrying the exception text. *)
Theorem photo_only_on_success w i t :
  reachable w -> w_tasks w !! i = Some t ->
  ((exists c, MPhoto c ∈ messages w i) -> t_pc t = Finished Succeeded) /\
  (forall e, t_pc t = Finished (Failed e) ->
     messages w i = [MStatus PROCESSING; MEdit (FAILED e)] \/
     messages w i = [MStatus PROCESSING; MEdit DONE; MEdit (FAILED e)]).
Proof.
  intros Hr Ht. unfold messages. destruct (reachable_inv w Hr) as [_ _ _ _ _ _ _ Hout].
  specialize (Hout i). rewrite Ht in Hout. unfold msgs_inv in Hout.
  split.
  - intros (c & Hc). destruct (t_pc t) as [| | | | | | |e|[|e|e]]; try reflexivity;
      exfalso; repeat match goal with H : _ \/ _ |- _ => destruct H as [H|H] end;
      rewrite Hout in Hc; repeat rewrite elem_of_cons in Hc;
      repeat match goal with H : _ \/ _ |- _ => destruct H as [H|H] end;
      try discriminate; set_solver.
  - intros e He. rewrite He in Hout. exact Hout.
Qed.

Lemma waiting_holder_inv w i t :
  inv w -> w_tasks w !! i = Some t -> t_pc t = Waiting ->
  exists j tj, w_tasks w !! j = Some tj /\ is_holder tj = true.
Proof.
  intros [_ _ _ Hsem Hq _ Hw _] Ht Hp.
  assert (Hin : i ∈ Semaphore.waiters (w_sem w)) by (apply Hw; eauto).
  assert (Hv : Semaphore.value (w_sem w) = 0%nat) by (apply Hq; intros E; rewrite E in Hin; set_solver).
  apply countb_pos. unfold OPENAI_SEM_CAP in Hsem. lia.
Qed.

(** C6: no deadlock on [OPENAI_SEM]: whenever a request is parked in the
    semaphore's queue, some other request holds a slot (and will give it
    back when its OpenAI call returns). *)
Theorem waiting_implies_holder w i t :
  reachable w -> w_tasks w !! i = Some t -> t_pc t = Waiting ->
  (0 < slots_held w)%nat /\ Semaphore.value (w_sem w) = 0%nat.
Proof.
  intros Hr Ht Hp. pose proof (reachable_inv w Hr) as Hinv.
  destruct (waiting_holder_inv w i t Hinv Ht Hp) as (j & tj & Hj & Hh).
  split; [apply countb_pos; eauto|].
  pose proof (inv_sem w Hinv). apply (inv_queue w Hinv).
  intros E. assert (i ∈ Semaphore.waiters (w_sem w)) by (apply (inv_waiters w Hinv); eauto).
  rewrite E in H0. set_solver.
Qed.

(** ** Termination and progress *)

(** How many resumptions a task still needs, at most, to finish. *)
Definition rank (p : pc) : nat :=
  match p with
  | Acquiring => 7 | Waiting | Woken => 6 | Calling => 5 | Composing => 4
  | EditingDone => 3 | Replying => 2 | Failing _ => 1 | Finished _ => 0
  end.

Definition pending (w : world) : nat := sum_nat (fun t => rank (t_pc t)) (w_tasks w).

Definition task_event (ev : event) : bool :=
  match ev with Arrive _ _ => false | _ => true end.

Lemma pending_insert (ts : list task) i t t' :
  ts !! i = Some t ->
  (sum_nat (fun t => rank (t_pc t)) (<[i:=t']> ts) + rank (t_pc t) =
   sum_nat (fun t => rank (t_pc t)) ts + rank (t_pc t'))%nat.
Proof. exact (sum_nat_insert (fun t => rank (t_pc t)) ts i t t'). Qed.

Lemma pending_wake w s' oj :
  inv w -> Semaphore.release (w_sem w) = (s', oj) ->
  sum_nat (fun t => rank (t_pc t)) (wake oj (w_tasks w)) = pending w.
Proof.
  intros Hinv Hrel. pose proof (release_wake w s' oj Hinv Hrel) as Hw.
  destruct oj as [j|]; [|destruct Hw as (_ & _ & _ & ->); reflexivity].
  destruct Hw as (tj & Hj & Hpj & _ & _ & ->).
  pose proof (pending_insert _ j tj (set_pc tj Woken) Hj) as Hp.
  rewrite Hpj in Hp. cbn [t_pc set_pc rank] in Hp. unfold pending. lia.
Qed.

Lemma pending_insert_lt (ts : list task) i t t' :
  ts !! i = Some t -> (rank (t_pc t') < rank (t_pc t))%nat ->
  (sum_nat (fun t => rank (t_pc t)) (<[i:=t']> ts) < sum_nat (fun t => rank (t_pc t)) ts)%nat.
Proof. intros Ht Hlt. pose proof (pending_insert ts i t t' Ht). lia. Qed.

(** Every resumption of a task brings its [work] closer to the end. *)
Lemma pending_step w ev w' :
  inv w -> sstep w ev w' -> task_event ev = true -> (pending w' < pending w)%nat.
Proof.
  intros Hinv Hs Hev. unfold pending.
  destruct Hs; unfold fail_task, set_task; cbn [w_tasks task_event] in *; try discriminate;
    try (eapply Nat.lt_le_trans;
         [ eapply pending_insert_lt; [eapply api_view; eauto|]
         | erewrite pending_wake by eauto; unfold pending; lia ]);
    try (eapply pending_insert_lt; [eassumption|]);
    repeat match goal with H : t_pc _ = _ |- _ => rewrite H end;
    try destruct got; simpl; lia.
Qed.


Lemma run_inv w evs w' : inv w -> run step w evs = Some w' -> inv w'.
Proof.
  intros Hw Hrun. eapply (run_invariant step inv); [|exact Hw|exact Hrun].
  intros w1 ev w2 H1 H2. eapply inv_step; [exact H1|]. apply step_sstep; exact H2.
Qed.

(** C7: termination.  Without new photos arriving, every interleaving of
    the event loop with any answers of OpenAI and Telegram stops after at
    most [pending w] resumptions: no [work] task runs forever. *)
Theorem task_runs_bounded w evs w' :
  reachable w -> run step w evs = Some w' ->
  Forall (fun ev => task_event ev = true) evs -> (length evs <= pending w)%nat.
Proof.
  intros Hr. pose proof (reachable_inv w Hr) as Hinv. clear Hr. revert w Hinv.
  induction evs as [|ev evs IH]; intros w Hinv Hrun Hev; simpl; [lia|].
  simpl in Hrun. destruct (step w ev) as [w1|] eqn:Hs; [|discriminate].
  apply Forall_cons in Hev as [Hev1 Hev].
  apply step_sstep in Hs.
  pose proof (pending_step w ev w1 Hinv Hs Hev1).
  pose proof (IH w1 (inv_step w ev w1 Hinv Hs) Hrun Hev). lia.
Qed.

(** A task that is not finished and not parked can always be resumed,
    whatever the awaited call returns. *)
Definition resumable (w : world) (i : nat) : Prop :=
  step w (Enter i) <> None \/ step w (ComposeReturns i) <> None \/
  (forall r, step w (ApiReturns i r) <> None) \/
  (forall r, step w (EditReturns i r) <> None) \/
  (forall r, step w (ReplyReturns i r) <> None).

Lemma sstep_some w ev w' : sstep w ev w' -> step w ev <> None.
Proof. intros Hs. rewrite (sstep_step _ _ _ Hs). discriminate. Qed.

Lemma resumable_of w i t :
  inv w -> w_tasks w !! i = Some t -> is_finished t = false -> t_pc t <> Waiting ->
  resumable w i.
Proof.
  intros Hinv Ht Hfin Hnw. pose proof (frame_of w i t Hinv Ht) as [_ Hl].
  unfold resumable, is_finished in *.
  destruct (t_pc t) eqn:Hp; cbn [locals_ok] in Hl; try discriminate; try congruence.
  - left. destruct (Semaphore.acquire (w_sem w) i) eqn:Ha. eapply sstep_some, s_enter; eauto.
  - left. eapply sstep_some, s_resume; eauto.
  - right; right; left. intros r. destruct (Semaphore.release (w_sem w)) eqn:Hrel.
    destruct (Aging.age_result r) eqn:Hres;
      [eapply sstep_some, s_api_ok | eapply sstep_some, s_api_err]; eauto.
  - right; left. destruct Hl as [[a Ha] _].
    destruct (compose (before_bytes t) a) eqn:Hc;
      [eapply sstep_some, s_compose_ok | eapply sstep_some, s_compose_err]; eauto.
  - right; right; right; left. intros [u|e];
      [eapply sstep_some, s_edit_done | eapply sstep_some, s_edit_done_err]; eauto.
  - right; right; right; right. destruct Hl as [c Hc]. intros [u|e];
      [eapply sstep_some, s_reply | eapply sstep_some, s_reply_err]; eauto.
  - right; right; right; left. intros [u|e'];
      [eapply sstep_some, s_edit_failed | eapply sstep_some, s_edit_failed_err]; eauto.
Qed.

Lemma progress_inv w :
  inv w -> (exists i t, w_tasks w !! i = Some t /\ is_finished t = false) ->
  exists i, resumable w i.
Proof.
  intros Hinv (i & t & Ht & Hfin).
  destruct (decide (t_pc t = Waiting)) as [Hw|Hnw].
  - destruct (waiting_holder_inv w i t Hinv Ht Hw) as (j & tj & Hj & Hh).
    exists j. apply (resumable_of w j tj Hinv Hj); unfold is_holder, is_finished in *;
      destruct (t_pc tj); congruence.
  - exists i. eapply resumable_of; eauto.
Qed.

(** C8: progress.  In a reachable world where some request has not
    finished, some task can be resumed whatever its pending call returns:
    the bot is never stuck with unfinished work (parked requests included,
    by C6). *)
Theorem never_stuck w :
  reachable w -> (exists i t, w_tasks w !! i = Some t /\ is_finished t = false) ->
  exists i, resumable w i.
Proof. intros Hr. apply progress_inv, reachable_inv, Hr. Qed.

Lemma resumable_step w i :
  resumable w i -> exists ev w1, task_event ev = true /\ step w ev = Some w1.
Proof.
  intros Hres.
  assert (Hsome : forall ev, task_event ev = true -> step w ev <> None ->
                  exists ev' w1, task_event ev' = true /\ step w ev' = Some w1)
    by (intros ev Hev Hs; destruct (step w ev) eqn:E; [eauto|congruence]).
  destruct Hres as [H|[H|[H|[H|H]]]];
    [ | | specialize (H (Err (ApiError "")))
        | specialize (H (Ok tt)) | specialize (H (Ok tt)) ];
    eapply Hsome; [| exact H | | exact H | | exact H | | exact H | | exact H]; reflexivity.
Qed.

Lemma finished_or_not (ts : list task) :
  Forall (fun t => is_finished t = true) ts \/
  exists i t, ts !! i = Some t /\ is_finished t = false.
Proof.
  induction ts as [|t ts [IH|(i & u & Hu & Hf)]]; [left; constructor| |].
  - destruct (is_finished t) eqn:E; [left; constructor; auto|].
    right. exists 0%nat, t. auto.
  - right. exists (S i), u. auto.
Qed.

(** C9: liveness.  From any reachable world, the event loop can drive
    every request to a terminal state without any new photo arriving. *)
Theorem all_requests_can_finish w :
  reachable w ->
  exists evs w', Forall (fun ev => task_event ev = true) evs /\
    run step w evs = Some w' /\ Forall (fun t => is_finished t = true) (w_tasks w').
Proof.
  intros Hr. pose proof (reachable_inv w Hr) as Hinv. clear Hr.
  remember (pending w) as n eqn:Hn. revert w Hinv Hn.
  induction n as [n IH] using lt_wf_ind. intros w Hinv ->.
  destruct (finished_or_not (w_tasks w)) as [Hall|Hsome].
  - exists [], w. auto.
  - destruct (progress_inv w Hinv Hsome) as [i Hres].
    destruct (resumable_step w i Hres) as (ev & w1 & Hev & Hs).
    pose proof (step_sstep _ _ _ Hs) as Hss.
    destruct (IH (pending w1) (pending_step w ev w1 Hinv Hss Hev) w1
                (inv_step w ev w1 Hinv Hss) eq_refl) as (evs & w' & Hevs & Hrun & Hfin).
    exists (ev :: evs), w'. simpl. rewrite Hs. auto.
Qed.

End Thm.

End OrchestratorThm.
