(* ===== verification/OrchestratorFifo.v ===== *)
(** * First come, first served on [OPENAI_SEM] (main.py lines 47 and 106)

    More than four concurrent requests park in the semaphore's queue
    ([Semaphore.acquire] appends), and every [release] at the end of an
    [async with OPENAI_SEM] block hands the slot to the head of the queue.
    Hence requests get their OpenAI call in the order they were parked: a
    request that is behind another in the queue stays parked as long as
    that one is.  The argument is an invariant of runs: once task [i] has
    gone past [Acquiring] it can never enter the queue again, and while it
    is in the queue every task behind it stays behind it. *)

From S2P Require Import Prelude Semaphore Aging Orchestrator OrchestratorInv OrchestratorThm.

Module OrchestratorFifo.
Import Orchestrator OrchestratorInv OrchestratorThm.

(** Task [i] exists and has entered [async with OPENAI_SEM] already. *)
Definition past_acquire (ts : list task) (i : nat) : Prop :=
  exists t, ts !! i = Some t /\ t_pc t <> Acquiring.

(** Task [i] is parked in [OPENAI_SEM]. *)
Definition parked (w : world) (i : nat) : Prop :=
  exists t, w_tasks w !! i = Some t /\ t_pc t = Waiting.

(** The resumptions that answer an OpenAI call, and their number in a
    trace: each one leaves [async with OPENAI_SEM] and releases a slot. *)
Definition api_event (ev : event) : bool :=
  match ev with ApiReturns _ _ => true | _ => false end.

Definition count_api (evs : list event) : nat := length (List.filter api_event evs).

(** Task [i], if still parked, is at place [m] of the queue with
    [m + n = k]: it started at place [k] and [n] slots were handed on. *)
Definition queued_at (w : world) (i n k : nat) : Prop :=
  i ∈ Semaphore.waiters (w_sem w) ->
  exists m, Semaphore.waiters (w_sem w) !! m = Some i /\ (m + n = k)%nat.

(** The tasks of [ts] that hold a slot of [OPENAI_SEM] already held one
    in [w0]. *)
Definition holders_within (w0 : world) (ts : list task) : Prop :=
  forall i t', ts !! i = Some t' -> is_holder t' = true ->
    exists t, w_tasks w0 !! i = Some t /\ is_holder t = true.

Section Fifo.
Context `{C : Composer}.

Lemma past_acquire_insert ts i k t' :
  past_acquire ts i -> t_pc t' <> Acquiring -> past_acquire (<[k:=t']> ts) i.
Proof.
  intros (t & Ht & Hp) Hp'. destruct (decide (k = i)) as [->|Hne].
  - exists t'. rewrite list_lookup_insert_eq by eauto using lookup_lt_Some. auto.
  - exists t. rewrite list_lookup_insert_ne by done. auto.
Qed.

Lemma past_acquire_wake ts i oj : past_acquire ts i -> past_acquire (wake oj ts) i.
Proof.
  intros H. destruct oj as [j|]; simpl; [|exact H].
  destruct (ts !! j); [|exact H]. apply past_acquire_insert; [exact H | discriminate].
Qed.

Lemma past_acquire_snoc ts i t : past_acquire ts i -> past_acquire (ts ++ [t]) i.
Proof.
  intros (ti & Ht & Hp). exists ti. rewrite lookup_app_l by eauto using lookup_lt_Some. auto.
Qed.

(** No step moves a task back to [Acquiring]: only new tasks start there. *)
Lemma past_acquire_step w ev w' i :
  sstep w ev w' -> past_acquire (w_tasks w) i -> past_acquire (w_tasks w') i.
Proof.
  intros Hs Hp. destruct Hs; unfold set_task, fail_task; cbn [w_tasks];
    try apply past_acquire_snoc;
    repeat first [apply past_acquire_insert | apply past_acquire_wake];
    try exact Hp; try destruct got; discriminate.
Qed.

Lemma fifo_step w ev w' i j :
  inv w -> sstep w ev w' -> past_acquire (w_tasks w) i ->
  Semaphore.fifo_ok (w_sem w) i j -> Semaphore.fifo_ok (w_sem w') i j.
Proof.
  intros Hinv Hs (ti & Hti & Hpi) Hf.
  destruct Hs; unfold set_task, fail_task; cbn [w_sem]; try exact Hf;
  match goal with
  | H : Semaphore.acquire _ ?k = (?s, _), Hk : w_tasks _ !! ?k = Some ?t,
    Ha : t_pc ?t = Acquiring |- Semaphore.fifo_ok ?s _ _ =>
      replace s with (fst (Semaphore.acquire (w_sem w) k)) by (rewrite H; reflexivity);
      apply Semaphore.acquire_fifo; [intros ->; congruence | exact Hf]
  | H : Semaphore.release _ = (?s, _) |- Semaphore.fifo_ok ?s _ _ =>
      replace s with (fst (Semaphore.release (w_sem w))) by (rewrite H; reflexivity);
      apply Semaphore.release_fifo; [apply (inv_nodup w Hinv) | exact Hf]
  end.
Qed.

(** The invariant of a run, for a task [i] parked ahead of [j]. *)
Lemma fifo_run w evs w' i j :
  inv w -> past_acquire (w_tasks w) i -> Semaphore.fifo_ok (w_sem w) i j ->
  run step w evs = Some w' ->
  inv w' /\ past_acquire (w_tasks w') i /\ Semaphore.fifo_ok (w_sem w') i j.
Proof.
  intros Hinv Hp Hf Hrun.
  eapply (run_invariant step
            (fun w => inv w /\ past_acquire (w_tasks w) i /\ Semaphore.fifo_ok (w_sem w) i j));
    [| split_and!; eassumption | exact Hrun].
  intros w1 ev w2 (H1 & H2 & H3) Hs. apply step_sstep in Hs.
  split_and!; eauto using inv_step, past_acquire_step, fifo_step.
Qed.

(** C30: first come, first served on [OPENAI_SEM]: if request [i] is
    ahead of request [j] in the semaphore's queue in a reachable world,
    then in every world the event loop reaches from it, whatever the
    interleaving, the new photos and the answers of OpenAI and Telegram,
    [j] is still parked as long as [i] is: no request overtakes one that
    was parked before it. *)
Theorem openai_sem_fifo w i j evs w' :
  reachable w -> Semaphore.precedes (Semaphore.waiters (w_sem w)) i j ->
  run step w evs = Some w' -> parked w' i -> parked w' j.
Proof.
  intros Hr Hpre Hrun Hi. pose proof (reachable_inv w Hr) as Hinv.
  destruct (proj1 (inv_waiters w Hinv i) (proj1 (Semaphore.precedes_in _ _ _ Hpre)))
    as (ti & Hti & Hpi).
  destruct (fifo_run w evs w' i j Hinv ltac:(exists ti; rewrite Hpi; split; [exact Hti | discriminate])
              (fun _ => Hpre) Hrun) as (Hinv' & _ & Hf).
  apply (inv_waiters w' Hinv'), (Semaphore.precedes_in _ i), Hf, (inv_waiters w' Hinv'), Hi.
Qed.

(** How a step changes the semaphore: an answer of OpenAI releases it,
    a task at [Acquiring] acquires it, nothing else touches it. *)
Lemma sem_changes_step w ev w' :
  sstep w ev w' ->
  (api_event ev = true /\ w_sem w' = fst (Semaphore.release (w_sem w))) \/
  (api_event ev = false /\ (w_sem w' = w_sem w \/
     exists k t, w_tasks w !! k = Some t /\ t_pc t = Acquiring /\
       w_sem w' = fst (Semaphore.acquire (w_sem w) k))).
Proof.
  destruct 1; unfold set_task, fail_task; cbn [w_sem api_event];
    try (right; split; [reflexivity | left; reflexivity]);
    try (left; split; [reflexivity | match goal with H : Semaphore.release _ = _ |- _ => now rewrite H end]).
  right. split; [reflexivity|]. right. exists i, t. split_and!; try assumption. now rewrite H1.
Qed.

Lemma queued_step w ev w' i n k :
  inv w -> sstep w ev w' -> past_acquire (w_tasks w) i -> queued_at w i n k ->
  queued_at w' i (n + if api_event ev then 1 else 0) k.
Proof.
  intros Hinv Hs (ti & Hti & Hpi) Hq Hin.
  destruct (sem_changes_step w ev w' Hs) as [[-> Hsem]|[-> [Hsem|(k' & t & Hk & Ha & Hsem)]]]; rewrite Hsem in Hin |- *.
  - destruct (Hq (Semaphore.release_member _ _ Hin)) as (m & Hm & Hmk).
    destruct (Semaphore.release_position _ i m (inv_nodup w Hinv) Hin Hm) as (m' & -> & Hm').
    exists m'. split; [exact Hm' | lia].
  - destruct (Hq Hin) as (m & Hm & Hmk). exists m. split; [exact Hm | lia].
  - assert (Hne : k' <> i) by (intros ->; congruence).
    destruct (Hq (Semaphore.acquire_member _ _ _ Hne Hin)) as (m & Hm & Hmk).
    exists m. split; [apply Semaphore.acquire_keeps_position, Hm | lia].
Qed.

Lemma queued_run evs w w' i n k :
  inv w -> past_acquire (w_tasks w) i -> queued_at w i n k -> run step w evs = Some w' ->
  inv w' /\ past_acquire (w_tasks w') i /\ queued_at w' i (n + count_api evs) k.
Proof.
  revert w n. induction evs as [|ev evs IH]; intros w n Hinv Hp Hq Hrun; simpl in Hrun.
  - injection Hrun as <-. unfold count_api. simpl. rewrite Nat.add_0_r. auto.
  - destruct (step w ev) as [w1|] eqn:Hs; [|discriminate]. apply step_sstep in Hs.
    destruct (IH w1 (n + if api_event ev then 1 else 0)%nat) as (H1 & H2 & H3);
      eauto using inv_step, past_acquire_step, queued_step.
    split_and!; [exact H1 | exact H2 |].
    replace (n + count_api (ev :: evs))%nat with (n + (if api_event ev then 1 else 0) + count_api evs)%nat;
      [exact H3|]. unfold count_api. simpl. destruct (api_event ev); simpl; lia.
Qed.

(** C33: bounded waiting on [OPENAI_SEM]: a request at place [k] of the
    semaphore's queue (counting from 0) has been handed its slot once
    more than [k] OpenAI calls have returned, whatever else happens in
    between (new photos, other resumptions, failures): it then exists,
    is neither parked nor about to enter the semaphore. *)
Theorem openai_sem_bounded_wait w i k evs w' :
  reachable w -> Semaphore.waiters (w_sem w) !! k = Some i ->
  run step w evs = Some w' -> (k < count_api evs)%nat ->
  exists t, w_tasks w' !! i = Some t /\ t_pc t <> Waiting /\ t_pc t <> Acquiring.
Proof.
  intros Hr Hk Hrun Hlt. pose proof (reachable_inv w Hr) as Hinv.
  destruct (proj1 (inv_waiters w Hinv i) (list_elem_of_lookup_2 _ _ _ Hk)) as (ti & Hti & Hpi).
  destruct (queued_run evs w w' i 0 k Hinv
              ltac:(exists ti; rewrite Hpi; split; [exact Hti | discriminate])
              ltac:(intros _; exists k; split; [exact Hk | lia]) Hrun)
    as (Hinv' & (t & Ht & Hpa) & Hq).
  exists t. split_and!; [exact Ht | | exact Hpa]. intros Hw.
  destruct (Hq (proj2 (inv_waiters w' Hinv' i) ltac:(eauto))) as (m & _ & Hm). lia.
Qed.

(** ** No timeout: calls that never return keep their slots *)

Lemma holders_within_insert w0 ts k t' :
  holders_within w0 ts ->
  (is_holder t' = true -> exists t, w_tasks w0 !! k = Some t /\ is_holder t = true) ->
  holders_within w0 (<[k:=t']> ts).
Proof.
  intros H Hk i t'' Hl Hh. apply list_lookup_insert_Some in Hl as [(-> & -> & _)|(_ & Hl)]; eauto.
Qed.

Lemma holders_within_snoc w0 ts t :
  holders_within w0 ts -> is_holder t = false -> holders_within w0 (ts ++ [t]).
Proof.
  intros H Ht i t' Hl Hh. apply lookup_app_Some in Hl as [Hl|(_ & Hl)]; [eauto|].
  apply list_lookup_singleton_Some in Hl as [_ <-]. congruence.
Qed.

(** With no free slot and no OpenAI call returning, a step hands no slot
    to anyone: [acquire] parks, and only a task woken before resumes. *)
Lemma holders_step w0 w ev w' :
  sstep w ev w' -> api_event ev = false -> Semaphore.value (w_sem w) = 0%nat ->
  holders_within w0 (w_tasks w) ->
  Semaphore.value (w_sem w') = 0%nat /\ holders_within w0 (w_tasks w').
Proof.
  destruct 1; intros Hapi Hv Hh; cbn [api_event] in Hapi; try discriminate Hapi;
    unfold set_task, fail_task; cbn [w_sem w_tasks].
  all: lazymatch goal with
  | Ha : Semaphore.acquire _ _ = (?s', ?got) |- _ =>
      unfold Semaphore.acquire, Semaphore.locked in Ha; rewrite Hv in Ha; simpl in Ha;
      injection Ha as <- <-; simpl
  | _ => idtac
  end; split; try exact Hv; try exact Hh; try reflexivity.
  all: try (apply holders_within_snoc; [exact Hh | reflexivity]).
  all: apply holders_within_insert; [exact Hh|]; intros Hx; simpl in Hx; try discriminate Hx.
  (* the resumption of a task woken earlier *)
  match goal with Ht : w_tasks _ !! _ = Some ?t, Hp : t_pc ?t = Woken |- _ =>
    apply (Hh _ _ Ht); unfold is_holder; now rewrite Hp end.
Qed.

Lemma holders_run w0 evs w w' :
  run step w evs = Some w' -> Forall (fun ev => api_event ev = false) evs ->
  Semaphore.value (w_sem w) = 0%nat -> holders_within w0 (w_tasks w) ->
  Semaphore.value (w_sem w') = 0%nat /\ holders_within w0 (w_tasks w').
Proof.
  revert w. induction evs as [|ev evs IH]; simpl; intros w Hrun Hev Hv Hh;
    [injection Hrun as <-; auto|].
  destruct (step w ev) as [w1|] eqn:Hs; [|discriminate]. apply Forall_cons in Hev as [Hev1 Hev].
  destruct (holders_step w0 w ev w1 (step_sstep _ _ _ Hs) Hev1 Hv Hh) as [Hv1 Hh1].
  exact (IH w1 Hrun Hev Hv1 Hh1).
Qed.

(** C35: [await client.images.edit(...)] has no timeout (line 51): once
    the four slots of [OPENAI_SEM] are all taken, as long as none of the
    pending OpenAI calls returns, every slot stays held and no other
    request gets one, whatever photos arrive and whatever else the event
    loop runs: the holders are those of the start. Four hung calls stop
    the bot's image generation for good. *)
Theorem hung_calls_hold_all_slots w evs w' :
  reachable w -> Semaphore.value (w_sem w) = 0%nat ->
  run step w evs = Some w' -> Forall (fun ev => api_event ev = false) evs ->
  slots_held w' = OPENAI_SEM_CAP /\
  forall i t', w_tasks w' !! i = Some t' -> is_holder t' = true ->
    exists t, w_tasks w !! i = Some t /\ is_holder t = true.
Proof.
  intros Hr Hv Hrun Hev.
  destruct (holders_run w evs w w' Hrun Hev Hv (fun i t Ht Hh => ex_intro _ t (conj Ht Hh)))
    as [Hv' Hh'].
  split; [|exact Hh'].
  pose proof (inv_sem w' (run_inv w evs w' (reachable_inv w Hr) Hrun)) as Hsem.
  unfold slots_held. lia.
Qed.

End Fifo.

End OrchestratorFifo.
