(* ===== verification/OrchestratorErrors.v ===== *)
(** * The error paths of [work] (main.py lines 104-118)

    What a request whose [try] block raises shows the user, from any
    reachable world:
    - an [images.edit] call that raises, or whose answer cannot be
      decoded ([Aging.age_result] is an error), leaves
      [async with OPENAI_SEM] through [__aexit__], so the slot goes back to
      the semaphore or to the head of its queue; the exception is logged,
      the request is not counted, and the failure edit shows [str(e)];
    - a [reply_photo] that raises after [TOTAL_GENERATED] was incremented
      sends the user the failure text although the request is counted;
    - a failure edit that raises ends the task with that exception: no
      later event gives the user a final message. *)

From S2P Require Import Prelude Semaphore Aging Orchestrator OrchestratorInv OrchestratorThm.

Module OrchestratorErrors.
Import Orchestrator OrchestratorInv OrchestratorThm.

Section Errors.
Context `{C : Composer}.

Lemma lookup_insert_here (ts : list task) i t t' :
  ts !! i = Some t -> <[i:=t']> ts !! i = Some t'.
Proof. intros Ht. apply list_lookup_insert_eq. eauto using lookup_lt_Some. Qed.

Lemma msgs_at w i t : inv w -> w_tasks w !! i = Some t -> msgs_inv t (messages w i).
Proof. intros Hinv Ht. pose proof (inv_out w Hinv i) as H. rewrite Ht in H. exact H. Qed.

(** [release] does not touch a task that is not parked. *)
Lemma wake_keeps w s' oj i t :
  inv w -> Semaphore.release (w_sem w) = (s', oj) ->
  w_tasks w !! i = Some t -> t_pc t <> Waiting -> wake oj (w_tasks w) !! i = Some t.
Proof.
  intros Hinv Hrel Ht Hp. pose proof (release_wake w s' oj Hinv Hrel) as Hw.
  destruct oj as [j|]; [|destruct Hw as (_ & _ & _ & ->); exact Ht].
  destruct Hw as (tj & Hj & Hpj & _ & _ & ->).
  rewrite list_lookup_insert_ne; [exact Ht|]. intros ->. congruence.
Qed.

(** A finished task is never resumed again. *)
Lemma finished_step w ev w' i t o :
  inv w -> sstep w ev w' -> w_tasks w !! i = Some t -> t_pc t = Finished o ->
  w_tasks w' !! i = Some t.
Proof.
  intros Hinv Hs Ht Hp.
  assert (Hne : forall k tk p, w_tasks w !! k = Some tk -> t_pc tk = p -> p <> Finished o -> k <> i)
    by (intros k tk p Hk Hpk Hpo ->; congruence).
  destruct Hs; unfold set_task, fail_task; cbn [w_tasks]; try exact Ht.
  1: rewrite lookup_app_l by eauto using lookup_lt_Some; exact Ht.
  all: rewrite list_lookup_insert_ne by (eapply Hne; eauto; discriminate);
    first [exact Ht | eapply wake_keeps; eauto; congruence].
Qed.

Lemma finished_run w evs w' i t o :
  inv w -> run step w evs = Some w' -> w_tasks w !! i = Some t -> t_pc t = Finished o ->
  w_tasks w' !! i = Some t.
Proof.
  revert w. induction evs as [|ev evs IH]; simpl; intros w Hinv Hrun Ht Hp; [congruence|].
  destruct (step w ev) as [w1|] eqn:Hs; [|discriminate].
  apply step_sstep in Hs.
  exact (IH w1 (inv_step w ev w1 Hinv Hs) Hrun (finished_step w ev w1 i t o Hinv Hs Ht Hp) Hp).
Qed.


(** C11: whatever fails in the OpenAI call (the call raises, the answer
    has no [data], its payload is not base64), the request takes the
    [except] branch having given its slot back: from any reachable world
    where request [i] awaits [images.edit], if the result [r] ages to an
    error [e], then the request is failing with [e] and not counted,
    [TOTAL_GENERATED] is unchanged, [e] is logged, the user still has only
    the status, and the slot went back to [OPENAI_SEM] (its value grows
    when no request is parked) or to the head of its queue, which is
    woken; once the failure edit returns, the user has the status and the
    text of [e]. *)
Theorem api_failure_releases_slot w i t r e w' :
  reachable w -> w_tasks w !! i = Some t -> t_pc t = Calling -> Aging.age_result r = Err e ->
  step w (ApiReturns i r) = Some w' ->
  (exists t', w_tasks w' !! i = Some t' /\ t_pc t' = Failing e /\ is_counted t' = false) /\
  w_total w' = w_total w /\ w_log w' = w_log w ++ [LogError e] /\
  messages w' i = [MStatus PROCESSING] /\
  ((Semaphore.waiters (w_sem w) = [] /\
    Semaphore.value (w_sem w') = S (Semaphore.value (w_sem w))) \/
   (exists j ws tj, Semaphore.waiters (w_sem w) = j :: ws /\ Semaphore.waiters (w_sem w') = ws /\
      w_tasks w' !! j = Some tj /\ t_pc tj = Woken)) /\
  (forall u, exists w'', step w' (EditReturns i (Ok u)) = Some w'' /\
     messages w'' i = [MStatus PROCESSING; MEdit (FAILED e)]).
Proof.
  intros Hr Ht Hp He Hs. pose proof (reachable_inv w Hr) as Hinv.
  pose proof (frame_of w i t Hinv Ht) as [_ Hl]. rewrite Hp in Hl. cbn [locals_ok] in Hl.
  pose proof (msgs_at w i t Hinv Ht) as Hm. unfold msgs_inv in Hm. rewrite Hp in Hm.
  destruct (Semaphore.release (w_sem w)) as [s' oj] eqn:Hrel.
  rewrite (sstep_step _ _ _ (s_api_err w i t r s' oj e Ht Hp Hrel He)) in Hs. injection Hs as <-.
  pose proof (api_view w i t s' oj Hinv Ht Hp Hrel) as Hv.
  assert (H1 : w_tasks (fail_task (mk_world s' (w_total w) (wake oj (w_tasks w)) (w_out w) (w_log w)) i t e)
                 !! i = Some (set_pc t (Failing e))) by (eapply lookup_insert_here; exact Hv).
  split_and!; try reflexivity.
  - eexists. split; [exact H1|]. split; [reflexivity|]. unfold is_counted. simpl.
    destruct Hl as [_ ->]. reflexivity.
  - exact Hm.
  - pose proof (release_wake w s' oj Hinv Hrel) as Hw. destruct oj as [j|].
    + right. destruct Hw as (tj & Hj & Hpj & Hq & _ & Hwk). exists j, (Semaphore.waiters s').
      exists (set_pc tj Woken). split_and!; try reflexivity; [exact Hq|].
      cbn [fail_task w_tasks]. rewrite Hwk.
      rewrite list_lookup_insert_ne by (intros ->; congruence). eapply lookup_insert_here. exact Hj.
    + left. destruct Hw as (Hq & _ & Hv' & _). auto.
  - intros u. eexists. split; [exact (sstep_step _ _ _ (s_edit_failed _ i _ e u H1 eq_refl))|].
    unfold messages. cbn [w_out fail_task]. rewrite msgs_of_snoc_eq. fold (messages w i).
    rewrite Hm. reflexivity.
Qed.

(** C25: a failure edit that raises leaves the user without a final
    message for good: from any reachable world where request [i] awaits
    the edit of its [except] branch, if that edit raises [e'] then, after
    any further events, the task has died with [e'] and the user has only
    the status, or the status and "Готово!", neither the collage nor the
    failure text. *)
Theorem failure_edit_error_unreported w i t e e' evs w' :
  reachable w -> w_tasks w !! i = Some t -> t_pc t = Failing e ->
  run step w (EditReturns i (Err e') :: evs) = Some w' ->
  exists t', w_tasks w' !! i = Some t' /\ t_pc t' = Finished (Crashed e') /\
    (messages w' i = [MStatus PROCESSING] \/ messages w' i = [MStatus PROCESSING; MEdit DONE]).
Proof.
  intros Hr Ht Hp Hrun. pose proof (reachable_inv w Hr) as Hinv.
  pose proof (s_edit_failed_err w i t e e' Ht Hp) as Hs1.
  cbn [run] in Hrun. rewrite (sstep_step _ _ _ Hs1) in Hrun.
  set (t1 := set_pc t (Finished (Crashed e'))).
  assert (H1 : w_tasks (set_task w i t1) !! i = Some t1) by (eapply lookup_insert_here; exact Ht).
  pose proof (inv_step _ _ _ Hinv Hs1) as Hinv1.
  pose proof (finished_run _ _ _ i t1 (Crashed e') Hinv1 Hrun H1 eq_refl) as H'.
  exists t1. split_and!; [exact H' | reflexivity |].
  pose proof (msgs_at w' i t1 (run_inv _ _ _ Hinv1 Hrun) H') as Hm. exact Hm.
Qed.

End Errors.

End OrchestratorErrors.
