(* ===== verification/OrchestratorSpec.v ===== *)
(** * The request lifecycle as an abstract specification, and the refinement

    [astep] is what the orchestrator promises, stated without the event
    loop, the semaphore or the log: a request is created with its status
    message and then goes, one step at a time, through generation,
    composition (the only place the counter moves, by one, with a collage
    that is [compose] of the request's own photos), the "Готово!" edit and
    the delivery of that collage; from any live phase it may fail, after
    which one failure edit is sent, or the failure edit itself raises and
    the request ends without a final message.

    [abs] forgets the scheduler-level detail of a world: the semaphore and
    the phases of waiting for it all look like [AGenerating].  The
    simulation lemma [abs_step] shows every step of [Orchestrator.step] is
    an [astep] or leaves the abstract state unchanged (a stutter), in the
    style of a forward simulation diagram; [orchestrator_refines_spec]
    lifts it to every reachable world. *)

From stdpp Require Import relations.
From S2P Require Import Prelude Semaphore Aging Orchestrator OrchestratorInv.

Module OrchestratorSpec.
Import Orchestrator OrchestratorInv.

(** The phase of one request as the specification sees it. *)
Inductive aphase :=
| AGenerating                          (** before [images.edit] has answered *)
| AComposing (after : bytes)           (** [make_collage] running *)
| ADelivering (c : bytes) (announced : bool)
    (** counted, collage [c]; [announced] once "Готово!" is shown *)
| AFailing (e : exc)                   (** failure caught, its edit pending *)
| ADone (o : outcome).

Record areq := mk_areq { a_before : bytes; a_phase : aphase }.

Record aworld := mk_aworld {
  a_reqs : list areq;
  a_count : nat;
  a_out : list (nat * message)
}.

Definition ainit : aworld := mk_aworld [] 0 [].

Definition live (p : aphase) : bool :=
  match p with AGenerating | AComposing _ | ADelivering _ _ => true | _ => false end.

Definition set_phase (aw : aworld) (i : nat) (r : areq) (p : aphase) : list areq :=
  <[i:=mk_areq (a_before r) p]> (a_reqs aw).

Section Spec.
Context `{C : Composer}.

Inductive astep : aworld -> aworld -> Prop :=
| a_new aw b :
    astep aw (mk_aworld (a_reqs aw ++ [mk_areq b AGenerating]) (a_count aw)
                (a_out aw ++ [(length (a_reqs aw), MStatus PROCESSING)]))
| a_generated aw i r a :
    a_reqs aw !! i = Some r -> a_phase r = AGenerating ->
    astep aw (mk_aworld (set_phase aw i r (AComposing a)) (a_count aw) (a_out aw))
| a_composed aw i r a c :
    a_reqs aw !! i = Some r -> a_phase r = AComposing a -> compose (a_before r) a = Ok c ->
    astep aw (mk_aworld (set_phase aw i r (ADelivering c false)) (S (a_count aw)) (a_out aw))
| a_announced aw i r c :
    a_reqs aw !! i = Some r -> a_phase r = ADelivering c false ->
    astep aw (mk_aworld (set_phase aw i r (ADelivering c true)) (a_count aw)
                (a_out aw ++ [(i, MEdit DONE)]))
| a_delivered aw i r c :
    a_reqs aw !! i = Some r -> a_phase r = ADelivering c true ->
    astep aw (mk_aworld (set_phase aw i r (ADone Succeeded)) (a_count aw)
                (a_out aw ++ [(i, MPhoto c)]))
| a_fail aw i r e :
    a_reqs aw !! i = Some r -> live (a_phase r) = true ->
    astep aw (mk_aworld (set_phase aw i r (AFailing e)) (a_count aw) (a_out aw))
| a_report aw i r e :
    a_reqs aw !! i = Some r -> a_phase r = AFailing e ->
    astep aw (mk_aworld (set_phase aw i r (ADone (Failed e))) (a_count aw)
                (a_out aw ++ [(i, MEdit (FAILED e))]))
| a_crash aw i r e e' :
    a_reqs aw !! i = Some r -> a_phase r = AFailing e ->
    astep aw (mk_aworld (set_phase aw i r (ADone (Crashed e'))) (a_count aw) (a_out aw)).

End Spec.

(** ** The abstraction of a world *)

Definition abs_phase (t : task) : aphase :=
  match t_pc t with
  | Acquiring | Waiting | Woken | Calling => AGenerating
  | Composing => AComposing (default [] (after_bytes t))
  | EditingDone => ADelivering (default [] (collage t)) false
  | Replying => ADelivering (default [] (collage t)) true
  | Failing e => AFailing e
  | Finished o => ADone o
  end.

Definition abs_task (t : task) : areq := mk_areq (before_bytes t) (abs_phase t).

Definition abs (w : world) : aworld := mk_aworld (abs_task <$> w_tasks w) (w_total w) (w_out w).

(** ** Forward simulation *)

Section Refinement.
Context `{C : Composer}.

Lemma abs_update (ts : list task) i t t' s n out l :
  ts !! i = Some t -> before_bytes t' = before_bytes t ->
  abs (mk_world s n (<[i:=t']> ts) out l) =
  mk_aworld (<[i:=mk_areq (before_bytes t) (abs_phase t')]> (abs_task <$> ts)) n out.
Proof. intros _ Hb. unfold abs. simpl. rewrite list_fmap_insert. unfold abs_task. now rewrite Hb. Qed.

Lemma abs_stutter (ts : list task) i t t' :
  ts !! i = Some t -> abs_task t' = abs_task t ->
  abs_task <$> <[i:=t']> ts = abs_task <$> ts.
Proof.
  intros Ht Ha. rewrite list_fmap_insert, Ha. apply list_insert_id.
  rewrite list_lookup_fmap, Ht. reflexivity.
Qed.

(** Handing a slot to a parked task is invisible to the specification. *)
Lemma abs_wake w s' oj :
  inv w -> Semaphore.release (w_sem w) = (s', oj) ->
  abs_task <$> wake oj (w_tasks w) = abs_task <$> w_tasks w.
Proof.
  intros Hinv Hrel. pose proof (release_wake w s' oj Hinv Hrel) as Hw.
  destruct oj as [j|]; [|destruct Hw as (_ & _ & _ & ->); reflexivity].
  destruct Hw as (tj & Hj & Hpj & _ & _ & ->).
  apply (abs_stutter _ j tj); [exact Hj|]. unfold abs_task, abs_phase. simpl. now rewrite Hpj.
Qed.

Lemma lookup_abs (ts : list task) i t : ts !! i = Some t -> (abs_task <$> ts) !! i = Some (abs_task t).
Proof. intros Ht. rewrite list_lookup_fmap, Ht. reflexivity. Qed.

Ltac abs_phase_of :=
  unfold abs_task, abs_phase; simpl;
  repeat match goal with H : t_pc _ = _ |- _ => rewrite H; clear H end; reflexivity.

(** The simulation diagram: one step of [step] is one [astep], or none. *)
Lemma abs_step w ev w' : inv w -> sstep w ev w' -> abs w' = abs w \/ astep (abs w) (abs w').
Proof.
  intros Hinv Hs. destruct Hs.
  - left. reflexivity.
  - right. unfold abs at 2. simpl. rewrite fmap_app.
    replace (length (w_tasks w)) with (length (a_reqs (abs w))) by apply length_fmap.
    apply (a_new (abs w)).
  - left. unfold abs. simpl. f_equal. apply (abs_stutter _ i t); [assumption|].
    destruct got; abs_phase_of.
  - left. unfold set_task, abs. simpl. f_equal. apply (abs_stutter _ i t); [assumption|].
    abs_phase_of.
  - right. unfold set_task, fail_task. cbn [w_sem w_total w_tasks w_out w_log].
    rewrite (abs_update _ i t) by (eauto using api_view). rewrite (abs_wake w s' oj) by assumption.
    eapply (a_generated (abs w) i (abs_task t)); [apply lookup_abs; assumption | abs_phase_of].
  - right. unfold set_task, fail_task. cbn [w_sem w_total w_tasks w_out w_log].
    rewrite (abs_update _ i t) by (eauto using api_view).
    rewrite (abs_wake w s' oj) by assumption.
    eapply (a_fail (abs w) i (abs_task t)); [apply lookup_abs; assumption | abs_phase_of].
  - right. unfold set_task, fail_task. cbn [w_sem w_total w_tasks w_out w_log].
    rewrite (abs_update _ i t) by (assumption || reflexivity).
    eapply (a_composed (abs w) i (abs_task t) a c); [apply lookup_abs; assumption | | assumption].
    unfold abs_task, abs_phase. simpl. rewrite H0, H1. reflexivity.
  - right. unfold set_task, fail_task. cbn [w_sem w_total w_tasks w_out w_log].
    rewrite (abs_update _ i t) by (assumption || reflexivity).
    eapply (a_fail (abs w) i (abs_task t)); [apply lookup_abs; assumption | abs_phase_of].
  - right. unfold set_task, fail_task. cbn [w_sem w_total w_tasks w_out w_log].
    rewrite (abs_update _ i t) by (assumption || reflexivity).
    eapply (a_announced (abs w) i (abs_task t)); [apply lookup_abs; assumption | abs_phase_of].
  - right. unfold set_task, fail_task. cbn [w_sem w_total w_tasks w_out w_log].
    rewrite (abs_update _ i t) by (assumption || reflexivity).
    eapply (a_fail (abs w) i (abs_task t)); [apply lookup_abs; assumption | abs_phase_of].
  - right. unfold set_task, fail_task. cbn [w_sem w_total w_tasks w_out w_log].
    rewrite (abs_update _ i t) by (assumption || reflexivity).
    eapply (a_report (abs w) i (abs_task t)); [apply lookup_abs; assumption | abs_phase_of].
  - right. unfold set_task, fail_task. cbn [w_sem w_total w_tasks w_out w_log].
    rewrite (abs_update _ i t) by (assumption || reflexivity).
    eapply (a_crash (abs w) i (abs_task t)); [apply lookup_abs; assumption | abs_phase_of].
  - right. unfold set_task, fail_task. cbn [w_sem w_total w_tasks w_out w_log].
    rewrite (abs_update _ i t) by (assumption || reflexivity).
    replace c with (default [] (collage t)) by (rewrite H1; reflexivity).
    eapply (a_delivered (abs w) i (abs_task t)); [apply lookup_abs; assumption | abs_phase_of].
  - right. unfold set_task, fail_task. cbn [w_sem w_total w_tasks w_out w_log].
    rewrite (abs_update _ i t) by (assumption || reflexivity).
    eapply (a_fail (abs w) i (abs_task t)); [apply lookup_abs; assumption | abs_phase_of].
Qed.

Lemma abs_run w evs w' : inv w -> run step w evs = Some w' -> rtc astep (abs w) (abs w').
Proof.
  revert w. induction evs as [|ev evs IH]; simpl; intros w Hinv Hrun.
  - injection Hrun as <-. apply rtc_refl.
  - destruct (step w ev) as [w1|] eqn:Hs; [|discriminate].
    apply step_sstep in Hs. pose proof (inv_step w ev w1 Hinv Hs) as Hinv1.
    destruct (abs_step w ev w1 Hinv Hs) as [Heq|Ha].
    + rewrite <- Heq. exact (IH w1 Hinv1 Hrun).
    + eapply rtc_l; [exact Ha | exact (IH w1 Hinv1 Hrun)].
Qed.

(** C24: the orchestrator refines the request lifecycle: the abstraction
    of every reachable world is reachable in the specification [astep]
    from the empty state, and every continuation of a reachable world is
    matched by specification steps.  So the counter moves only when a
    composition returns, by one; a request's phases follow generation,
    composition, the "Готово!" edit and the delivery of its own collage
    in this order; the photo sent is that collage; a failure sends at most
    one failure edit. *)
Theorem orchestrator_refines_spec w :
  reachable w ->
  rtc astep ainit (abs w) /\
  forall evs w', run step w evs = Some w' -> rtc astep (abs w) (abs w').
Proof.
  intros [evs0 Hrun0]. pose proof (reachable_inv w (ex_intro _ evs0 Hrun0)) as Hinv.
  split; [exact (abs_run init evs0 w inv_init Hrun0)|].
  intros evs w' Hrun. exact (abs_run w evs w' Hinv Hrun).
Qed.

End Refinement.

End OrchestratorSpec.
