(* ===== verification/Scenarios.v ===== *)
(** * Concrete runs of the orchestrator: the spec's scenarios and witnesses

    The traces below are replayed by [vm_compute] with a small compositor
    ([demo_composer]: the collage of [b] and [a] is [b ++ a]; the theorems
    of [OrchestratorThm] hold for every [Composer]).  They cover
    - five photos arriving together: four OpenAI calls start and the fifth
      request is parked in [OPENAI_SEM] until a slot is handed to it;
    - a request whose OpenAI answer has a malformed payload: the status
      shows the [binascii.Error] and the parked request is handed the
      slot ([OrchestratorErrors.api_failure_releases_slot]);
    - a request that succeeds;
    - a request whose [reply_photo] raises after [TOTAL_GENERATED] was
      incremented: it is counted and yet reported as failed;
    - a request whose failure edit raises: it never gets a final message. *)

From stdpp Require Import relations.
From S2P Require Import Prelude Semaphore Base64 Aging Orchestrator OrchestratorInv OrchestratorThm OrchestratorFifo OrchestratorErrors OrchestratorSpec.

Module Scenarios.
Import Orchestrator OrchestratorInv OrchestratorThm OrchestratorFifo OrchestratorErrors OrchestratorSpec.

Definition demo_composer : Composer := {| compose b a := Ok (b ++ a)%list |}.
#[local] Existing Instance demo_composer.

Definition world_after (evs : list event) : world :=
  match run step init evs with Some w => w | None => init end.

Definition photo (k : nat) : bytes := [byte_of_Z (Z.of_nat k)].

(** The service's answer carrying [bs], base64-encoded as the API does. *)
Definition answer (bs : bytes) : res Aging.images_response :=
  Ok (Aging.mk_images_response (Some [Aging.mk_image_item (Some (Base64.b64encode bs))])).

(** An answer whose [b64_json] is not valid base64 (a truncated quad). *)
Definition malformed_answer : res Aging.images_response :=
  Ok (Aging.mk_images_response (Some [Aging.mk_image_item (Some "aGVsbG8"%string)])).

(** Five photos arrive, then the event loop starts each task once. *)
Definition five_arrive : list event :=
  map (fun k => Arrive (photo k) (Ok tt)) [0; 1; 2; 3; 4]%nat ++
  map Enter [0; 1; 2; 3; 4]%nat.

Definition w_five : world := world_after five_arrive.

(** Request 0 ends with a malformed payload; request 4 is then handed the
    slot and resumed; request 5 arrives later and enters at once after the
    others are done. *)
Definition malformed_then_more : list event :=
  five_arrive ++
  [ApiReturns 0 malformed_answer; EditReturns 0 (Ok tt); Enter 4;
   ApiReturns 1 (answer (photo 11)); ApiReturns 2 (Err (ApiError "Connection error."%string));
   ApiReturns 3 (answer (photo 13)); ApiReturns 4 (answer (photo 14));
   ComposeReturns 1; EditReturns 1 (Ok tt); ReplyReturns 1 (Ok tt);
   EditReturns 2 (Ok tt);
   ComposeReturns 3; EditReturns 3 (Ok tt); ReplyReturns 3 (Err (TelegramError "Timed out"%string));
   EditReturns 3 (Ok tt);
   ComposeReturns 4; EditReturns 4 (Ok tt); ReplyReturns 4 (Ok tt)].

Definition w_done : world := world_after malformed_then_more.

Definition w_next : world :=
  world_after (malformed_then_more ++ [Arrive (photo 5) (Ok tt); Enter 5]).

Lemma reachable_w_five : reachable w_five.
Proof. exists five_arrive. vm_compute. reflexivity. Qed.

Lemma reachable_w_done : reachable w_done.
Proof. exists malformed_then_more. vm_compute. reflexivity. Qed.

Lemma reachable_w_next : reachable w_next.
Proof. exists (malformed_then_more ++ [Arrive (photo 5) (Ok tt); Enter 5]). vm_compute. reflexivity. Qed.

Definition task_of (w : world) (i : nat) : task :=
  match w_tasks w !! i with Some t => t | None => mk_task [] None None Acquiring end.

(** ** Witnesses: each theorem of [OrchestratorThm] at a concrete world *)

Lemma openai_calls_bounded_witness :
  (in_flight w_five <= slots_held w_five <= OPENAI_SEM_CAP)%nat /\
  (Semaphore.value (w_sem w_five) + slots_held w_five = OPENAI_SEM_CAP)%nat.
Proof. apply openai_calls_bounded. exists five_arrive. vm_compute. reflexivity. Defined.

Lemma total_generated_exact_witness :
  w_total w_done = collages_made w_done /\
  logged_totals (w_log w_done) = seq 1 (w_total w_done).
Proof. apply total_generated_exact. exists malformed_then_more. vm_compute. reflexivity. Defined.

Lemma slots_released_when_idle_witness :
  Semaphore.value (w_sem w_done) = OPENAI_SEM_CAP /\ Semaphore.waiters (w_sem w_done) = [].
Proof.
  apply slots_released_when_idle.
  - exists malformed_then_more. vm_compute. reflexivity.
  - vm_compute. repeat constructor.
Defined.

Lemma succeeded_request_messages_witness :
  exists a c,
    after_bytes (task_of w_done 1) = Some a /\
    compose (before_bytes (task_of w_done 1)) a = Ok c /\
    is_counted (task_of w_done 1) = true /\
    messages w_done 1 = [MStatus PROCESSING; MEdit DONE; MPhoto c].
Proof.
  apply succeeded_request_messages.
  - exists malformed_then_more. vm_compute. reflexivity.
  - vm_compute. reflexivity.
  - vm_compute. reflexivity.
Defined.

Lemma photo_only_on_success_witness :
  ((exists c, MPhoto c ∈ messages w_done 3) ->
     t_pc (task_of w_done 3) = Finished Succeeded) /\
  (forall e, t_pc (task_of w_done 3) = Finished (Failed e) ->
     messages w_done 3 = [MStatus PROCESSING; MEdit (FAILED e)] \/
     messages w_done 3 = [MStatus PROCESSING; MEdit DONE; MEdit (FAILED e)]).
Proof.
  apply photo_only_on_success.
  - exists malformed_then_more. vm_compute. reflexivity.
  - vm_compute. reflexivity.
Defined.

Lemma waiting_implies_holder_witness :
  (0 < slots_held w_five)%nat /\ Semaphore.value (w_sem w_five) = 0%nat.
Proof.
  apply (waiting_implies_holder w_five 4 (task_of w_five 4)).
  - exists five_arrive. vm_compute. reflexivity.
  - vm_compute. reflexivity.
  - vm_compute. reflexivity.
Defined.

Definition drain_five : list event :=
  [ApiReturns 0 (answer (photo 10)); Enter 4; ComposeReturns 0; EditReturns 0 (Ok tt)].

Lemma task_runs_bounded_witness :
  (length drain_five <= pending w_five)%nat.
Proof.
  apply (task_runs_bounded w_five drain_five (world_after (five_arrive ++ drain_five))).
  - exists five_arrive. vm_compute. reflexivity.
  - vm_compute. reflexivity.
  - vm_compute. repeat constructor.
Defined.

Lemma never_stuck_witness : exists i, resumable w_five i.
Proof.
  apply never_stuck.
  - exists five_arrive. vm_compute. reflexivity.
  - exists 0%nat, (task_of w_five 0). vm_compute. split; reflexivity.
Defined.

Lemma all_requests_can_finish_witness :
  exists evs w', Forall (fun ev => task_event ev = true) evs /\
    run step w_five evs = Some w' /\ Forall (fun t => is_finished t = true) (w_tasks w').
Proof. apply all_requests_can_finish. exists five_arrive. vm_compute. reflexivity. Defined.

(** Six photos arrive together: requests 4 and 5 are parked, in this
    order; a seventh arrives and is parked behind them. *)
Definition six_arrive : list event :=
  map (fun k => Arrive (photo k) (Ok tt)) [0; 1; 2; 3; 4; 5]%nat ++ map Enter [0; 1; 2; 3; 4; 5]%nat.

Definition seventh : list event := [Arrive (photo 6) (Ok tt); Enter 6].

Lemma openai_sem_fifo_witness :
  Semaphore.waiters (w_sem (world_after six_arrive)) = [4%nat; 5%nat] /\
  (parked (world_after (six_arrive ++ seventh)) 4 -> parked (world_after (six_arrive ++ seventh)) 5).
Proof.
  split; [vm_compute; reflexivity|].
  apply (openai_sem_fifo (world_after six_arrive) 4 5 seventh).
  - exists six_arrive. vm_compute. reflexivity.
  - exists 0%nat, 1%nat. vm_compute. auto.
  - vm_compute. reflexivity.
Defined.

(** Two OpenAI calls return, one with an error: request 5, second in
    the queue, has been handed its slot. *)
Definition two_answers : list event :=
  [ApiReturns 0 (answer (photo 10)); ApiReturns 1 (Err (ApiError "Connection error."%string))].

Lemma openai_sem_bounded_wait_witness :
  exists t, w_tasks (world_after (six_arrive ++ two_answers)) !! 5%nat = Some t /\
    t_pc t <> Waiting /\ t_pc t <> Acquiring.
Proof.
  apply (openai_sem_bounded_wait (world_after six_arrive) 5 1 two_answers).
  - exists six_arrive. vm_compute. reflexivity.
  - vm_compute. reflexivity.
  - vm_compute. reflexivity.
  - vm_compute. lia.
Defined.

(** The four OpenAI calls of [w_five] hang: two more photos arrive and
    one of them enters the semaphore, but no answer comes. *)
Definition no_answer : list event :=
  [Arrive (photo 5) (Ok tt); Enter 5; Arrive (photo 6) (Ok tt)].

Lemma hung_calls_hold_all_slots_witness :
  slots_held (world_after (five_arrive ++ no_answer)) = OPENAI_SEM_CAP /\
  forall i t', w_tasks (world_after (five_arrive ++ no_answer)) !! i = Some t' -> is_holder t' = true ->
    exists t, w_tasks w_five !! i = Some t /\ is_holder t = true.
Proof.
  apply (hung_calls_hold_all_slots w_five no_answer).
  - exists five_arrive. vm_compute. reflexivity.
  - vm_compute. reflexivity.
  - vm_compute. reflexivity.
  - repeat constructor.
Defined.

Lemma orchestrator_refines_spec_witness :
  rtc astep ainit (abs w_five) /\
  forall evs w', run step w_five evs = Some w' -> rtc astep (abs w_five) (abs w').
Proof. apply orchestrator_refines_spec. exists five_arrive. vm_compute. reflexivity. Defined.

(** ** The error paths of [OrchestratorErrors] on these runs *)



(** The counter exceeds the number of collages delivered: 3 against 2
    once [malformed_then_more] has run. *)
Example counter_exceeds_delivered :
  w_total w_done = 3%nat /\
  countb (fun t => bool_decide (t_pc t = Finished Succeeded)) (w_tasks w_done) = 2%nat.
Proof. vm_compute. split; reflexivity. Qed.

(** The spec's malformed payload: request 0 of [w_five] gets an answer
    whose [b64_json] is a truncated quad, while request 4 is parked. *)
Definition w_malformed : world := world_after (five_arrive ++ [ApiReturns 0 malformed_answer]).

Lemma api_failure_releases_slot_witness :
  (exists t', w_tasks w_malformed !! 0 = Some t' /\
     t_pc t' = Failing (BinasciiError "Incorrect padding"%string) /\ is_counted t' = false) /\
  w_total w_malformed = w_total w_five /\
  w_log w_malformed = w_log w_five ++ [LogError (BinasciiError "Incorrect padding"%string)] /\
  messages w_malformed 0 = [MStatus PROCESSING] /\
  ((Semaphore.waiters (w_sem w_five) = [] /\
    Semaphore.value (w_sem w_malformed) = S (Semaphore.value (w_sem w_five))) \/
   (exists j ws tj, Semaphore.waiters (w_sem w_five) = j :: ws /\
      Semaphore.waiters (w_sem w_malformed) = ws /\
      w_tasks w_malformed !! j = Some tj /\ t_pc tj = Woken)) /\
  (forall u, exists w'', step w_malformed (EditReturns 0 (Ok u)) = Some w'' /\
     messages w'' 0 = [MStatus PROCESSING; MEdit (FAILED (BinasciiError "Incorrect padding"%string))]).
Proof.
  apply (api_failure_releases_slot w_five 0 (task_of w_five 0) malformed_answer);
    [exact reachable_w_five | ..]; vm_compute; reflexivity.
Defined.

(** One request whose OpenAI call raises and whose failure edit raises
    in turn (e.g. Telegram times out); a new photo arrives afterwards. *)
Definition crash_run : list event :=
  [Arrive (photo 7) (Ok tt); Enter 0; ApiReturns 0 (Err (ApiError "Connection error."%string));
   EditReturns 0 (Err (TelegramError "Timed out"%string))].

Definition crash_later : list event := [Arrive (photo 8) (Ok tt); Enter 1].

Lemma failure_edit_error_unreported_witness :
  exists t', w_tasks (world_after (crash_run ++ crash_later)) !! 0 = Some t' /\
    t_pc t' = Finished (Crashed (TelegramError "Timed out"%string)) /\
    (messages (world_after (crash_run ++ crash_later)) 0 = [MStatus PROCESSING] \/
     messages (world_after (crash_run ++ crash_later)) 0 = [MStatus PROCESSING; MEdit DONE]).
Proof.
  apply (failure_edit_error_unreported (world_after (firstn 3 crash_run)) 0
           (task_of (world_after (firstn 3 crash_run)) 0) (ApiError "Connection error."%string)
           _ crash_later);
    [exists (firstn 3 crash_run) | ..]; vm_compute; reflexivity.
Defined.

End Scenarios.
