(* ===== verification/Program.v ===== *)
(** * The program as a whole: start-up and the running bot

    [python main.py] first imports the module: lines 15-22 load the
    configuration and raise [RuntimeError] without both credentials, line
    24 builds the OpenAI client with [OPENAI_API_KEY], and the remaining
    lines set up the globals ([Orchestrator.init]).  Lines 131-132 then
    call [main] (lines 121-128), which builds the [Application] with
    [TELEGRAM_BOT_KEY] as its token, gives the event loop a thread pool of
    8 workers, registers the two handlers and polls.

    The running bot is [bot_step]: an incoming update is dispatched by
    [Bot.process_update]; a photo handled by [handle_photo] downloads the
    chosen size from Telegram's file storage ([download], by [file_id]),
    sends the status message and creates the [work] task: the [Arrive]
    event of the orchestrator, with the downloaded bytes.  Every other
    resumption of the event loop is an orchestrator event.  An exception
    raised by a handler is caught by the [Application], which logs it
    (there is no error handler) and goes on with the next update. *)

From S2P Require Import Prelude Semaphore Aging Config Bot Orchestrator OrchestratorInv Scenarios.

Module Program.
Import Orchestrator.

Local Open Scope string_scope.

(** [client = AsyncOpenAI(api_key=OPENAI_API_KEY)] (line 24). *)
Record openai_client := mk_client { api_key : option string }.

(** What [main] builds: the token of [Application.builder().token(...)],
    the handlers in registration order and the workers of the default
    executor. *)
Record application := mk_application {
  app_token : option string;
  app_handlers : list Bot.handler;
  max_workers : nat
}.

(** The module-level code of lines 15-24. *)
Definition import_main (e : Config.env) : res (Config.config * openai_client) :=
  let! c := Config.load_config e in
  Ok (c, mk_client (Config.OPENAI_API_KEY c)).

(** [main()] (lines 121-126) up to [run_polling]. *)
Definition main (c : Config.config) : application :=
  mk_application (Config.TELEGRAM_BOT_KEY c) Bot.handlers 8.

(** [python main.py] when [__name__] is ["__main__"], an import otherwise
    (lines 131-132): the client, and the application when [main] runs. *)
Definition script (name : string) (e : Config.env) : res (openai_client * option application) :=
  let! imported := import_main e in
  let '(c, client) := imported in
  if String.eqb name "__main__" then Ok (client, Some (main c)) else Ok (client, None).

(** The state of the running bot: the orchestrator's world, the replies
    of [start] and the handler exceptions the [Application] logged. *)
Record bot := mk_bot {
  b_world : world;
  b_replies : list string;
  b_errors : list exc
}.

Definition bot_init : bot := mk_bot init [] [].

(** One resumption of the event loop: an update handed to the handlers
    with the result of the handler's Telegram reply, or a resumption of a
    [work] task. *)
Inductive bot_event :=
| Incoming (u : Bot.update) (r : res unit)
| Resume (ev : event).

Section Running.
Context `{C : Composer}.
Variable bot_username : string.
Variable download : string -> res bytes.

Definition log_error (s : bot) (e : exc) : bot :=
  mk_bot (b_world s) (b_replies s) (b_errors s ++ [e]).

Definition set_world (s : bot) (w : world) : bot :=
  mk_bot w (b_replies s) (b_errors s).

Definition bot_step (s : bot) (ev : bot_event) : option bot :=
  match ev with
  | Incoming u r =>
      match Bot.process_update bot_username u with
      | Bot.Ignored => Some s
      | Bot.RanStart (Ok txt) =>
          match r with
          | Ok _ => Some (mk_bot (b_world s) (b_replies s ++ [txt]) (b_errors s))
          | Err e => Some (log_error s e)
          end
      | Bot.RanStart (Err e) | Bot.RanPhoto (Err e) => Some (log_error s e)
      | Bot.RanPhoto (Ok p) =>
          (* get_file, download_as_bytearray, reply_text, create_task *)
          match download (Bot.file_id p) with
          | Err e => Some (log_error s e)
          | Ok b =>
              w ← step (b_world s) (Arrive b r);
              Some (match r with Ok _ => set_world s w | Err e => log_error (set_world s w) e end)
          end
      end
  | Resume (Arrive _ _) => None
  | Resume ev => w ← step (b_world s) ev; Some (set_world s w)
  end.

(** The bot started by [python main.py] in environment [e] reaches [s]. *)
Definition program_reachable (e : Config.env) (s : bot) : Prop :=
  exists client app evs,
    script "__main__" e = Ok (client, Some app) /\ run bot_step bot_init evs = Some s.

(** The orchestrator events a bot event amounts to. *)
Definition orch_events (ev : bot_event) : list event :=
  match ev with
  | Incoming u r =>
      match Bot.process_update bot_username u with
      | Bot.RanPhoto (Ok p) =>
          match download (Bot.file_id p) with Ok b => [Arrive b r] | Err _ => [] end
      | _ => []
      end
  | Resume (Arrive _ _) => []
  | Resume ev => [ev]
  end.

Lemma bot_step_orch s ev s' :
  bot_step s ev = Some s' -> run step (b_world s) (orch_events ev) = Some (b_world s').
Proof.
  destruct ev as [u r|ev]; simpl.
  - destruct (Bot.process_update bot_username u) as [|[txt|e]|[p|e]]; intros H;
      [| destruct r | | destruct (download (Bot.file_id p)); [destruct r|] |];
      simpl in H; injection H as <-; reflexivity.
  - destruct ev as [b h| | | | |]; [discriminate|..];
      destruct (step (b_world s) _) eqn:Hs; intros H; try discriminate;
      injection H as <-; cbn [run]; rewrite Hs; reflexivity.
Qed.

Lemma bot_run_orch evs s s' :
  run bot_step s evs = Some s' ->
  run step (b_world s) (List.flat_map orch_events evs) = Some (b_world s').
Proof.
  revert s. induction evs as [|ev evs IH]; simpl; intros s Hrun; [congruence|].
  destruct (bot_step s ev) as [s1|] eqn:Hs; [|discriminate].
  rewrite run_app, (bot_step_orch s ev s1 Hs). exact (IH s1 Hrun).
Qed.

(** C31: a new photo message (not a [/start] command) creates exactly one
    request, whose photo is the downloaded content of the largest size,
    with the status message sent; if the download or the status reply
    raises, no request is created and the exception is logged by the
    [Application]. *)
Theorem photo_update_creates_request s u m p r :
  Bot.message u = Some m -> Bot.is_start bot_username m = false -> last (Bot.photo m) = Some p ->
  let w := b_world s in
  (forall b, download (Bot.file_id p) = Ok b -> r = Ok tt ->
     bot_step s (Incoming u r) =
       Some (set_world s (mk_world (w_sem w) (w_total w) (w_tasks w ++ [mk_task b None None Acquiring])
               (w_out w ++ [(length (w_tasks w), MStatus PROCESSING)]) (w_log w)))) /\
  (forall e, download (Bot.file_id p) = Err e -> bot_step s (Incoming u r) = Some (log_error s e)) /\
  (forall b e, download (Bot.file_id p) = Ok b -> r = Err e ->
     bot_step s (Incoming u r) = Some (log_error s e)).
Proof.
  intros Hm Hs Hp w. unfold bot_step.
  rewrite (Bot.process_photo_message bot_username u m p Hm Hs Hp).
  split_and!.
  - intros b Hd ->. rewrite Hd. reflexivity.
  - intros e Hd. rewrite Hd. reflexivity.
  - intros b e Hd ->. rewrite Hd. destruct s. reflexivity.
Qed.

End Running.

(** ** A concrete start-up and run *)

#[local] Existing Instance Scenarios.demo_composer.

(** Telegram's file storage: every file holds the same photo. *)
Definition demo_download (file_id : string) : res bytes := Ok (Scenarios.photo 7).

Definition photo_message : Bot.tg_message := Bot.mk_message None Bot.sizes.

(** A photo, a [/start], an edited photo, then the photo's task enters. *)
Definition demo_events : list bot_event :=
  [Incoming (Bot.new_update photo_message) (Ok tt);
   Incoming (Bot.new_update (Bot.mk_message (Some "/start") [])) (Ok tt);
   Incoming (Bot.edited_update photo_message) (Ok tt);
   Resume (Enter 0)].

Definition demo_bot : bot :=
  match run (bot_step "AgingBot" demo_download) bot_init demo_events with
  | Some s => s | None => bot_init end.

Lemma photo_update_creates_request_witness :
  let w := b_world bot_init in
  (forall b, demo_download (Bot.file_id (Bot.mk_photo_size "large" 1280 960)) = Ok b -> Ok tt = Ok tt ->
     bot_step "AgingBot" demo_download bot_init (Incoming (Bot.new_update photo_message) (Ok tt)) =
       Some (set_world bot_init (mk_world (w_sem w) (w_total w)
               (w_tasks w ++ [mk_task b None None Acquiring])
               (w_out w ++ [(length (w_tasks w), MStatus PROCESSING)]) (w_log w)))) /\
  (forall e, demo_download (Bot.file_id (Bot.mk_photo_size "large" 1280 960)) = Err e ->
     bot_step "AgingBot" demo_download bot_init (Incoming (Bot.new_update photo_message) (Ok tt)) =
       Some (log_error bot_init e)) /\
  (forall b e, demo_download (Bot.file_id (Bot.mk_photo_size "large" 1280 960)) = Ok b ->
     (Ok tt : res unit) = Err e ->
     bot_step "AgingBot" demo_download bot_init (Incoming (Bot.new_update photo_message) (Ok tt)) =
       Some (log_error bot_init e)).
Proof.
  apply (photo_update_creates_request "AgingBot" demo_download bot_init
           (Bot.new_update photo_message) photo_message (Bot.mk_photo_size "large" 1280 960) (Ok tt));
    vm_compute; reflexivity.
Defined.

(** The run above: one request with the downloaded photo, now calling
    OpenAI; one greeting; the edited photo logged as [AttributeError]. *)
Example demo_run :
  length (w_tasks (b_world demo_bot)) = 1%nat /\
  map t_pc (w_tasks (b_world demo_bot)) = [Calling] /\
  map before_bytes (w_tasks (b_world demo_bot)) = [Scenarios.photo 7] /\
  b_replies demo_bot = [Config.START_TEXT] /\
  b_errors demo_bot = [AttributeError "'NoneType' object has no attribute 'photo'"].
Proof. vm_compute. repeat split. Qed.

End Program.
