(* ===== verification/Pixel.v ===== *)
(** * The per-pixel integer arithmetic behind [make_collage]'s PIL calls

    [template.paste(img, xy, mask=img)] (main.py lines 79-80) blends every
    band with the mask's alpha through Pillow's [BLEND] macro, and
    [template.alpha_composite(shadow, xy)] (line 88) runs
    [ImagingAlphaComposite] ([libImaging/AlphaComposite.c]).  Both are
    fixed-point C code on [UINT8] pixels, [int] and [UINT32] temporaries.
    They are modelled here with every C conversion written out: [i32] for
    an [int] expression, [u32] for a value stored in or promoted to
    [UINT32], [u8] for a store into a [UINT8] channel.  The theorems show
    that on byte inputs none of these conversions wraps, that [DIV255] is
    division by 255 rounded to nearest, and what the shadow of
    [make_collage] does to an opaque pixel. *)

From S2P Require Import Prelude.

Module Pixel.

Local Open Scope Z_scope.

Record rgba := RGBA { red : Z; green : Z; blue : Z; alpha : Z }.
Record rgb := RGB { r8 : Z; g8 : Z; b8 : Z }.

#[export] Instance rgba_eq_dec : EqDecision rgba.
Proof. solve_decision. Defined.

Definition rgba_ok (p : rgba) : Prop :=
  is_byte (red p) /\ is_byte (green p) /\ is_byte (blue p) /\ is_byte (alpha p).

(** C integer conversions. *)
Definition u8 (z : Z) : Z := z mod 2 ^ 8.
Definition u32 (z : Z) : Z := z mod 2 ^ 32.
Definition i32 (z : Z) : Z := (z + 2 ^ 31) mod 2 ^ 32 - 2 ^ 31.

(** [ImagingUtils.h]: [SHIFTFORDIV255], [DIV255] and [BLEND]. *)
Definition SHIFTFORDIV255 (a : Z) : Z := Z.shiftr (Z.shiftr a 8 + a) 8.
Definition DIV255 (a : Z) : Z := SHIFTFORDIV255 (a + 128).
Definition BLEND (mask in1 in2 : Z) : Z := DIV255 (in1 * (255 - mask) + in2 * mask).

Definition PRECISION_BITS : Z := 7.

(** One output channel of [ImagingAlphaComposite]:
    [SHIFTFORDIV255(tmp + (0x80 << PRECISION_BITS)) >> PRECISION_BITS]
    with [tmp = src_c * coef1 + dst_c * coef2]. *)
Definition composite_channel (coef1 coef2 src_c dst_c : Z) : Z :=
  let tmp := u32 (u32 (src_c * coef1) + u32 (dst_c * coef2)) in
  u8 (Z.shiftr (SHIFTFORDIV255 (u32 (tmp + Z.shiftl 128 PRECISION_BITS))) PRECISION_BITS).

(** The loop body of [ImagingAlphaComposite] for one pixel. *)
Definition alpha_composite_px (dst src : rgba) : rgba :=
  if alpha src =? 0 then dst
  else
    let blend := u32 (alpha dst * (255 - alpha src)) in
    let outa255 := u32 (alpha src * 255 + blend) in
    let coef1 := u32 (i32 (alpha src * 255 * 255 * Z.shiftl 1 PRECISION_BITS)) / outa255 in
    let coef2 := u32 (255 * Z.shiftl 1 PRECISION_BITS - coef1) in
    RGBA (composite_channel coef1 coef2 (red src) (red dst))
         (composite_channel coef1 coef2 (green src) (green dst))
         (composite_channel coef1 coef2 (blue src) (blue dst))
         (u8 (SHIFTFORDIV255 (u32 (outa255 + 128)))).

(** The same computation on unbounded integers: what the C code means. *)
Definition composite_channel_Z (coef1 coef2 src_c dst_c : Z) : Z :=
  SHIFTFORDIV255 (src_c * coef1 + dst_c * coef2 + 128 * 128) / 128.

Definition alpha_composite_Z (dst src : rgba) : rgba :=
  if alpha src =? 0 then dst
  else
    let outa255 := alpha src * 255 + alpha dst * (255 - alpha src) in
    let coef1 := alpha src * 255 * 255 * 128 / outa255 in
    let coef2 := 255 * 128 - coef1 in
    RGBA (composite_channel_Z coef1 coef2 (red src) (red dst))
         (composite_channel_Z coef1 coef2 (green src) (green dst))
         (composite_channel_Z coef1 coef2 (blue src) (blue dst))
         (SHIFTFORDIV255 (outa255 + 128)).

(** ** [SHIFTFORDIV255] and [DIV255] *)

Lemma SHIFTFORDIV255_div a : 0 <= a -> SHIFTFORDIV255 a = (a / 256 + a) / 256.
Proof.
  intros Ha. unfold SHIFTFORDIV255.
  rewrite !Z.shiftr_div_pow2 by lia. reflexivity.
Qed.

Lemma SHIFTFORDIV255_mono a b : 0 <= a <= b -> 0 <= SHIFTFORDIV255 a <= SHIFTFORDIV255 b.
Proof.
  intros Hab. rewrite !SHIFTFORDIV255_div by lia.
  assert (a / 256 <= b / 256) by (apply Z.div_le_mono; lia).
  split; [apply Z.div_pos; [pose proof (Z.div_pos a 256); lia | lia]|].
  apply Z.div_le_mono; lia.
Qed.

(** [DIV255] is division by 255 rounded to nearest on its whole domain
    [0 .. 255*255], the range of [in1*(255-m) + in2*m] for bytes. *)
Lemma DIV255_round v : 0 <= v <= 255 * 255 -> DIV255 v = (v + 127) / 255.
Proof.
  intros Hv. apply Z.eqb_eq.
  refine (forall_range_spec (fun v => DIV255 v =? (v + 127) / 255) 0 (Z.to_nat 65026) _ v
            ltac:(rewrite Z2Nat.id; lia)).
  vm_compute. reflexivity.
Qed.

Lemma BLEND_byte m x y : is_byte m -> is_byte x -> is_byte y ->
  BLEND m x y = (x * (255 - m) + y * m + 127) / 255 /\ is_byte (BLEND m x y).
Proof.
  intros Hm Hx Hy. unfold BLEND.
  assert (H0 : 0 <= x * (255 - m) + y * m <= 255 * 255) by (unfold is_byte in *; nia).
  rewrite DIV255_round by exact H0. split; [reflexivity|].
  unfold is_byte. split; [apply Z.div_pos; lia|].
  assert ((x * (255 - m) + y * m + 127) / 255 < 256) by (apply Z.div_lt_upper_bound; lia).
  lia.
Qed.

(** A mask value of 0 keeps the destination, 255 takes the source. *)
Lemma BLEND_0 x y : is_byte x -> is_byte y -> BLEND 0 x y = x.
Proof.
  intros Hx Hy. destruct (BLEND_byte 0 x y ltac:(byte_lia) Hx Hy) as [-> _].
  replace (x * (255 - 0) + y * 0 + 127) with (x * 255 + 127) by ring.
  rewrite Z.div_add_l by lia. rewrite (Z.div_small 127 255) by lia. lia.
Qed.

Lemma BLEND_255 x y : is_byte x -> is_byte y -> BLEND 255 x y = y.
Proof.
  intros Hx Hy. destruct (BLEND_byte 255 x y ltac:(byte_lia) Hx Hy) as [-> _].
  replace (x * (255 - 255) + y * 255 + 127) with (y * 255 + 127) by ring.
  rewrite Z.div_add_l by lia. rewrite (Z.div_small 127 255) by lia. lia.
Qed.

(** ** [ImagingAlphaComposite] stays within its C types *)

Lemma u32_id z : 0 <= z < 2 ^ 32 -> u32 z = z.
Proof. intros. apply Z.mod_small. lia. Qed.

Lemma u8_id z : is_byte z -> u8 z = z.
Proof. intros. apply Z.mod_small. byte_lia. Qed.

Lemma i32_id z : - 2 ^ 31 <= z < 2 ^ 31 -> i32 z = z.
Proof. intros. unfold i32. rewrite Z.mod_small by lia. lia. Qed.

Lemma channel_exact coef1 coef2 sc dc :
  0 <= coef1 -> 0 <= coef2 -> coef1 + coef2 = 255 * 128 -> is_byte sc -> is_byte dc ->
  composite_channel coef1 coef2 sc dc = composite_channel_Z coef1 coef2 sc dc /\
  is_byte (composite_channel_Z coef1 coef2 sc dc).
Proof.
  intros H1 H2 Hs Hsc Hdc. unfold composite_channel, composite_channel_Z, is_byte in *.
  assert (A1 : 0 <= sc * coef1 <= 255 * coef1) by nia.
  assert (A2 : 0 <= dc * coef2 <= 255 * coef2) by nia.
  assert (Ht : 0 <= sc * coef1 + dc * coef2 <= 255 * (255 * 128)) by lia.
  change (Z.shiftl 128 PRECISION_BITS) with (128 * 128).
  rewrite (u32_id (sc * coef1)), (u32_id (dc * coef2)) by lia.
  rewrite (u32_id (sc * coef1 + dc * coef2)) by lia.
  rewrite u32_id by lia.
  pose proof (SHIFTFORDIV255_mono (sc * coef1 + dc * coef2 + 128 * 128)
                (255 * (255 * 128) + 128 * 128) ltac:(lia)) as [Hlo Hhi].
  change (SHIFTFORDIV255 (255 * (255 * 128) + 128 * 128)) with 32703 in Hhi.
  rewrite Z.shiftr_div_pow2 by (unfold PRECISION_BITS; lia).
  change (2 ^ PRECISION_BITS) with 128.
  assert (SHIFTFORDIV255 (sc * coef1 + dc * coef2 + 128 * 128) / 128 < 256)
    by (apply Z.div_lt_upper_bound; lia).
  assert (0 <= SHIFTFORDIV255 (sc * coef1 + dc * coef2 + 128 * 128) / 128 <= 255)
    by (split; [apply Z.div_pos|]; lia).
  split; [apply u8_id; exact H0|exact H0].
Qed.

(** On byte inputs [ImagingAlphaComposite] computes [alpha_composite_Z]. *)
Lemma alpha_composite_exact dst src :
  rgba_ok dst -> rgba_ok src ->
  alpha_composite_px dst src = alpha_composite_Z dst src /\
  rgba_ok (alpha_composite_Z dst src).
Proof.
  intros Hd Hs. unfold alpha_composite_px, alpha_composite_Z.
  destruct (Z.eqb_spec (alpha src) 0) as [E|E]; [split; [reflexivity|exact Hd]|].
  destruct dst as [dr dg db da], src as [sr sg sb sa].
  unfold rgba_ok in *; simpl in *. destruct Hd as (Hdr & Hdg & Hdb & Hda).
  destruct Hs as (Hsr & Hsg & Hsb & Hsa). unfold is_byte in *.
  set (outa := sa * 255 + da * (255 - sa)).
  assert (Ho : 255 <= sa * 255 /\ sa * 255 <= outa /\ outa <= 255 * 255) by (subst outa; nia).
  rewrite (u32_id (da * (255 - sa))) by nia.
  fold outa. rewrite (u32_id outa) by lia.
  change (Z.shiftl 1 PRECISION_BITS) with 128.
  rewrite i32_id, u32_id by nia.
  set (coef1 := sa * 255 * 255 * 128 / outa).
  assert (Hc : 0 <= coef1 <= 255 * 128).
  { subst coef1. split; [apply Z.div_pos; lia|].
    apply Z.div_le_upper_bound; nia. }
  rewrite u32_id by lia.
  destruct (channel_exact coef1 (255 * 128 - coef1) sr dr) as [-> Br]; try (unfold is_byte; lia).
  destruct (channel_exact coef1 (255 * 128 - coef1) sg dg) as [-> Bg]; try (unfold is_byte; lia).
  destruct (channel_exact coef1 (255 * 128 - coef1) sb db) as [-> Bb]; try (unfold is_byte; lia).
  pose proof (SHIFTFORDIV255_mono (outa + 128) (255 * 255 + 128) ltac:(lia)) as [Alo Ahi].
  change (SHIFTFORDIV255 (255 * 255 + 128)) with 255 in Ahi.
  rewrite u32_id, u8_id by (unfold is_byte; lia).
  split; [reflexivity|]. unfold is_byte. simpl. auto.
Qed.

(** A fully transparent source pixel leaves the destination as it is. *)
Lemma alpha_composite_transparent dst src :
  alpha src = 0 -> alpha_composite_px dst src = dst.
Proof. intros H. unfold alpha_composite_px. now rewrite H. Qed.

(** Black at alpha [a] over an opaque pixel: channel [c] becomes
    [(c * (255 - a) + 127) / 255] for the shadow's [a = 40]. *)
Definition darken40 (c : Z) : Z := (215 * c + 127) / 255.

(** One channel of the shadow's composite: [coef1 = 5120] and
    [coef2 = 27520] are the coefficients of source alpha 40 over an opaque
    destination; checked on every byte. *)
Lemma shadow_channel c : is_byte c ->
  composite_channel 5120 27520 0 c = darken40 c.
Proof.
  intros Hc. apply Z.eqb_eq.
  refine (forall_byte_spec (fun c => composite_channel 5120 27520 0 c =? darken40 c) _ c Hc).
  vm_compute. reflexivity.
Qed.

(** The shadow pixel [(0,0,0,40)] that [make_collage] composites over an
    opaque pixel scales each colour channel by 215/255 (rounded to
    nearest) and leaves it opaque. *)
Lemma shadow_over_opaque r g b :
  is_byte r -> is_byte g -> is_byte b ->
  alpha_composite_px (RGBA r g b 255) (RGBA 0 0 0 40) =
  RGBA (darken40 r) (darken40 g) (darken40 b) 255.
Proof.
  intros Hr Hg Hb. unfold alpha_composite_px. simpl alpha.
  change (40 =? 0) with false. cbv iota.
  change (u32 (i32 (40 * 255 * 255 * Z.shiftl 1 PRECISION_BITS)) /
          u32 (40 * 255 + u32 (255 * (255 - 40)))) with 5120.
  change (u32 (255 * Z.shiftl 1 PRECISION_BITS - 5120)) with 27520.
  simpl red; simpl green; simpl blue.
  rewrite !shadow_channel by assumption. reflexivity.
Qed.

(** One channel under an opaque source: [coef1 = 255 * 128], [coef2 = 0]. *)
Lemma opaque_channel s d : is_byte s -> composite_channel 32640 0 s d = s.
Proof.
  intros Hs. unfold composite_channel at 1. rewrite Z.mul_0_r.
  apply Z.eqb_eq.
  refine (forall_byte_spec (fun s => u8 (Z.shiftr (SHIFTFORDIV255 (u32 (u32 (u32 (s * 32640) + u32 0)
            + Z.shiftl 128 PRECISION_BITS))) PRECISION_BITS) =? s) _ s Hs).
  vm_compute. reflexivity.
Qed.

(** An opaque source pixel replaces the destination. *)
Lemma alpha_composite_opaque dst src :
  rgba_ok src -> alpha src = 255 -> alpha_composite_px dst src = src.
Proof.
  destruct src as [r g b a]. intros (Hr & Hg & Hb & _) Ha. simpl in *. subst a.
  unfold alpha_composite_px. simpl alpha. change (255 =? 0) with false. cbv iota.
  replace (alpha dst * (255 - 255)) with 0 by ring.
  change (u32 (i32 (255 * 255 * 255 * Z.shiftl 1 PRECISION_BITS)) / u32 (255 * 255 + u32 0))
    with 32640.
  change (u32 (255 * Z.shiftl 1 PRECISION_BITS - 32640)) with 0.
  change (u8 (SHIFTFORDIV255 (u32 (u32 (255 * 255 + u32 0) + 128)))) with 255.
  simpl red; simpl green; simpl blue. rewrite !opaque_channel by assumption. reflexivity.
Qed.

(** C23: on byte pixels the [int] and [UINT32] temporaries of
    [ImagingAlphaComposite] never wrap (the largest, [255*255*255*128], is
    below [2^31]) and every output channel fits its [UINT8]: the C code
    computes exactly the integer formula [alpha_composite_Z]; a fully
    transparent overlay pixel keeps the destination and a fully opaque one
    replaces it. *)
Theorem alpha_composite_px_exact dst src :
  rgba_ok dst -> rgba_ok src ->
  alpha_composite_px dst src = alpha_composite_Z dst src /\
  rgba_ok (alpha_composite_Z dst src) /\
  (alpha src = 0 -> alpha_composite_px dst src = dst) /\
  (alpha src = 255 -> alpha_composite_px dst src = src).
Proof.
  intros Hd Hs. destruct (alpha_composite_exact dst src Hd Hs) as [He Hok].
  split_and!; [exact He | exact Hok | apply alpha_composite_transparent |].
  intros Ha. apply alpha_composite_opaque; assumption.
Qed.

End Pixel.
