(* ===== verification/Raster.v ===== *)
(** * Images and the PIL operations [_prepare] and [make_collage] use

    A PIL image is a [raster]: a width, a height and a pixel function;
    only the pixels inside the bounds mean anything, so two rasters are
    equivalent ([≡]) when they have the same size and agree inside it.
    Every operation below respects [≡] ([Proper] instances), which lets the
    composition theorems rewrite with equivalent images.

    The operations are PIL's, as called by main.py:
    - [new]: [Image.new(mode, size, color)] (lines 65, 84);
    - [paint]: an [ImageDraw] primitive writing its ink on a set of pixels
      (ImageDraw on an "L" or "RGBA" image replaces the pixel);
    - [putalpha]: [Image.putalpha] (line 67), [ValueError] on a size mismatch;
    - [paste_masked]: [Image.paste(im, (x, y), mask=im)] on RGBA images
      (lines 79-80): every band is [BLEND]ed with the mask's alpha, clipped
      to the destination;
    - [alpha_composite_at]: [Image.alpha_composite(im, dest)] (line 88):
      the destination is cropped to the overlay's box, composited with
      [ImagingAlphaComposite], and pasted back (clipped);
    - [to_rgb]: [convert("RGB")] on an RGBA image drops the alpha band.

    The parts of PIL that are not re-implemented (decoding, PNG encoding,
    LANCZOS resampling, the pie-slice and arc rasterisers, Gaussian blur)
    form the [Pil] interface together with the laws the theorems use. *)

From Stdlib Require Import QArith.
From S2P Require Import Prelude Pixel.

Module Raster.
Import Pixel.

Local Open Scope Z_scope.

Record raster (A : Type) := mk_raster { width : Z; height : Z; px : Z -> Z -> A }.
Arguments mk_raster {A} _ _ _.
Arguments width {A} _.
Arguments height {A} _.
Arguments px {A} _ _ _.

Definition in_bounds {A} (im : raster A) (x y : Z) : bool :=
  (0 <=? x) && (x <? width im) && (0 <=? y) && (y <? height im).

Definition raster_eq {A} (i1 i2 : raster A) : Prop :=
  width i1 = width i2 /\ height i1 = height i2 /\
  forall x y, in_bounds i1 x y = true -> px i1 x y = px i2 x y.

#[export] Instance raster_equiv {A} : Equiv (raster A) := raster_eq.

#[export] Instance raster_equivalence {A} : Equivalence (≡@{raster A}).
Proof.
  split.
  - intros i. split_and!; auto.
  - intros i j (Hw & Hh & Hp). split_and!; auto. intros x y Hb. symmetry. apply Hp.
    unfold in_bounds in *. rewrite Hw, Hh. exact Hb.
  - intros i j k (Hw & Hh & Hp) (Hw' & Hh' & Hp'). split_and!; try congruence.
    intros x y Hb. rewrite Hp by exact Hb. apply Hp'.
    unfold in_bounds in *. rewrite <- Hw, <- Hh. exact Hb.
Qed.

(** [Image.new(mode, (w, h), color)] *)
Definition new {A} (w h : Z) (c : A) : raster A := mk_raster w h (fun _ _ => c).

(** An [ImageDraw] primitive: ink written on the pixels of [S]. *)
Definition paint {A} (im : raster A) (S : Z -> Z -> bool) (ink : A) : raster A :=
  mk_raster (width im) (height im) (fun x y => if S x y then ink else px im x y).

(** [img.putalpha(mask)] for an RGBA image and an "L" mask. *)
Definition putalpha (im : raster rgba) (mask : raster Z) : res (raster rgba) :=
  if (width im =? width mask) && (height im =? height mask) then
    Ok (mk_raster (width im) (height im)
          (fun x y => let p := px im x y in RGBA (red p) (green p) (blue p) (px mask x y)))
  else Err (ValueError "images do not match").

(** [dst.paste(src, (dx, dy), mask=src)], RGBA onto RGBA. *)
Definition paste_px (d s : rgba) : rgba :=
  let m := alpha s in
  RGBA (BLEND m (red d) (red s)) (BLEND m (green d) (green s))
       (BLEND m (blue d) (blue s)) (BLEND m (alpha d) (alpha s)).

Definition paste_masked (dst src : raster rgba) (dx dy : Z) : raster rgba :=
  mk_raster (width dst) (height dst) (fun x y =>
    if in_bounds src (x - dx) (y - dy) then paste_px (px dst x y) (px src (x - dx) (y - dy))
    else px dst x y).

(** [dst.alpha_composite(src, (dx, dy))] *)
Definition alpha_composite_at (dst src : raster rgba) (dx dy : Z) : raster rgba :=
  mk_raster (width dst) (height dst) (fun x y =>
    if in_bounds src (x - dx) (y - dy)
    then alpha_composite_px (px dst x y) (px src (x - dx) (y - dy))
    else px dst x y).

(** [im.convert("RGB")] from RGBA. *)
Definition to_rgb (im : raster rgba) : raster rgb :=
  mk_raster (width im) (height im)
    (fun x y => let p := px im x y in RGB (red p) (green p) (blue p)).

(** Pixels in range: every channel is a byte. *)
Definition raster_ok (im : raster rgba) : Prop :=
  forall x y, in_bounds im x y = true -> rgba_ok (px im x y).

(** ** Equivalent inputs give equivalent outputs *)

(** Results of fallible operations: the same exception, or equivalent values. *)
#[export] Instance res_equiv {A} `{Equiv A} : Equiv (res A) := fun r1 r2 =>
  match r1, r2 with
  | Ok a, Ok b => a ≡ b
  | Err e1, Err e2 => e1 = e2
  | _, _ => False
  end.

Lemma in_bounds_equiv {A B} (i1 : raster A) (i2 : raster B) x y :
  width i1 = width i2 -> height i1 = height i2 -> in_bounds i1 x y = in_bounds i2 x y.
Proof. intros Hw Hh. unfold in_bounds. now rewrite Hw, Hh. Qed.

Ltac raster_eq_intro :=
  let x := fresh "x" in let y := fresh "y" in let Hb := fresh "Hb" in
  split_and!; [simpl; congruence | simpl; congruence | intros x y Hb; simpl in Hb |- *].

#[export] Instance paint_proper {A} : Proper ((≡) ==> eq ==> eq ==> (≡)) (@paint A).
Proof.
  intros i1 i2 (Hw & Hh & Hp) S ? <- c ? <-. raster_eq_intro.
  destruct (S x y); [reflexivity|]. apply Hp. exact Hb.
Qed.

#[export] Instance paste_masked_proper :
  Proper ((≡) ==> (≡) ==> eq ==> eq ==> (≡)) paste_masked.
Proof.
  intros d1 d2 (Hw & Hh & Hp) s1 s2 (Sw & Sh & Sp) dx ? <- dy ? <-. raster_eq_intro.
  rewrite <- (in_bounds_equiv s1 s2) by assumption.
  destruct (in_bounds s1 (x - dx) (y - dy)) eqn:Hs; [|apply Hp; exact Hb].
  rewrite Hp, Sp by assumption. reflexivity.
Qed.

#[export] Instance alpha_composite_at_proper :
  Proper ((≡) ==> (≡) ==> eq ==> eq ==> (≡)) alpha_composite_at.
Proof.
  intros d1 d2 (Hw & Hh & Hp) s1 s2 (Sw & Sh & Sp) dx ? <- dy ? <-. raster_eq_intro.
  rewrite <- (in_bounds_equiv s1 s2) by assumption.
  destruct (in_bounds s1 (x - dx) (y - dy)) eqn:Hs; [|apply Hp; exact Hb].
  rewrite Hp, Sp by assumption. reflexivity.
Qed.

#[export] Instance to_rgb_proper : Proper ((≡) ==> (≡)) to_rgb.
Proof.
  intros i1 i2 (Hw & Hh & Hp). raster_eq_intro. rewrite Hp by exact Hb. reflexivity.
Qed.

#[export] Instance putalpha_proper : Proper ((≡) ==> (≡) ==> (≡)) putalpha.
Proof.
  intros i1 i2 (Hw & Hh & Hp) m1 m2 (Mw & Mh & Mp). unfold putalpha.
  rewrite Hw, Hh, Mw, Mh.
  destruct ((width i2 =? width m2) && (height i2 =? height m2)) eqn:E; [|reflexivity].
  apply andb_true_iff in E as [E1 E2]. apply Z.eqb_eq in E1, E2.
  raster_eq_intro. rewrite Hp, Mp by (unfold in_bounds in *; simpl in *; congruence). reflexivity.
Qed.

(** ** The parts of PIL used as given, and what the proofs assume of them *)

Class Pil := {
  (** [Image.open(io.BytesIO(b)).convert("RGBA")] *)
  open_bytes : bytes -> res (raster rgba);
  (** [Image.open(path).convert("RGBA")] *)
  open_path : string -> res (raster rgba);
  (** [im.save(buf, "PNG"); buf.getvalue()] *)
  save_png : raster rgb -> bytes;
  (** [im.resize((w, h), Image.LANCZOS, box=box)] *)
  resize_box : raster rgba -> Z -> Z -> Q * Q * Q * Q -> raster rgba;
  (** pixels written by [draw.draw_pieslice(bbox, start, end, ...)], by
      [draw.draw_arc(bbox, start, end, ..., width)] and by [draw_ellipse] *)
  pieslice : Z -> Z -> Z -> Z -> Z -> Z -> Z -> Z -> bool;
  arc : Z -> Z -> Z -> Z -> Z -> Z -> Z -> Z -> Z -> bool;
  ellipse : Z -> Z -> Z -> Z -> Z -> Z -> bool;
  (** [im.filter(ImageFilter.GaussianBlur(radius))] and how far one
      output pixel looks *)
  gaussian_blur : Z -> raster rgba -> raster rgba;
  blur_reach : Z -> Z;

  open_bytes_ok b im : open_bytes b = Ok im -> 0 < width im /\ 0 < height im /\ raster_ok im;
  open_path_ok p im : open_path p = Ok im -> raster_ok im;
  resize_box_size im w h box : width (resize_box im w h box) = w /\ height (resize_box im w h box) = h;
  resize_box_ok im w h box : raster_ok im -> raster_ok (resize_box im w h box);
  pieslice_in_box x0 y0 x1 y1 s e x y :
    pieslice x0 y0 x1 y1 s e x y = true -> x0 <= x <= x1 /\ y0 <= y <= y1;
  arc_in_box x0 y0 x1 y1 s e wd x y :
    arc x0 y0 x1 y1 s e wd x y = true -> x0 <= x <= x1 /\ y0 <= y <= y1;
  ellipse_in_box x0 y0 x1 y1 x y :
    ellipse x0 y0 x1 y1 x y = true -> x0 <= x <= x1 /\ y0 <= y <= y1;
  blur_size rad im : width (gaussian_blur rad im) = width im /\ height (gaussian_blur rad im) = height im;
  (** a pixel whose neighbourhood (within the image) is of one colour
      keeps that colour: PIL's blur is a normalised average with the edge
      pixels repeated *)
  blur_const rad im x y c :
    in_bounds im x y = true ->
    (forall x' y', in_bounds im x' y' = true -> Z.abs (x' - x) <= blur_reach rad ->
       Z.abs (y' - y) <= blur_reach rad -> px im x' y' = c) ->
    px (gaussian_blur rad im) x y = c;
  blur_proper rad : Proper ((≡) ==> (≡)) (gaussian_blur rad);
  (** a blurred pixel is a weighted average: its channels stay bytes *)
  blur_ok rad im : raster_ok im -> raster_ok (gaussian_blur rad im);
  (** the encoder reads the image's size and the pixels inside it *)
  save_png_proper : Proper ((≡) ==> eq) save_png
}.

(** ** [paste] with the image as its own mask, one pixel at a time *)

(** The rounded convex combination [BLEND] computes on bytes. *)
Definition mix (m x y : Z) : Z := (x * (255 - m) + y * m + 127) / 255.

Lemma paste_px_mix d s : rgba_ok d -> rgba_ok s ->
  paste_px d s = RGBA (mix (alpha s) (red d) (red s)) (mix (alpha s) (green d) (green s))
                      (mix (alpha s) (blue d) (blue s)) (mix (alpha s) (alpha d) (alpha s)) /\
  rgba_ok (paste_px d s).
Proof.
  intros (Dr & Dg & Db & Da) (Sr & Sg & Sb & Sa). unfold paste_px, rgba_ok, mix.
  destruct (BLEND_byte (alpha s) (red d) (red s)) as [-> ?]; try assumption.
  destruct (BLEND_byte (alpha s) (green d) (green s)) as [-> ?]; try assumption.
  destruct (BLEND_byte (alpha s) (blue d) (blue s)) as [-> ?]; try assumption.
  destruct (BLEND_byte (alpha s) (alpha d) (alpha s)) as [-> ?]; try assumption.
  simpl. auto.
Qed.

(** An opaque source pixel replaces the destination. *)
Lemma paste_px_opaque d s : rgba_ok d -> rgba_ok s -> alpha s = 255 -> paste_px d s = s.
Proof.
  intros (Dr & Dg & Db & Da) (Sr & Sg & Sb & Sa) Hs. unfold paste_px.
  rewrite Hs, !BLEND_255 by (assumption || byte_lia).
  destruct s; simpl in *; congruence.
Qed.

(** A transparent source pixel keeps the destination. *)
Lemma paste_px_clear d s : rgba_ok d -> rgba_ok s -> alpha s = 0 -> paste_px d s = d.
Proof.
  intros (Dr & Dg & Db & Da) (Sr & Sg & Sb & Sa) Hs. unfold paste_px.
  rewrite Hs, !BLEND_0 by (assumption || byte_lia). destruct d; reflexivity.
Qed.

(** ** Operations keep pixels in range and opaque images opaque *)

Definition opaque (im : raster rgba) : Prop :=
  forall x y, in_bounds im x y = true -> alpha (px im x y) = 255.

Lemma raster_ok_new w h c : rgba_ok c -> raster_ok (new w h c).
Proof. intros Hc x y _. exact Hc. Qed.

Lemma raster_ok_paint im S c : raster_ok im -> rgba_ok c -> raster_ok (paint im S c).
Proof. intros Hi Hc x y Hb. simpl. destruct (S x y); [exact Hc | apply Hi, Hb]. Qed.

Lemma raster_ok_paste dst src dx dy :
  raster_ok dst -> raster_ok src -> raster_ok (paste_masked dst src dx dy).
Proof.
  intros Hd Hs x y Hb. simpl. destruct (in_bounds src _ _) eqn:E; [|apply Hd, Hb].
  apply paste_px_mix; [apply Hd, Hb | apply Hs, E].
Qed.

Lemma raster_ok_composite dst src dx dy :
  raster_ok dst -> raster_ok src -> raster_ok (alpha_composite_at dst src dx dy).
Proof.
  intros Hd Hs x y Hb. simpl. destruct (in_bounds src _ _) eqn:E; [|apply Hd, Hb].
  destruct (alpha_composite_exact (px dst x y) _ (Hd x y Hb) (Hs _ _ E)) as [-> Hok]. exact Hok.
Qed.

Lemma opaque_paint im S c : opaque im -> alpha c = 255 -> opaque (paint im S c).
Proof. intros Hi Hc x y Hb. simpl. destruct (S x y); [exact Hc | apply Hi, Hb]. Qed.

(** An overlay composited over an opaque pixel leaves it opaque. *)
Lemma composite_over_opaque d s :
  rgba_ok s -> alpha d = 255 -> alpha (alpha_composite_px d s) = 255.
Proof.
  intros (_ & _ & _ & Hs) Hd. unfold alpha_composite_px.
  destruct (alpha s =? 0); [exact Hd|]. simpl. rewrite Hd. unfold is_byte in Hs.
  rewrite (u32_id (255 * (255 - alpha s))) by lia.
  replace (alpha s * 255 + 255 * (255 - alpha s)) with 65025 by ring. reflexivity.
Qed.

Lemma opaque_composite dst src dx dy :
  opaque dst -> raster_ok src -> opaque (alpha_composite_at dst src dx dy).
Proof.
  intros Hd Hs x y Hb. simpl. destruct (in_bounds src _ _) eqn:E; [|apply Hd, Hb].
  apply composite_over_opaque; [apply Hs, E | apply Hd, Hb].
Qed.

(** A source whose alpha is all 0 or 255 (a mask) pasted over an opaque
    image leaves it opaque. *)
Lemma opaque_paste dst src dx dy :
  raster_ok dst -> opaque dst -> raster_ok src ->
  (forall x y, in_bounds src x y = true -> alpha (px src x y) = 0 \/ alpha (px src x y) = 255) ->
  opaque (paste_masked dst src dx dy).
Proof.
  intros Hd Ho Hs Hm x y Hb. simpl. destruct (in_bounds src _ _) eqn:E; [|apply Ho, Hb].
  destruct (Hm _ _ E) as [H0|H255].
  - rewrite paste_px_clear by (apply Hd, Hb || apply Hs, E || exact H0). apply Ho, Hb.
  - rewrite paste_px_opaque by (apply Hd, Hb || apply Hs, E || exact H255). exact H255.
Qed.

(** ** Pixel-local operations and their footprints *)

(** [f] keeps the size, changes no pixel outside its footprint [S], and
    computes each pixel of [S] from that pixel alone: [paint], [paste] and
    [alpha_composite] with a fixed source are such operations. *)
Record pointwise (f : raster rgba -> raster rgba) (S : Z -> Z -> bool) : Prop := {
  pw_width im : width (f im) = width im;
  pw_height im : height (f im) = height im;
  pw_frame im x y : S x y = false -> px (f im) x y = px im x y;
  pw_local im im' x y : px im x y = px im' x y -> px (f im) x y = px (f im') x y
}.

Lemma pointwise_paint S c : pointwise (fun im => paint im S c) S.
Proof.
  split; try reflexivity.
  - intros im x y HS. simpl. now rewrite HS.
  - intros im im' x y H. simpl. now rewrite H.
Qed.

Lemma pointwise_paste src dx dy :
  pointwise (fun im => paste_masked im src dx dy) (fun x y => in_bounds src (x - dx) (y - dy)).
Proof.
  split; try reflexivity.
  - intros im x y HS. simpl. now rewrite HS.
  - intros im im' x y H. simpl. now rewrite H.
Qed.

Lemma pointwise_composite src dx dy :
  pointwise (fun im => alpha_composite_at im src dx dy) (fun x y => in_bounds src (x - dx) (y - dy)).
Proof.
  split; try reflexivity.
  - intros im x y HS. simpl. now rewrite HS.
  - intros im im' x y H. simpl. now rewrite H.
Qed.

(** Running one pointwise operation after another is pointwise on the
    union of the footprints. *)
Lemma pointwise_seq f g S T :
  pointwise f S -> pointwise g T -> pointwise (fun im => g (f im)) (fun x y => S x y || T x y).
Proof.
  intros [Fw Fh Ff Fl] [Gw Gh Gf Gl]. split.
  - intros im. now rewrite Gw, Fw.
  - intros im. now rewrite Gh, Fh.
  - intros im x y [HS HT]%orb_false_iff. rewrite Gf, Ff by assumption. reflexivity.
  - intros im im' x y H. apply Gl, Fl, H.
Qed.

Lemma pointwise_mono f S T :
  pointwise f S -> (forall x y, S x y = true -> T x y = true) -> pointwise f T.
Proof.
  intros [Fw Fh Ff Fl] HST. split; try assumption.
  intros im x y HT. apply Ff. destruct (S x y) eqn:E; [|reflexivity].
  rewrite (HST x y E) in HT. discriminate.
Qed.

(** Two pointwise operations with disjoint footprints commute: both
    orders give the same size and the same pixel everywhere. *)
Lemma pointwise_commute f g S T im :
  pointwise f S -> pointwise g T -> (forall x y, S x y = true -> T x y = false) ->
  f (g im) ≡ g (f im).
Proof.
  intros [Fw Fh Ff Fl] [Gw Gh Gf Gl] Hdis. split_and!.
  - now rewrite Fw, Gw, Gw, Fw.
  - now rewrite Fh, Gh, Gh, Fh.
  - intros x y _. destruct (S x y) eqn:ES.
    + rewrite (Gf (f im) x y (Hdis x y ES)). apply Fl, Gf, Hdis, ES.
    + rewrite (Ff (g im) x y ES). symmetry. apply Gl, Ff, ES.
Qed.

(** C20: [template.paste(img, xy, mask=img)] (lines 79-80) on one pixel of
    byte channels: every band, alpha included, becomes the rounded convex
    combination of destination and source weighted by the source's alpha,
    again a byte; an opaque source pixel replaces the destination and a
    transparent one (the masked corners of a prepared photo) keeps it. *)
Theorem paste_px_exact d s : rgba_ok d -> rgba_ok s ->
  paste_px d s = RGBA (mix (alpha s) (red d) (red s)) (mix (alpha s) (green d) (green s))
                      (mix (alpha s) (blue d) (blue s)) (mix (alpha s) (alpha d) (alpha s)) /\
  rgba_ok (paste_px d s) /\
  (alpha s = 255 -> paste_px d s = s) /\ (alpha s = 0 -> paste_px d s = d).
Proof.
  intros Hd Hs. pose proof (paste_px_mix d s Hd Hs) as [Hm Hok].
  split_and!; [exact Hm | exact Hok | intros; apply paste_px_opaque; assumption
              | intros; apply paste_px_clear; assumption].
Qed.

End Raster.
