(* ===== verification/Draw.v ===== *)
(** * [ImageDraw.rounded_rectangle], as called at main.py lines 66, 83 and 86

    Pillow draws a rounded rectangle on the inclusive box [(x0,y0,x1,y1)]
    as four corner pieces (pie slices for a fill, arcs for an outline) in
    the [d×d] corner boxes, [d = 2*radius], plus straight rectangles:
    - fill: the middle band [x0+r+1 .. x1-r-1] over the full height, and
      the left and right bands [x0 .. x0+r], [x1-r .. x1] between the
      corners ([r = d // 2]);
    - outline of width [wd]: the top and bottom bands of height [wd]
      between the corners, the left and right bands of width [wd].
    When the corners meet ([d >= x1-x0-1], resp. in [y]) the corners join
    into half discs, and into an ellipse when they meet both ways; with
    [d = 0] the shape is a plain rectangle.  The pixels of pie slices, arcs
    and ellipses come from the [Pil] rasteriser; only their bounding boxes
    are used in the proofs.  All of PIL's rectangles include both end
    coordinates, which is why the box [(0, 0, w, h)] of line 66 covers
    [w+1] columns of a [w]-wide mask. *)

From S2P Require Import Prelude Pixel Raster.

Module Draw.
Import Pixel Raster.

Local Open Scope Z_scope.

(** [draw.draw_rectangle((x0, y0, x1, y1), ink, 1)]: both ends included. *)
Definition rect_in (x0 y0 x1 y1 x y : Z) : bool :=
  (x0 <=? x) && (x <=? x1) && (y0 <=? y) && (y <=? y1).

(** [full_x], [full_y] and the corner diameter [d] of [rounded_rectangle]. *)
Definition rr_geometry (x0 y0 x1 y1 radius : Z) : bool * bool * Z :=
  let d := radius * 2 in
  let full_x := x1 - x0 - 1 <=? d in
  let d := if full_x then x1 - x0 else d in
  let full_y := y1 - y0 - 1 <=? d in
  let d := if full_y then y1 - y0 else d in
  (full_x, full_y, d).

(** The [parts] of [draw_corners]: bounding box and angles. *)
Definition corner_parts (x0 y0 x1 y1 d : Z) (full_x full_y : bool)
    : list (Z * Z * Z * Z * Z * Z) :=
  if full_x then [(x0, y0, x0 + d, y0 + d, 180, 360); (x0, y1 - d, x0 + d, y1, 0, 180)]
  else if full_y then [(x0, y0, x0 + d, y0 + d, 90, 270); (x1 - d, y0, x1, y0 + d, 270, 90)]
  else [(x0, y0, x0 + d, y0 + d, 180, 270); (x1 - d, y0, x1, y0 + d, 270, 360);
        (x1 - d, y1 - d, x1, y1, 0, 90); (x0, y1 - d, x0 + d, y1, 90, 180)].

Section WithPil.
Context `{P : Pil}.

Definition in_pieslices (parts : list (Z * Z * Z * Z * Z * Z)) (x y : Z) : bool :=
  existsb (fun '(a, b, c, e, s, t) => pieslice a b c e s t x y) parts.

Definition in_arcs (parts : list (Z * Z * Z * Z * Z * Z)) (wd x y : Z) : bool :=
  existsb (fun '(a, b, c, e, s, t) => arc a b c e s t wd x y) parts.

(** The pixels [rounded_rectangle(xy, radius, fill=...)] writes. *)
Definition rounded_fill_set (x0 y0 x1 y1 radius : Z) (x y : Z) : bool :=
  let '(fx, fy, d) := rr_geometry x0 y0 x1 y1 radius in
  if fx && fy then ellipse x0 y0 x1 y1 x y
  else if d =? 0 then rect_in x0 y0 x1 y1 x y
  else
    let r := d / 2 in
    in_pieslices (corner_parts x0 y0 x1 y1 d fx fy) x y
    || (if fx then rect_in x0 (y0 + r + 1) x1 (y1 - r - 1) x y
        else if x0 + r + 1 <? x1 - r - 1 then rect_in (x0 + r + 1) y0 (x1 - r - 1) y1 x y
        else false)
    || (if negb fx && negb fy then
          rect_in x0 (y0 + r + 1) (x0 + r) (y1 - r - 1) x y
          || rect_in (x1 - r) (y0 + r + 1) x1 (y1 - r - 1) x y
        else false).

(** The pixels [rounded_rectangle(xy, radius, outline=..., width=wd)] writes. *)
Definition rounded_outline_set (x0 y0 x1 y1 radius wd : Z) (x y : Z) : bool :=
  let '(fx, fy, d) := rr_geometry x0 y0 x1 y1 radius in
  if fx && fy then arc x0 y0 x1 y1 0 360 wd x y
  else if d =? 0 then
    rect_in x0 y0 x1 y1 x y && negb (rect_in (x0 + wd) (y0 + wd) (x1 - wd) (y1 - wd) x y)
  else
    let r := d / 2 in
    in_arcs (corner_parts x0 y0 x1 y1 d fx fy) wd x y
    || (if negb fx then
          rect_in (x0 + r + 1) y0 (x1 - r - 1) (y0 + wd - 1) x y
          || rect_in (x0 + r + 1) (y1 - wd + 1) (x1 - r - 1) y1 x y
        else false)
    || (if negb fy then
          rect_in x0 (y0 + r + 1) (x0 + wd - 1) (y1 - r - 1) x y
          || rect_in (x1 - wd + 1) (y0 + r + 1) x1 (y1 - r - 1) x y
        else false).

(** The coordinate checks of [rounded_rectangle], then the drawing. *)
Definition rr_check (x0 y0 x1 y1 : Z) : res unit :=
  if x1 <? x0 then Err (ValueError "x1 must be greater than or equal to x0")
  else if y1 <? y0 then Err (ValueError "y1 must be greater than or equal to y0")
  else Ok tt.

Definition rounded_rectangle_fill {A} (im : raster A) (x0 y0 x1 y1 radius : Z) (ink : A)
    : res (raster A) :=
  let! _ := rr_check x0 y0 x1 y1 in
  Ok (paint im (rounded_fill_set x0 y0 x1 y1 radius) ink).

Definition rounded_rectangle_outline {A} (im : raster A) (x0 y0 x1 y1 radius wd : Z) (ink : A)
    : res (raster A) :=
  let! _ := rr_check x0 y0 x1 y1 in
  Ok (paint im (rounded_outline_set x0 y0 x1 y1 radius wd) ink).

(** The corner boxes of [parts]: where a pie slice or arc can write. *)
Definition corner_boxes (parts : list (Z * Z * Z * Z * Z * Z)) (x y : Z) : bool :=
  existsb (fun '(a, b, c, e, _, _) => rect_in a b c e x y) parts.

(** A box whose corners do not meet, with room for the middle band: the
    case of every rounded rectangle main.py draws. *)
Definition regular_box (x0 y0 x1 y1 radius : Z) : Prop :=
  0 < radius /\ 2 * radius + 2 < x1 - x0 /\ 2 * radius + 2 < y1 - y0.

Lemma rect_in_iff x0 y0 x1 y1 x y :
  rect_in x0 y0 x1 y1 x y = true <-> x0 <= x <= x1 /\ y0 <= y <= y1.
Proof. unfold rect_in. zbool. split; intros; lia. Qed.

Lemma in_parts_corner (f : Z -> Z -> Z -> Z -> Z -> Z -> Z -> Z -> bool) parts x y :
  (forall a b c e s t, f a b c e s t x y = true -> a <= x <= c /\ b <= y <= e) ->
  existsb (fun '(a, b, c, e, s, t) => f a b c e s t x y) parts = true ->
  corner_boxes parts x y = true.
Proof.
  intros Hf. induction parts as [|[[[[[a b] c] e] s] t] parts IH]; simpl; [discriminate|].
  rewrite !orb_true_iff. intros [H|H]; [left | right; auto].
  apply rect_in_iff. exact (Hf _ _ _ _ _ _ H).
Qed.

Lemma pieslices_corner parts x y :
  in_pieslices parts x y = true -> corner_boxes parts x y = true.
Proof. apply in_parts_corner. intros. eapply pieslice_in_box; eauto. Qed.

Lemma arcs_corner parts wd x y :
  in_arcs parts wd x y = true -> corner_boxes parts x y = true.
Proof.
  apply (in_parts_corner (fun a b c e s t => arc a b c e s t wd)).
  intros. eapply arc_in_box; eauto.
Qed.

Lemma four_corners x0 y0 x1 y1 d x y :
  corner_boxes (corner_parts x0 y0 x1 y1 d false false) x y = true ->
  (x0 <= x <= x0 + d \/ x1 - d <= x <= x1) /\ (y0 <= y <= y0 + d \/ y1 - d <= y <= y1).
Proof. unfold corner_boxes, corner_parts, rect_in. simpl. zbool. lia. Qed.

Lemma rr_geometry_regular x0 y0 x1 y1 radius :
  regular_box x0 y0 x1 y1 radius -> rr_geometry x0 y0 x1 y1 radius = (false, false, radius * 2).
Proof.
  intros (H0 & H1 & H2). unfold rr_geometry.
  replace (x1 - x0 - 1 <=? radius * 2) with false by (symmetry; apply Z.leb_gt; lia).
  replace (y1 - y0 - 1 <=? radius * 2) with false by (symmetry; apply Z.leb_gt; lia).
  reflexivity.
Qed.

Lemma rr_check_ok x0 y0 x1 y1 : x0 <= x1 -> y0 <= y1 -> rr_check x0 y0 x1 y1 = Ok tt.
Proof. intros. unfold rr_check. replace (x1 <? x0) with false by (symmetry; zbool; lia).
  replace (y1 <? y0) with false by (symmetry; zbool; lia). reflexivity. Qed.

Section Regular.
Variables x0 y0 x1 y1 radius : Z.
Hypothesis Hreg : regular_box x0 y0 x1 y1 radius.

Lemma fill_regular x y :
  rounded_fill_set x0 y0 x1 y1 radius x y =
  in_pieslices (corner_parts x0 y0 x1 y1 (radius * 2) false false) x y
  || rect_in (x0 + radius + 1) y0 (x1 - radius - 1) y1 x y
  || (rect_in x0 (y0 + radius + 1) (x0 + radius) (y1 - radius - 1) x y
      || rect_in (x1 - radius) (y0 + radius + 1) x1 (y1 - radius - 1) x y).
Proof.
  destruct Hreg as (H0 & H1 & H2).
  unfold rounded_fill_set. rewrite rr_geometry_regular by exact Hreg. simpl.
  replace (radius * 2 =? 0) with false by (symmetry; apply Z.eqb_neq; lia).
  rewrite Z.div_mul by lia.
  replace (x0 + radius + 1 <? x1 - radius - 1) with true by (symmetry; apply Z.ltb_lt; lia).
  reflexivity.
Qed.

Lemma outline_regular wd x y :
  rounded_outline_set x0 y0 x1 y1 radius wd x y =
  in_arcs (corner_parts x0 y0 x1 y1 (radius * 2) false false) wd x y
  || (rect_in (x0 + radius + 1) y0 (x1 - radius - 1) (y0 + wd - 1) x y
      || rect_in (x0 + radius + 1) (y1 - wd + 1) (x1 - radius - 1) y1 x y)
  || (rect_in x0 (y0 + radius + 1) (x0 + wd - 1) (y1 - radius - 1) x y
      || rect_in (x1 - wd + 1) (y0 + radius + 1) x1 (y1 - radius - 1) x y).
Proof.
  destruct Hreg as (H0 & H1 & H2).
  unfold rounded_outline_set. rewrite rr_geometry_regular by exact Hreg. simpl.
  replace (radius * 2 =? 0) with false by (symmetry; apply Z.eqb_neq; lia).
  rewrite Z.div_mul by lia. reflexivity.
Qed.

(** The filled rounded rectangle covers the cross made of its middle
    band and its side bands, and nothing outside its box. *)
Lemma rounded_fill_shape x y :
  (((x0 + radius + 1 <= x <= x1 - radius - 1 /\ y0 <= y <= y1) \/
    (x0 <= x <= x1 /\ y0 + radius + 1 <= y <= y1 - radius - 1)) ->
   rounded_fill_set x0 y0 x1 y1 radius x y = true) /\
  (rounded_fill_set x0 y0 x1 y1 radius x y = true -> x0 <= x <= x1 /\ y0 <= y <= y1).
Proof.
  pose proof Hreg as (H0 & H1 & H2). rewrite fill_regular. split.
  - intros Hx. destruct (in_pieslices _ x y); [reflexivity|]. unfold rect_in. zbool. lia.
  - zbool. intros [[Hc|Hc]|Hc].
    + apply pieslices_corner, four_corners in Hc. lia.
    + apply rect_in_iff in Hc. lia.
    + rewrite !rect_in_iff in Hc. lia.
Qed.

(** The outline of width [wd] covers its four straight bands, and every
    pixel it writes lies in its box, within [wd] of the box's edge or in
    one of the [2r × 2r] corner boxes (for a width up to the radius). *)
Lemma rounded_outline_shape wd x y :
  0 < wd <= radius ->
  (((x0 + radius + 1 <= x <= x1 - radius - 1) /\
      (y0 <= y <= y0 + wd - 1 \/ y1 - wd + 1 <= y <= y1) \/
    (y0 + radius + 1 <= y <= y1 - radius - 1) /\
      (x0 <= x <= x0 + wd - 1 \/ x1 - wd + 1 <= x <= x1)) ->
   rounded_outline_set x0 y0 x1 y1 radius wd x y = true) /\
  (rounded_outline_set x0 y0 x1 y1 radius wd x y = true ->
   x0 <= x <= x1 /\ y0 <= y <= y1 /\
   (x < x0 + wd \/ x1 - wd < x \/ y < y0 + wd \/ y1 - wd < y \/
    ((x <= x0 + 2 * radius \/ x1 - 2 * radius <= x) /\
     (y <= y0 + 2 * radius \/ y1 - 2 * radius <= y)))).
Proof.
  intros Hwd. pose proof Hreg as (H0 & H1 & H2). rewrite outline_regular. split.
  - intros Hx. destruct (in_arcs _ wd x y); [reflexivity|]. unfold rect_in. zbool. lia.
  - zbool. intros [[Hc|Hc]|Hc].
    + apply arcs_corner, four_corners in Hc. lia.
    + rewrite !rect_in_iff in Hc. lia.
    + rewrite !rect_in_iff in Hc. lia.
Qed.

End Regular.

End WithPil.

End Draw.
