(* ===== verification/Prepare.v ===== *)
(** * [_prepare] (main.py lines 62-68) and the [ImageOps.fit] it calls

    [_prepare(img_bytes, w, h)] decodes the photo as RGBA, fits it to
    [w × h] with [ImageOps.fit] (crop to the target's aspect ratio, centred,
    then LANCZOS resize), draws a filled rounded rectangle of radius
    [CORNER_RAD] on a black "L" mask and puts the mask in the alpha band.

    [ImageOps.fit] is modelled from Pillow's [ImageOps.py] at the
    arguments line 64 passes ([bleed = 0.0], [centering = (0.5, 0.5)]).
    Its arithmetic is Python [float]; it is modelled with exact rationals
    [Q], so the crop box here is the real-number box that the float code
    rounds (a difference in the last bits of the box's coordinates, which
    the resampler reads as weights).  [resize] keeps the checks that
    [Image.resize] and [ImagingResample] make before resampling. *)

From Stdlib Require Import QArith Lqa.
From S2P Require Import Prelude Pixel Raster Draw.

Module Prepare.
Import Pixel Raster Draw.

Local Open Scope Z_scope.

(** [CORNER_RAD] (line 43). *)
Definition CORNER_RAD : Z := 12.

(** The crop box of [ImageOps.fit(image, (w, h), method)] for an image of
    size [W × H]. *)
Definition fit_box (W H w h : Z) : res (Q * Q * Q * Q) :=
  let live0 := inject_Z W in
  let live1 := inject_Z H in
  if Qeq_bool live1 0 then raise! (ZeroDivisionError "float division by zero") else
  let live_size_ratio := (live0 / live1)%Q in
  if h =? 0 then raise! (ZeroDivisionError "division by zero") else
  let output_ratio := (inject_Z w / inject_Z h)%Q in
  let! crop :=
    if Qeq_bool live_size_ratio output_ratio then Ok (live0, live1)
    else if Qle_bool output_ratio live_size_ratio then Ok ((output_ratio * live1)%Q, live1)
    else if Qeq_bool output_ratio 0 then raise! (ZeroDivisionError "float division by zero")
    else Ok (live0, (live0 / output_ratio)%Q) in
  let '(crop_width, crop_height) := crop in
  let crop_left := ((live0 - crop_width) * (1 # 2))%Q in
  let crop_top := ((live1 - crop_height) * (1 # 2))%Q in
  Ok (crop_left, crop_top, (crop_left + crop_width)%Q, (crop_top + crop_height)%Q).

Section WithPil.
Context `{P : Pil}.

(** [image.resize(size, method, box=crop)]: [Image.resize]'s shortcut for
    the identity resize and [ImagingResample]'s checks, then resampling. *)
Definition resize (im : raster rgba) (w h : Z) (box : Q * Q * Q * Q) : res (raster rgba) :=
  let '(b0, b1, b2, b3) := box in
  if (width im =? w) && (height im =? h) && Qeq_bool b0 0 && Qeq_bool b1 0 &&
     Qeq_bool b2 (inject_Z w) && Qeq_bool b3 (inject_Z h) then Ok im
  else if (w <? 1) || (h <? 1) then raise! (ValueError "height and width must be > 0")
  else if negb (Qle_bool 0 b0) || negb (Qle_bool 0 b1) then
    raise! (ValueError "box offset can't be negative")
  else if negb (Qle_bool b2 (inject_Z (width im))) || negb (Qle_bool b3 (inject_Z (height im))) then
    raise! (ValueError "box can't exceed original image size")
  else if negb (Qle_bool b0 b2) || negb (Qle_bool b1 b3) then
    raise! (ValueError "box can't be empty")
  else Ok (resize_box im w h box).

(** [ImageOps.fit(img, (w, h), Image.LANCZOS)] (line 64). *)
Definition fit (image : raster rgba) (w h : Z) : res (raster rgba) :=
  let! crop := fit_box (width image) (height image) w h in
  resize image w h crop.

(** [_prepare] (lines 62-68). *)
Definition _prepare (img_bytes : bytes) (w h : Z) : res (raster rgba) :=
  let! img := open_bytes img_bytes in
  let! img := fit img w h in
  let mask := new w h 0 in
  let! mask := rounded_rectangle_fill mask 0 0 w h CORNER_RAD 255 in
  putalpha img mask.

End WithPil.

(** ** Rational arithmetic of the crop box *)

Section QFacts.
Local Open Scope Q_scope.

Lemma Qdiv_mul_cancel a c : ~ c == 0 -> a / c * c == a.
Proof. intros Hc. field. exact Hc. Qed.

Lemma Qle_div_iff a b c : 0 < c -> (a <= b / c <-> a * c <= b).
Proof.
  intros Hc. rewrite <- (Qmult_le_r a (b / c) c Hc).
  rewrite Qdiv_mul_cancel by (intro E; rewrite E in Hc; discriminate). reflexivity.
Qed.

Lemma Qdiv_lt_iff a b c : 0 < c -> (a / c < b <-> a < b * c).
Proof.
  intros Hc. rewrite <- (Qmult_lt_r (a / c) b c Hc).
  rewrite Qdiv_mul_cancel by (intro E; rewrite E in Hc; discriminate). reflexivity.
Qed.

Lemma Qlt_div_iff a b c : 0 < c -> (a < b / c <-> a * c < b).
Proof.
  intros Hc. rewrite <- (Qmult_lt_r a (b / c) c Hc).
  rewrite Qdiv_mul_cancel by (intro E; rewrite E in Hc; discriminate). reflexivity.
Qed.

Lemma Qdiv_inject a p : inject_Z a / inject_Z (Zpos p) == a # p.
Proof. unfold Qeq; simpl. lia. Qed.

(** Comparing two aspect ratios is comparing cross products. *)
Lemma ratio_le a b c d :
  (0 < b)%Z -> (0 < d)%Z -> (inject_Z a / inject_Z b <= inject_Z c / inject_Z d <-> (a * d <= c * b)%Z).
Proof. destruct b, d; try lia. intros _ _. rewrite !Qdiv_inject. reflexivity. Qed.

Lemma ratio_lt a b c d :
  (0 < b)%Z -> (0 < d)%Z -> (inject_Z a / inject_Z b < inject_Z c / inject_Z d <-> (a * d < c * b)%Z).
Proof. destruct b, d; try lia. intros _ _. rewrite !Qdiv_inject. reflexivity. Qed.

Lemma inject_Z_pos z : (0 < z)%Z -> 0 < inject_Z z.
Proof. intros. unfold Qlt; simpl. lia. Qed.

Lemma inject_Z_nz z : (0 < z)%Z -> ~ inject_Z z == 0.
Proof. intros Hz E. unfold Qeq in E; simpl in E. lia. Qed.

Lemma Qeq_bool_false a b : ~ a == b -> Qeq_bool a b = false.
Proof.
  intros H. destruct (Qeq_bool a b) eqn:E; [|reflexivity].
  apply Qeq_bool_iff in E. contradiction.
Qed.

Lemma Qle_bool_t a b : a <= b -> Qle_bool a b = true.
Proof. apply Qle_bool_iff. Qed.

End QFacts.

(** The crop box of [ImageOps.fit] for positive sizes. *)
Lemma fit_box_props W H w h :
  0 < W -> 0 < H -> 0 < w -> 0 < h ->
  exists l t r b, fit_box W H w h = Ok (l, t, r, b) /\
    (0 <= l /\ r <= inject_Z W /\ 0 <= t /\ b <= inject_Z H)%Q /\
    (0 < r - l /\ 0 < b - t)%Q /\
    ((r - l) * inject_Z h == (b - t) * inject_Z w)%Q /\
    (r - l == inject_Z W \/ b - t == inject_Z H)%Q /\
    (l == inject_Z W - r /\ t == inject_Z H - b)%Q.
Proof.
  intros HW HH Hw Hh.
  pose proof (inject_Z_pos W HW) as QW. pose proof (inject_Z_pos H HH) as QH.
  pose proof (inject_Z_pos w Hw) as Qw. pose proof (inject_Z_pos h Hh) as Qh.
  assert (Hrho : (0 < inject_Z w / inject_Z h)%Q) by (apply Qlt_shift_div_l; lra).
  unfold fit_box. rewrite Qeq_bool_false by (apply inject_Z_nz; exact HH).
  replace (h =? 0) with false by (symmetry; apply Z.eqb_neq; lia).
  set (rho := (inject_Z w / inject_Z h)%Q) in *. set (R := (inject_Z W / inject_Z H)%Q).
  destruct (Qeq_bool R rho) eqn:E1; [|destruct (Qle_bool rho R) eqn:E2;
    [|rewrite Qeq_bool_false by (intro E; rewrite E in Hrho; discriminate)]];
  cbn [res_bind]; do 4 eexists; (split; [reflexivity|]).
  - apply Qeq_bool_iff in E1.
    assert (Hx : (inject_Z W * inject_Z h == inject_Z H * inject_Z w)%Q).
    { rewrite <- (Qdiv_mul_cancel (inject_Z W) (inject_Z H)) by (apply inject_Z_nz; lia).
      rewrite <- (Qdiv_mul_cancel (inject_Z w) (inject_Z h)) by (apply inject_Z_nz; lia).
      fold R rho. rewrite E1. ring. }
    repeat split; lra.
  - apply Qle_bool_iff in E2. apply (Qle_div_iff rho (inject_Z W) (inject_Z H) QH) in E2.
    pose proof (Qmult_lt_0_compat rho (inject_Z H) Hrho QH).
    repeat split; try lra. unfold rho. field. apply inject_Z_nz; lia.
  - assert (E3 : (R < rho)%Q)
      by (apply Qnot_le_lt; intro E; apply Qle_bool_iff in E; congruence).
    apply (Qdiv_lt_iff (inject_Z W) rho (inject_Z H) QH) in E3.
    assert (E4 : (inject_Z W / rho < inject_Z H)%Q) by (apply Qdiv_lt_iff; [exact Hrho | lra]).
    assert (E5 : (0 < inject_Z W / rho)%Q) by (apply Qlt_shift_div_l; lra).
    repeat split; try lra. unfold rho. field. split; apply inject_Z_nz; lia.
Qed.

(** C21: which side [ImageOps.fit] keeps.  For positive sizes, an image
    at least as wide, relatively, as the target ([w/h <= W/H]) keeps its
    whole height, one at most as wide keeps its whole width, and one
    strictly wider has its width cropped.  So the side that is cropped is
    chosen by the aspect ratios, not by which side is shorter: a portrait
    ([W < H]) that is relatively wider than the [364 × 380] slot loses
    part of its shorter side. *)
Theorem fit_kept_side W H w h l t r b :
  0 < W -> 0 < H -> 0 < w -> 0 < h -> fit_box W H w h = Ok (l, t, r, b) ->
  ((w * H <= W * h)%Z -> t == 0 /\ b == inject_Z H)%Q /\
  ((W * h <= w * H)%Z -> l == 0 /\ r == inject_Z W)%Q /\
  ((w * H < W * h)%Z -> r - l < inject_Z W)%Q.
Proof.
  intros HW HH Hw Hh Hfit.
  pose proof (inject_Z_pos H HH) as QH. pose proof (inject_Z_pos h Hh) as Qh.
  pose proof (inject_Z_pos w Hw) as Qw.
  assert (Hrho : (0 < inject_Z w / inject_Z h)%Q) by (apply Qlt_shift_div_l; lra).
  unfold fit_box in Hfit. rewrite Qeq_bool_false in Hfit by (apply inject_Z_nz; exact HH).
  replace (h =? 0) with false in Hfit by (symmetry; apply Z.eqb_neq; lia).
  rewrite <- (ratio_le w h W H), <- (ratio_le W H w h), <- (ratio_lt w h W H) by lia.
  set (rho := (inject_Z w / inject_Z h)%Q) in *. set (R := (inject_Z W / inject_Z H)%Q) in *.
  destruct (Qeq_bool R rho) eqn:E1; [apply Qeq_bool_iff in E1|
    assert (E1' : ~ (R == rho)%Q) by (intro E; apply Qeq_bool_iff in E; congruence);
    destruct (Qle_bool rho R) eqn:E2;
    [|rewrite Qeq_bool_false in Hfit by (intro E; rewrite E in Hrho; discriminate)]];
  cbn [res_bind] in Hfit; injection Hfit as <- <- <- <-.
  - split_and!; intros; lra.
  - apply Qle_bool_iff in E2. split_and!; intros; try lra.
    assert (Hlt : (rho < R)%Q) by (apply Qle_lteq in E2 as [E2|E2]; [exact E2|destruct E1'; apply Qeq_sym; exact E2]).
    apply (Qlt_div_iff rho (inject_Z W) (inject_Z H) QH) in Hlt. lra.
  - assert (E3 : (R < rho)%Q)
      by (apply Qnot_le_lt; intro E; apply Qle_bool_iff in E; congruence).
    split_and!; intros; lra.
Qed.

(** A [960 × 1000] portrait fitted to [364 × 380] ([0.96 > 0.958]):
    its whole height is kept and its shorter side is cropped. *)
Lemma fit_kept_side_witness :
  exists l t r b, fit_box 960 1000 364 380 = Ok (l, t, r, b) /\
  (((364 * 1000 <= 960 * 380)%Z -> t == 0 /\ b == inject_Z 1000)%Q /\
   ((960 * 380 <= 364 * 1000)%Z -> l == 0 /\ r == inject_Z 960)%Q /\
   ((364 * 1000 < 960 * 380)%Z -> r - l < inject_Z 960)%Q).
Proof.
  do 4 eexists. split; [reflexivity|].
  apply (fit_kept_side 960 1000 364 380); [lia..|reflexivity].
Defined.

Section PilFacts.
Context `{P : Pil}.

Lemma resize_ok im w h l t r b :
  0 < w -> 0 < h ->
  (0 <= l /\ r <= inject_Z (width im) /\ 0 <= t /\ b <= inject_Z (height im))%Q ->
  (l <= r /\ t <= b)%Q -> raster_ok im ->
  exists im', resize im w h (l, t, r, b) = Ok im' /\
    width im' = w /\ height im' = h /\ raster_ok im'.
Proof.
  intros Hw Hh Hin Hne Hok. unfold resize.
  destruct ((width im =? w) && (height im =? h) && _ && _ && _ && _) eqn:Eid.
  - rewrite !andb_true_iff in Eid. destruct Eid as [[[[[E1 E2] _] _] _] _].
    apply Z.eqb_eq in E1, E2. eauto.
  - replace ((w <? 1) || (h <? 1)) with false by (symmetry; zbool; lia).
    rewrite !Qle_bool_t by lra. simpl.
    destruct (resize_box_size im w h (l, t, r, b)).
    eexists; split_and!; [reflexivity | assumption | assumption | apply resize_box_ok, Hok].
Qed.

Lemma fit_ok im w h :
  0 < width im -> 0 < height im -> 0 < w -> 0 < h -> raster_ok im ->
  exists f, fit im w h = Ok f /\ width f = w /\ height f = h /\ raster_ok f.
Proof.
  intros HW HH Hw Hh Hok.
  destruct (fit_box_props (width im) (height im) w h) as (l & t & r & b & E & Hin & Hpos & _);
    try assumption.
  unfold fit. rewrite E. cbn [res_bind]. apply resize_ok; auto; lra.
Qed.

Lemma prepare_decode_error b w h e :
  open_bytes b = Err e -> _prepare b w h = Err e.
Proof. intros E. unfold _prepare. now rewrite E. Qed.

Lemma prepare_ok b w h img :
  open_bytes b = Ok img -> 0 < w -> 0 < h ->
  exists fitted out, fit img w h = Ok fitted /\ _prepare b w h = Ok out /\
    width out = w /\ height out = h /\ raster_ok out /\
    forall x y, px out x y =
      RGBA (red (px fitted x y)) (green (px fitted x y)) (blue (px fitted x y))
           (if rounded_fill_set 0 0 w h CORNER_RAD x y then 255 else 0).
Proof.
  intros Hopen Hw Hh. destruct (open_bytes_ok _ _ Hopen) as (HW & HH & Hok).
  destruct (fit_ok img w h) as (f & Ef & Fw & Fh & Fok); try assumption.
  exists f. unfold _prepare. rewrite Hopen. cbn [res_bind]. rewrite Ef. cbn [res_bind].
  unfold rounded_rectangle_fill, rr_check.
  replace (w <? 0) with false by (symmetry; zbool; lia).
  replace (h <? 0) with false by (symmetry; zbool; lia). cbn [res_bind].
  unfold putalpha. simpl. rewrite Fw, Fh, !Z.eqb_refl. simpl.
  eexists. split_and!; try reflexivity.
  intros x y Hb. destruct (Fok x y) as (R & G & B & _).
  { unfold in_bounds in *. simpl in Hb. rewrite Fw, Fh. exact Hb. }
  unfold rgba_ok. simpl. split_and!; try assumption.
  destruct (rounded_fill_set _ _ _ _ _ x y); byte_lia.
Qed.

(** C16: [ImageOps.fit(img, (w, h), LANCZOS)] on a decoded image and a
    positive target: it succeeds with an image of exactly [w × h] whose
    pixels are bytes; it resamples the crop box of [fit_box], which lies
    inside the image, has exactly the target's aspect ratio, spans the
    image's full width or full height (no larger box of that ratio fits)
    and is centred; an image already of the target size is returned as is. *)
Theorem fit_spec im w h :
  0 < width im -> 0 < height im -> 0 < w -> 0 < h -> raster_ok im ->
  exists l t r b f, fit_box (width im) (height im) w h = Ok (l, t, r, b) /\
    fit im w h = Ok f /\ width f = w /\ height f = h /\ raster_ok f /\
    (f = resize_box im w h (l, t, r, b) \/ (f = im /\ width im = w /\ height im = h)) /\
    (0 <= l /\ r <= inject_Z (width im) /\ 0 <= t /\ b <= inject_Z (height im))%Q /\
    ((r - l) * inject_Z h == (b - t) * inject_Z w)%Q /\
    (r - l == inject_Z (width im) \/ b - t == inject_Z (height im))%Q /\
    (l == inject_Z (width im) - r /\ t == inject_Z (height im) - b)%Q.
Proof.
  intros HW HH Hw Hh Hok.
  destruct (fit_box_props (width im) (height im) w h) as (l & t & r & b & E & Hin & Hpos & Hasp & Hmax & Hcen);
    try assumption.
  destruct (fit_ok im w h) as (f & Ef & Fw & Fh & Fok); try assumption.
  exists l, t, r, b, f. split_and!; try tauto.
  unfold fit in Ef. rewrite E in Ef. cbn [res_bind] in Ef. unfold resize in Ef.
  destruct (_ && _) eqn:Eid.
  - rewrite !andb_true_iff in Eid. destruct Eid as [[[[[E1 E2] _] _] _] _].
    apply Z.eqb_eq in E1, E2. injection Ef as <-. right. auto.
  - left. repeat destruct (_ || _); try discriminate. now injection Ef.
Qed.

(** C17: when the photo decodes, [_prepare] succeeds for every target
    size whose corners do not meet: the result is exactly [w × h], its
    colour is the fitted photo's, and its alpha is the mask: only 0 or 255,
    255 on the cross of the rounded rectangle [(0, 0, w, h)] of radius
    [CORNER_RAD] (full width on rows [13 .. h-13], full height on columns
    [13 .. w-13]), and 255 nowhere outside that rectangle's box. *)
Theorem prepare_spec b w h img :
  open_bytes b = Ok img -> regular_box 0 0 w h CORNER_RAD ->
  exists fitted out, fit img w h = Ok fitted /\ _prepare b w h = Ok out /\
    width out = w /\ height out = h /\ raster_ok out /\
    forall x y,
      (red (px out x y), green (px out x y), blue (px out x y)) =
        (red (px fitted x y), green (px fitted x y), blue (px fitted x y)) /\
      (alpha (px out x y) = 0 \/ alpha (px out x y) = 255) /\
      ((CORNER_RAD + 1 <= x <= w - CORNER_RAD - 1 /\ 0 <= y <= h) \/
       (0 <= x <= w /\ CORNER_RAD + 1 <= y <= h - CORNER_RAD - 1) ->
       alpha (px out x y) = 255) /\
      (alpha (px out x y) = 255 -> 0 <= x <= w /\ 0 <= y <= h).
Proof.
  intros Hopen Hreg. pose proof Hreg as (H0 & H1 & H2).
  destruct (prepare_ok b w h img Hopen) as (f & out & Ef & Eo & Ow & Oh & Ook & Opx); try lia.
  exists f, out. split_and!; try assumption. intros x y. rewrite Opx. simpl.
  pose proof (rounded_fill_shape 0 0 w h CORNER_RAD Hreg x y) as [Hin Hbox].
  destruct (rounded_fill_set 0 0 w h CORNER_RAD x y); split_and!; auto.
  - intros Hc. specialize (Hin ltac:(lia)). discriminate.
  - discriminate.
Qed.

End PilFacts.

End Prepare.
