(* ===== verification/Collage.v ===== *)
(** * [make_collage] (main.py lines 71-92)

    The template is opened as RGBA; both photos are prepared to the size
    of the left box ([w = 455 - 91 = 364], [h = 619 - 239 = 380]) and
    pasted with their own alpha as mask at the top-left corners of the left
    and the right box; then, for each box in turn, a white rounded outline
    of width [BORDER_WIDTH] is drawn on the template, and a [w × h] shadow
    layer (a rounded rectangle of [(0, 0, 0, 40)] on transparent black,
    Gaussian-blurred with radius 3) is alpha-composited at the box's corner
    moved down by 4 pixels.  The canvas is converted to RGB and encoded as
    PNG.

    [compose_canvas] is lines 73-88 on the opened template and
    [make_collage] the whole function; [collage_composer] makes it the
    [Composer] the orchestrator calls in a worker thread.  [slot_layers]
    is what one iteration of the loop leaves on the canvas, and
    [compose_canvas_eq] shows that [compose_canvas] is the two masked
    pastes followed by the two slots' layers in box order. *)

From S2P Require Import Prelude Pixel Raster Draw Prepare Orchestrator.

Module Collage.
Import Pixel Raster Draw Prepare.

Local Open Scope Z_scope.

(** [BORDER_WIDTH] (line 42), the colours of lines 83, 84 and 86. *)
Definition BORDER_WIDTH : Z := 2.
Definition WHITE : rgba := RGBA 255 255 255 255.
Definition TRANSPARENT : rgba := RGBA 0 0 0 0.
Definition SHADOW_INK : rgba := RGBA 0 0 0 40.

(** [left_box] and [right_box] (lines 73-74). *)
Definition left_box : Z * Z * Z * Z := (91, 239, 455, 619).
Definition right_box : Z * Z * Z * Z := (503, 239, 865, 619).

Section WithPil.
Context `{P : Pil}.

(** One iteration of the loop of lines 82-88. *)
Definition box_step (w h : Z) (template : raster rgba) (box : Z * Z * Z * Z)
    : res (raster rgba) :=
  let '(x0, y0, x1, y1) := box in
  let! template :=
    rounded_rectangle_outline template x0 y0 x1 y1 CORNER_RAD BORDER_WIDTH WHITE in
  let shadow := new w h TRANSPARENT in
  let! shadow := rounded_rectangle_fill shadow 0 0 w h CORNER_RAD SHADOW_INK in
  let shadow := gaussian_blur 3 shadow in
  Ok (alpha_composite_at template shadow x0 (y0 + 4)).

(** [for box in (left_box, right_box): ...] *)
Fixpoint draw_boxes (w h : Z) (template : raster rgba) (boxes : list (Z * Z * Z * Z))
    : res (raster rgba) :=
  match boxes with
  | [] => Ok template
  | box :: rest => let! template := box_step w h template box in draw_boxes w h template rest
  end.

(** Lines 73-88 on the opened template. *)
Definition compose_canvas (template : raster rgba) (before_bytes after_bytes : bytes)
    : res (raster rgba) :=
  let '(lx0, ly0, lx1, ly1) := left_box in
  let '(rx0, ry0, _, _) := right_box in
  let w := lx1 - lx0 in
  let h := ly1 - ly0 in
  let! before_img := _prepare before_bytes w h in
  let! after_img := _prepare after_bytes w h in
  let template := paste_masked template before_img lx0 ly0 in
  let template := paste_masked template after_img rx0 ry0 in
  draw_boxes w h template [left_box; right_box].

(** [make_collage(before_bytes, after_bytes)] with [TEMPLATE_PATH]. *)
Definition make_collage (template_path : string) (before_bytes after_bytes : bytes)
    : res bytes :=
  let! template := open_path template_path in
  let! canvas := compose_canvas template before_bytes after_bytes in
  Ok (save_png (to_rgb canvas)).

(** The compositor [work] runs through [asyncio.to_thread] (line 107). *)
Definition collage_composer (template_path : string) : Orchestrator.Composer :=
  {| Orchestrator.compose := make_collage template_path |}.

(** What one loop iteration leaves on the canvas. *)
Definition shadow_layer (w h : Z) : raster rgba :=
  gaussian_blur 3 (paint (new w h TRANSPARENT) (rounded_fill_set 0 0 w h CORNER_RAD) SHADOW_INK).

Definition slot_layers (w h : Z) (t : raster rgba) (box : Z * Z * Z * Z) : raster rgba :=
  let '(x0, y0, x1, y1) := box in
  alpha_composite_at (paint t (rounded_outline_set x0 y0 x1 y1 CORNER_RAD BORDER_WIDTH) WHITE)
    (shadow_layer w h) x0 (y0 + 4).

(** The canvas after lines 79-88, once both photos are prepared. *)
Definition canvas_of (template before_img after_img : raster rgba) : raster rgba :=
  slot_layers 364 380
    (slot_layers 364 380
       (paste_masked (paste_masked template before_img 91 239) after_img 503 239) left_box)
    right_box.

(** The pixels of a slot, in slot coordinates [(u, v)] from the box's
    top-left corner, that lie clear of the outline and its corners, inside
    the photo's mask and where the blurred shadow is uniform ([k] is how
    far the blur reaches). *)
Definition slot_interior (k u v : Z) : Prop :=
  (2 <= u <= 360 /\ 4 <= v <= 378) /\
  ((13 + k <= u <= 351 - k /\ 24 < u < 338) \/ (17 + k <= v <= 371 - k /\ 24 < v < 356)).

End WithPil.

Section Facts.
Context `{P : Pil}.

(** Side conditions on the layout constants. *)
Ltac geom := unfold regular_box, slot_interior, CORNER_RAD, BORDER_WIDTH in *; lia.

Lemma box_step_eq w h t x0 y0 x1 y1 : 0 <= w -> 0 <= h -> x0 <= x1 -> y0 <= y1 ->
  box_step w h t (x0, y0, x1, y1) = Ok (slot_layers w h t (x0, y0, x1, y1)).
Proof.
  intros. unfold box_step, rounded_rectangle_outline, rounded_rectangle_fill.
  rewrite !rr_check_ok by lia. reflexivity.
Qed.

Lemma compose_canvas_unfold T b a :
  compose_canvas T b a =
    let! before_img := _prepare b 364 380 in
    let! after_img := _prepare a 364 380 in
    draw_boxes 364 380
      (paste_masked (paste_masked T before_img 91 239) after_img 503 239) [left_box; right_box].
Proof. reflexivity. Qed.

Lemma compose_canvas_eq T b a B A :
  _prepare b 364 380 = Ok B -> _prepare a 364 380 = Ok A ->
  compose_canvas T b a = Ok (canvas_of T B A).
Proof.
  intros Hb Ha. rewrite !compose_canvas_unfold.
  rewrite Hb, Ha. cbn [res_bind draw_boxes]. unfold left_box, right_box.
  rewrite box_step_eq by lia. cbn [res_bind]. rewrite box_step_eq by lia. reflexivity.
Qed.

(** [_prepare] fails only when the photo does not decode, and then with
    the decoder's exception. *)
Lemma prepare_inv b w h out : 0 < w -> 0 < h -> _prepare b w h = Ok out ->
  exists img fitted, open_bytes b = Ok img /\ fit img w h = Ok fitted /\
    width out = w /\ height out = h /\ raster_ok out /\
    forall x y, px out x y =
      RGBA (red (px fitted x y)) (green (px fitted x y)) (blue (px fitted x y))
           (if rounded_fill_set 0 0 w h CORNER_RAD x y then 255 else 0).
Proof.
  intros Hw Hh Hp. destruct (open_bytes b) as [img|e] eqn:Eo.
  - destruct (prepare_ok b w h img Eo Hw Hh) as (f & out' & Ef & Eout & Rest).
    rewrite Hp in Eout. injection Eout as <-. eauto.
  - rewrite (prepare_decode_error b w h e Eo) in Hp. discriminate.
Qed.

Lemma compose_canvas_inv T b a c : compose_canvas T b a = Ok c ->
  exists B A, _prepare b 364 380 = Ok B /\ _prepare a 364 380 = Ok A /\ c = canvas_of T B A.
Proof.
  destruct (_prepare b 364 380) as [B|e] eqn:Hb;
    [destruct (_prepare a 364 380) as [A|e] eqn:Ha|].
  - rewrite (compose_canvas_eq T b a B A Hb Ha). intros [= <-]. eauto.
  - rewrite !compose_canvas_unfold. rewrite Hb, Ha. discriminate.
  - rewrite !compose_canvas_unfold. rewrite Hb. discriminate.
Qed.

Lemma canvas_of_size T B A : width (canvas_of T B A) = width T /\ height (canvas_of T B A) = height T.
Proof. unfold canvas_of, slot_layers, left_box, right_box. simpl. auto. Qed.

Lemma shadow_layer_size w h : width (shadow_layer w h) = w /\ height (shadow_layer w h) = h.
Proof. unfold shadow_layer. apply blur_size. Qed.

Lemma paste_outside dst src dx dy x y :
  ~ (dx <= x < dx + width src /\ dy <= y < dy + height src) ->
  px (paste_masked dst src dx dy) x y = px dst x y.
Proof.
  intros H. simpl. unfold in_bounds.
  destruct (_ && _ && _ && _) eqn:E; [|reflexivity]. zbool. lia.
Qed.

Lemma paste_prepared_px dst src dx dy x y w h fitted :
  regular_box 0 0 w h CORNER_RAD -> width src = w -> height src = h -> raster_ok src ->
  (forall x y, px src x y =
     RGBA (red (px fitted x y)) (green (px fitted x y)) (blue (px fitted x y))
          (if rounded_fill_set 0 0 w h CORNER_RAD x y then 255 else 0)) ->
  rgba_ok (px dst x y) -> 0 <= x - dx < w -> 0 <= y - dy < h ->
  (CORNER_RAD + 1 <= x - dx <= w - CORNER_RAD - 1 \/
   CORNER_RAD + 1 <= y - dy <= h - CORNER_RAD - 1) ->
  px (paste_masked dst src dx dy) x y =
    RGBA (red (px fitted (x - dx) (y - dy))) (green (px fitted (x - dx) (y - dy)))
         (blue (px fitted (x - dx) (y - dy))) 255 /\
  rgba_ok (px (paste_masked dst src dx dy) x y).
Proof.
  intros Hreg Hw Hh Hok Hpx Hd Hu Hv Hc. simpl.
  assert (Hin : in_bounds src (x - dx) (y - dy) = true)
    by (unfold in_bounds; rewrite Hw, Hh; zbool; lia).
  pose proof (Hok _ _ Hin) as Hs. rewrite Hin.
  rewrite Hpx, (proj1 (rounded_fill_shape 0 0 w h CORNER_RAD Hreg _ _)) in Hs |- * by lia.
  rewrite paste_px_opaque by (assumption || reflexivity). auto.
Qed.

Lemma outline_off x0 y0 x1 y1 x y :
  regular_box x0 y0 x1 y1 CORNER_RAD ->
  (~ (x0 <= x <= x1 /\ y0 <= y <= y1) \/
   (x0 + BORDER_WIDTH <= x <= x1 - BORDER_WIDTH /\ y0 + BORDER_WIDTH <= y <= y1 - BORDER_WIDTH /\
    (x0 + 2 * CORNER_RAD < x < x1 - 2 * CORNER_RAD \/
     y0 + 2 * CORNER_RAD < y < y1 - 2 * CORNER_RAD))) ->
  rounded_outline_set x0 y0 x1 y1 CORNER_RAD BORDER_WIDTH x y = false.
Proof.
  intros Hreg Hc. destruct (rounded_outline_set _ _ _ _ _ _ x y) eqn:E; [|reflexivity].
  apply (proj2 (rounded_outline_shape x0 y0 x1 y1 CORNER_RAD Hreg BORDER_WIDTH x y
                  ltac:(unfold BORDER_WIDTH, CORNER_RAD; lia))) in E.
  unfold BORDER_WIDTH in *. lia.
Qed.

Lemma slot_outside w h t x0 y0 x1 y1 x y :
  regular_box x0 y0 x1 y1 CORNER_RAD ->
  ~ (x0 <= x <= x1 /\ y0 <= y <= y1) -> ~ (x0 <= x < x0 + w /\ y0 + 4 <= y < y0 + 4 + h) ->
  px (slot_layers w h t (x0, y0, x1, y1)) x y = px t x y.
Proof.
  intros Hreg Hbox Hsh. unfold slot_layers. simpl.
  destruct (shadow_layer_size w h) as [Sw Sh].
  replace (in_bounds (shadow_layer w h) (x - x0) (y - (y0 + 4))) with false
    by (symmetry; unfold in_bounds; rewrite Sw, Sh; zbool; lia).
  rewrite outline_off by auto. reflexivity.
Qed.

Lemma shadow_solid w h u v :
  regular_box 0 0 w h CORNER_RAD -> 0 <= u < w -> 0 <= v < h ->
  (CORNER_RAD + 1 + blur_reach 3 <= u <= w - CORNER_RAD - 1 - blur_reach 3 \/
   CORNER_RAD + 1 + blur_reach 3 <= v <= h - CORNER_RAD - 1 - blur_reach 3) ->
  px (shadow_layer w h) u v = SHADOW_INK.
Proof.
  intros Hreg Hu Hv Hc. unfold shadow_layer. apply blur_const.
  - unfold in_bounds. simpl. zbool. lia.
  - intros u' v' Hb Hdu Hdv. unfold in_bounds in Hb. simpl in Hb |- *. zbool.
    apply Z.abs_le in Hdu, Hdv.
    rewrite (proj1 (rounded_fill_shape 0 0 w h CORNER_RAD Hreg u' v')) by lia. reflexivity.
Qed.

Lemma slot_layers_px w h t x0 y0 x1 y1 x y :
  px (slot_layers w h t (x0, y0, x1, y1)) x y =
  let q := if rounded_outline_set x0 y0 x1 y1 CORNER_RAD BORDER_WIDTH x y then WHITE
           else px t x y in
  if in_bounds (shadow_layer w h) (x - x0) (y - (y0 + 4))
  then alpha_composite_px q (px (shadow_layer w h) (x - x0) (y - (y0 + 4)))
  else q.
Proof. reflexivity. Qed.

(** A slot pixel clear of the outline, over an opaque pixel, under the
    uniform part of the shadow. *)
Lemma slot_shadowed_px w h t x0 y0 x1 y1 x y :
  regular_box x0 y0 x1 y1 CORNER_RAD -> regular_box 0 0 w h CORNER_RAD ->
  rounded_outline_set x0 y0 x1 y1 CORNER_RAD BORDER_WIDTH x y = false ->
  0 <= x - x0 < w -> 0 <= y - (y0 + 4) < h ->
  (CORNER_RAD + 1 + blur_reach 3 <= x - x0 <= w - CORNER_RAD - 1 - blur_reach 3 \/
   CORNER_RAD + 1 + blur_reach 3 <= y - (y0 + 4) <= h - CORNER_RAD - 1 - blur_reach 3) ->
  rgba_ok (px t x y) -> alpha (px t x y) = 255 ->
  px (slot_layers w h t (x0, y0, x1, y1)) x y =
    RGBA (darken40 (red (px t x y))) (darken40 (green (px t x y))) (darken40 (blue (px t x y))) 255.
Proof.
  intros Hreg Hwh Hout Hu Hv Hsh Hok Ha. unfold slot_layers. simpl. rewrite Hout.
  destruct (shadow_layer_size w h) as [Sw Sh].
  replace (in_bounds (shadow_layer w h) (x - x0) (y - (y0 + 4))) with true
    by (symmetry; unfold in_bounds; rewrite Sw, Sh; zbool; lia).
  rewrite shadow_solid by assumption. unfold SHADOW_INK.
  destruct (px t x y) as [r g b al]. destruct Hok as (Hr & Hg & Hb & _). simpl in *. subst al.
  apply shadow_over_opaque; assumption.
Qed.

(** C13: when the template and both photos decode, [make_collage]
    succeeds, whatever the template's size: both photos are prepared to the
    left box's size [364 × 380], pasted at [(91, 239)] and [(503, 239)],
    then the left slot's outline and shadow are drawn, then the right
    slot's, and the PNG of the RGB conversion of that canvas is returned;
    the canvas has the template's size. *)
Theorem make_collage_spec p b a T ib ia :
  open_path p = Ok T -> open_bytes b = Ok ib -> open_bytes a = Ok ia ->
  exists B A, _prepare b 364 380 = Ok B /\ _prepare a 364 380 = Ok A /\
    compose_canvas T b a = Ok (canvas_of T B A) /\
    make_collage p b a = Ok (save_png (to_rgb (canvas_of T B A))) /\
    width (canvas_of T B A) = width T /\ height (canvas_of T B A) = height T.
Proof.
  intros Ht Hb Ha.
  destruct (prepare_ok b 364 380 ib Hb ltac:(lia) ltac:(lia)) as (_ & B & _ & EB & _).
  destruct (prepare_ok a 364 380 ia Ha ltac:(lia) ltac:(lia)) as (_ & A & _ & EA & _).
  exists B, A. pose proof (compose_canvas_eq T b a B A EB EA) as Ec.
  split_and!; try assumption; try apply canvas_of_size.
  unfold make_collage. rewrite Ht. cbn [res_bind]. rewrite Ec. reflexivity.
Qed.

(** C14: [make_collage] raises, uncaught, the exception of the first
    step that fails, in the code's order: opening the template, decoding
    the photo before, decoding the photo after. *)
Theorem make_collage_errors p b a e :
  (open_path p = Err e -> make_collage p b a = Err e) /\
  (forall T, open_path p = Ok T -> open_bytes b = Err e -> make_collage p b a = Err e) /\
  (forall T ib, open_path p = Ok T -> open_bytes b = Ok ib -> open_bytes a = Err e ->
     make_collage p b a = Err e).
Proof.
  unfold make_collage. split_and!.
  - intros Ht. rewrite Ht. reflexivity.
  - intros T Ht Hb. rewrite Ht. cbn [res_bind]. rewrite !compose_canvas_unfold.
    rewrite (prepare_decode_error b 364 380 e Hb). reflexivity.
  - intros T ib Ht Hb Ha. rewrite Ht. cbn [res_bind]. rewrite !compose_canvas_unfold.
    destruct (prepare_ok b 364 380 ib Hb ltac:(lia) ltac:(lia)) as (_ & B & _ & -> & _).
    cbn [res_bind]. rewrite (prepare_decode_error a 364 380 e Ha). reflexivity.
Qed.

(** C15: outside the two slots' footprints (box, photo and shadow, which
    reaches 4 rows below the box) the canvas is the template, pixel for
    pixel. *)
Theorem collage_outside_slots T b a c x y :
  compose_canvas T b a = Ok c ->
  ~ (91 <= x <= 455 /\ 239 <= y <= 622) -> ~ (503 <= x <= 866 /\ 239 <= y <= 622) ->
  px c x y = px T x y.
Proof.
  intros Hc HL HR. destruct (compose_canvas_inv T b a c Hc) as (B & A & EB & EA & ->).
  destruct (prepare_inv b 364 380 B ltac:(lia) ltac:(lia) EB) as (_ & _ & _ & _ & Bw & Bh & _).
  destruct (prepare_inv a 364 380 A ltac:(lia) ltac:(lia) EA) as (_ & _ & _ & _ & Aw & Ah & _).
  unfold canvas_of, left_box, right_box.
  rewrite !slot_outside by geom.
  rewrite !paste_outside by (rewrite ?Bw, ?Bh, ?Aw, ?Ah; lia). reflexivity.
Qed.

Lemma prepared_px b B ib fitted :
  _prepare b 364 380 = Ok B -> open_bytes b = Ok ib -> fit ib 364 380 = Ok fitted ->
  width B = 364 /\ height B = 380 /\ raster_ok B /\
  forall x y, px B x y =
    RGBA (red (px fitted x y)) (green (px fitted x y)) (blue (px fitted x y))
         (if rounded_fill_set 0 0 364 380 CORNER_RAD x y then 255 else 0).
Proof.
  intros EB Hb Hf.
  destruct (prepare_inv b 364 380 B ltac:(lia) ltac:(lia) EB) as (ib' & f' & Eb & Ef & Rest).
  rewrite Hb in Eb. injection Eb as <-. rewrite Hf in Ef. injection Ef as <-. exact Rest.
Qed.

(** C18: inside either slot, clear of the outline and its rounded
    corners, inside the photo's mask and where the blurred shadow is
    uniform, the canvas shows the fitted photo (before on the left, after
    on the right) darkened by the shadow: each channel scaled by 215/255,
    rounded to nearest, and opaque.  The shadow is composited over the
    photo, not under it. *)
Theorem collage_slot_interior T b a c x0 img ib fitted x y :
  compose_canvas T b a = Ok c -> raster_ok T -> in_bounds T x y = true ->
  (x0 = 91 /\ img = b) \/ (x0 = 503 /\ img = a) ->
  open_bytes img = Ok ib -> fit ib 364 380 = Ok fitted ->
  slot_interior (blur_reach 3) (x - x0) (y - 239) ->
  px c x y = RGBA (darken40 (red (px fitted (x - x0) (y - 239))))
                  (darken40 (green (px fitted (x - x0) (y - 239))))
                  (darken40 (blue (px fitted (x - x0) (y - 239)))) 255.
Proof.
  intros Hc HT Hin Hslot Hib Hfit Hint.
  destruct (compose_canvas_inv T b a c Hc) as (B & A & EB & EA & ->).
  pose proof (HT x y Hin) as HTo. unfold canvas_of, left_box, right_box.
  destruct Hslot as [[-> ->]|[-> ->]].
  - destruct (prepared_px b B ib fitted EB Hib Hfit) as (Bw & Bh & Bok & Bpx).
    destruct (prepare_inv a 364 380 A ltac:(lia) ltac:(lia) EA) as (_ & _ & _ & _ & Aw & Ah & _).
    destruct (paste_prepared_px T B 91 239 x y 364 380 fitted) as [Hbase Hok]; try assumption; try geom.
    rewrite slot_outside by geom.
    rewrite <- (paste_outside _ A 503 239 x y) in Hbase, Hok by (rewrite Aw, Ah; geom).
    rewrite slot_shadowed_px; try geom.
    + rewrite Hbase. reflexivity.
    + apply outline_off; geom.
    + exact Hok.
    + rewrite Hbase. reflexivity.
  - destruct (prepared_px a A ib fitted EA Hib Hfit) as (Aw & Ah & Aok & Apx).
    destruct (prepare_inv b 364 380 B ltac:(lia) ltac:(lia) EB) as (_ & _ & _ & _ & Bw & Bh & _).
    assert (Hd : rgba_ok (px (paste_masked T B 91 239) x y))
      by (rewrite paste_outside by (rewrite Bw, Bh; geom); exact HTo).
    destruct (paste_prepared_px (paste_masked T B 91 239) A 503 239 x y 364 380 fitted)
      as [Hbase Hok]; try assumption; try geom.
    rewrite <- (slot_outside 364 380 _ 91 239 455 619 x y) in Hbase, Hok by geom.
    rewrite slot_shadowed_px; try geom.
    + rewrite Hbase. reflexivity.
    + apply outline_off; geom.
    + exact Hok.
    + rewrite Hbase. reflexivity.
Qed.

Lemma slot_px_on_right_band w h t x0 y0 x1 y1 x y :
  regular_box x0 y0 x1 y1 CORNER_RAD ->
  y0 + CORNER_RAD + 1 <= y <= y1 - CORNER_RAD - 1 -> x1 - BORDER_WIDTH + 1 <= x <= x1 ->
  px (slot_layers w h t (x0, y0, x1, y1)) x y =
    if in_bounds (shadow_layer w h) (x - x0) (y - (y0 + 4))
    then alpha_composite_px WHITE (px (shadow_layer w h) (x - x0) (y - (y0 + 4)))
    else WHITE.
Proof.
  intros Hreg Hy Hx. rewrite slot_layers_px. cbv zeta.
  rewrite (proj1 (rounded_outline_shape x0 y0 x1 y1 CORNER_RAD Hreg BORDER_WIDTH x y
                    ltac:(geom))) by geom.
  reflexivity.
Qed.

Lemma shadow_in_bounds w h u v :
  in_bounds (shadow_layer w h) u v = ((0 <=? u) && (u <? w) && (0 <=? v) && (v <? h)).
Proof. unfold in_bounds. destruct (shadow_layer_size w h) as [-> ->]. reflexivity. Qed.

(** C19: the right box is 362 pixels wide ([865 - 503]) but the photo
    pasted in it and its shadow are 364 wide, like the left box: on the
    rows of the slots' straight sides, the left slot ends with its outline
    (column 454 under the shadow, column 455 pure white), while the right
    slot's outline (columns 864-865) is followed by one more column of the
    after photo (866), darkened by the shadow, outside the white border. *)
Theorem right_slot_overhang T b a c ia fitted y :
  compose_canvas T b a = Ok c -> raster_ok T -> in_bounds T 866 y = true ->
  open_bytes a = Ok ia -> fit ia 364 380 = Ok fitted ->
  252 <= y <= 606 -> 17 + blur_reach 3 <= y - 239 <= 371 - blur_reach 3 ->
  px c 454 y = RGBA 215 215 215 255 /\ px c 455 y = WHITE /\
  px c 864 y = RGBA 215 215 215 255 /\ px c 865 y = RGBA 215 215 215 255 /\
  px c 866 y = RGBA (darken40 (red (px fitted 363 (y - 239))))
                    (darken40 (green (px fitted 363 (y - 239))))
                    (darken40 (blue (px fitted 363 (y - 239)))) 255.
Proof.
  intros Hc HT Hin Ha Hf Hy Hk.
  destruct (compose_canvas_inv T b a c Hc) as (B & A & EB & EA & ->).
  destruct (prepared_px a A ia fitted EA Ha Hf) as (Aw & Ah & Aok & Apx).
  destruct (prepare_inv b 364 380 B ltac:(lia) ltac:(lia) EB) as (_ & _ & _ & _ & Bw & Bh & _).
  assert (Hwhite : alpha_composite_px WHITE SHADOW_INK = RGBA 215 215 215 255)
    by (vm_compute; reflexivity).
  unfold canvas_of, left_box, right_box. split_and!.
  - rewrite slot_outside, slot_px_on_right_band, shadow_in_bounds by geom.
    replace (_ && _ && _ && _) with true by (symmetry; zbool; lia).
    rewrite shadow_solid by geom. exact Hwhite.
  - rewrite slot_outside, slot_px_on_right_band, shadow_in_bounds by geom.
    replace (_ && _ && _ && _) with false by (symmetry; zbool; lia). reflexivity.
  - rewrite slot_px_on_right_band, shadow_in_bounds by geom.
    replace (_ && _ && _ && _) with true by (symmetry; zbool; lia).
    rewrite shadow_solid by geom. exact Hwhite.
  - rewrite slot_px_on_right_band, shadow_in_bounds by geom.
    replace (_ && _ && _ && _) with true by (symmetry; zbool; lia).
    rewrite shadow_solid by geom. exact Hwhite.
  - assert (Hd : rgba_ok (px (paste_masked T B 91 239) 866 y))
      by (rewrite paste_outside by (rewrite Bw, Bh; geom); exact (HT _ _ Hin)).
    destruct (paste_prepared_px (paste_masked T B 91 239) A 503 239 866 y 364 380 fitted)
      as [Hbase Hok]; try assumption; try geom.
    rewrite <- (slot_outside 364 380 _ 91 239 455 619 866 y) in Hbase, Hok by geom.
    rewrite slot_shadowed_px; try geom.
    + rewrite Hbase. reflexivity.
    + apply outline_off; geom.
    + exact Hok.
    + rewrite Hbase. reflexivity.
Qed.

#[export] Instance slot_layers_proper w h : Proper ((≡) ==> eq ==> (≡)) (slot_layers w h).
Proof.
  intros t1 t2 Ht box ? <-. destruct box as [[[x0 y0] x1] y1]. unfold slot_layers.
  rewrite Ht. reflexivity.
Qed.

#[export] Instance canvas_of_proper : Proper ((≡) ==> eq ==> eq ==> (≡)) canvas_of.
Proof. intros T1 T2 HT B ? <- A ? <-. unfold canvas_of. rewrite HT. reflexivity. Qed.

Lemma shadow_layer_ok w h : raster_ok (shadow_layer w h).
Proof.
  apply blur_ok, raster_ok_paint; [apply raster_ok_new|]; unfold rgba_ok, is_byte; simpl; lia.
Qed.

Lemma slot_layers_type w h t box :
  raster_ok t -> raster_ok (slot_layers w h t box) /\ (opaque t -> opaque (slot_layers w h t box)).
Proof.
  destruct box as [[[x0 y0] x1] y1]. intros Ht. unfold slot_layers. split.
  - apply raster_ok_composite; [apply raster_ok_paint; [exact Ht|] | apply shadow_layer_ok].
    unfold rgba_ok, is_byte; simpl; lia.
  - intros Ho. apply opaque_composite; [apply opaque_paint; [exact Ho | reflexivity] | apply shadow_layer_ok].
Qed.

Lemma prepared_mask b B :
  _prepare b 364 380 = Ok B ->
  width B = 364 /\ height B = 380 /\ raster_ok B /\
  forall x y, in_bounds B x y = true -> alpha (px B x y) = 0 \/ alpha (px B x y) = 255.
Proof.
  intros EB. destruct (prepare_inv b 364 380 B ltac:(lia) ltac:(lia) EB)
    as (ib & fb & _ & _ & Bw & Bh & Bok & Bpx).
  split_and!; try assumption. intros x y _. rewrite Bpx. cbn [alpha].
  destruct (rounded_fill_set _ _ _ _ _ x y); auto.
Qed.

(** C26: the canvas of [make_collage] is a well-formed RGBA image: it has
    the template's size, every channel of every pixel is a byte, and over
    an opaque template it is opaque everywhere (the prepared photos' alpha
    is 0 or 255 and the shadow composite keeps alpha 255), so the final
    [convert("RGB")] drops no transparency. *)
Theorem compose_canvas_type T b a c :
  raster_ok T -> compose_canvas T b a = Ok c ->
  raster_ok c /\ width c = width T /\ height c = height T /\ (opaque T -> opaque c).
Proof.
  intros HT Hc. destruct (compose_canvas_inv T b a c Hc) as (B & A & EB & EA & ->).
  destruct (prepared_mask b B EB) as (_ & _ & Bok & Bm).
  destruct (prepared_mask a A EA) as (_ & _ & Aok & Am).
  assert (Hbase : raster_ok (paste_masked (paste_masked T B 91 239) A 503 239))
    by (repeat apply raster_ok_paste; assumption).
  unfold canvas_of, left_box, right_box.
  destruct (slot_layers_type 364 380 _ (91, 239, 455, 619) Hbase) as [Lok Lop].
  destruct (slot_layers_type 364 380 _ (503, 239, 865, 619) Lok) as [Rok Rop].
  split_and!; [exact Rok | apply canvas_of_size | apply canvas_of_size |].
  intros Ho. apply Rop, Lop. apply opaque_paste; try assumption.
  - apply raster_ok_paste; assumption.
  - apply opaque_paste; assumption.
Qed.

End Facts.

End Collage.
