(* ===== verification/CollageOrder.v ===== *)
(** * The two slots of [make_collage] are independent (main.py lines 79-88)

    [make_collage] interleaves the work of its two slots: both pastes
    first (lines 79-80), then the loop of lines 82-88 draws the outline
    and the shadow of the left box, then those of the right box.  Every
    one of these operations is pointwise ([Raster.pointwise]) and writes
    only inside a band of columns: [91 .. 455] for the left slot (box,
    photo and shadow), [503 .. 866] for the right one (its photo and
    shadow are 364 pixels wide from column 503).  The bands are disjoint,
    so the operations of different slots commute, and the canvas is the
    one obtained by drawing each slot completely ([slot]: paste, outline,
    shadow), in either order.  The spec asks for a fixed box order for
    reproducibility; this shows the result does not depend on it. *)

From S2P Require Import Prelude Pixel Raster Draw Prepare Collage.

Module CollageOrder.
Import Pixel Raster Draw Prepare Collage.

Local Open Scope Z_scope.

(** The columns [lo .. hi]. *)
Definition band (lo hi : Z) (x y : Z) : bool := (lo <=? x) && (x <=? hi).

Section WithPil.
Context `{P : Pil}.

(** The reference: one slot drawn completely, the photo pasted at the
    box's corner with its own mask, then the body of the loop. *)
Definition slot (w h : Z) (t img : raster rgba) (box : Z * Z * Z * Z) : raster rgba :=
  let '(x0, y0, _, _) := box in slot_layers w h (paste_masked t img x0 y0) box.

Definition draw_slots (w h : Z) (t : raster rgba) (slots : list (raster rgba * (Z * Z * Z * Z)))
    : raster rgba :=
  fold_left (fun t '(img, box) => slot w h t img box) slots t.

(** Lines 73-88 with the slots drawn one after the other: left first
    when [left_first], right first otherwise.  The photos are prepared in
    the code's order, so the exceptions are the code's. *)
Definition compose_by_slots (left_first : bool) (T : raster rgba) (b a : bytes)
    : res (raster rgba) :=
  let! B := _prepare b 364 380 in
  let! A := _prepare a 364 380 in
  Ok (draw_slots 364 380 T
        (if left_first then [(B, left_box); (A, right_box)] else [(A, right_box); (B, left_box)])).

End WithPil.

Section Facts.
Context `{P : Pil}.

Lemma band_disjoint lo1 hi1 lo2 hi2 x y :
  hi1 < lo2 \/ hi2 < lo1 -> band lo1 hi1 x y = true -> band lo2 hi2 x y = false.
Proof. unfold band. zbool. intros. lia. Qed.

Lemma res_equiv_ok {A} `{Equiv A} (a b : A) : a ≡ b -> Ok a ≡ Ok b.
Proof. intros Hab. exact Hab. Qed.

(** The outline and the shadow of a box write only in the columns from
    the box's left edge to its right edge or the shadow's, whichever is
    further. *)
Lemma layers_band w h x0 y0 x1 y1 :
  regular_box x0 y0 x1 y1 CORNER_RAD ->
  pointwise (fun t => slot_layers w h t (x0, y0, x1, y1)) (band x0 (Z.max x1 (x0 + w - 1))).
Proof.
  intros Hreg. destruct (shadow_layer_size w h) as [Sw Sh].
  eapply pointwise_mono; [exact (pointwise_seq _ _ _ _ (pointwise_paint _ WHITE)
                                   (pointwise_composite (shadow_layer w h) x0 (y0 + 4)))|].
  intros x y [Ho|Hs]%orb_true_iff; unfold band; zbool.
  - apply (rounded_outline_shape x0 y0 x1 y1 CORNER_RAD Hreg BORDER_WIDTH x y) in Ho;
      [lia | unfold BORDER_WIDTH, CORNER_RAD; lia].
  - unfold in_bounds in Hs. rewrite Sw, Sh in Hs. zbool. lia.
Qed.

Lemma paste_band img w x0 y0 :
  width img = w ->
  pointwise (fun t => paste_masked t img x0 y0) (band x0 (x0 + w - 1)).
Proof.
  intros Hw. eapply pointwise_mono; [apply pointwise_paste|].
  intros x y Hb. unfold in_bounds in Hb. unfold band. rewrite Hw in Hb. zbool. lia.
Qed.

Lemma slot_band w h img x0 y0 x1 y1 :
  regular_box x0 y0 x1 y1 CORNER_RAD -> width img = w ->
  pointwise (fun t => slot w h t img (x0, y0, x1, y1)) (band x0 (Z.max x1 (x0 + w - 1))).
Proof.
  intros Hreg Hw. eapply pointwise_mono;
    [exact (pointwise_seq _ _ _ _ (paste_band img w x0 y0 Hw) (layers_band w h x0 y0 x1 y1 Hreg))|].
  intros x y. unfold band. rewrite orb_true_iff. zbool. lia.
Qed.

Ltac geom := unfold regular_box, CORNER_RAD; lia.

(** C29: the two slots are independent: [make_collage]'s canvas, which
    pastes both photos before drawing the left and then the right
    outline and shadow, is the canvas obtained by drawing each slot
    completely (paste, outline, shadow), left slot first or right slot
    first: the same exception, or equivalent rasters (same size, same
    pixels). *)
Theorem slots_independent T b a :
  compose_canvas T b a ≡ compose_by_slots true T b a /\
  compose_canvas T b a ≡ compose_by_slots false T b a.
Proof.
  unfold compose_by_slots. rewrite compose_canvas_unfold.
  destruct (_prepare b 364 380) as [B|e] eqn:EB; [|split; reflexivity].
  destruct (_prepare a 364 380) as [A|e] eqn:EA; [|split; reflexivity].
  cbn [res_bind draw_boxes].
  destruct (prepare_inv b 364 380 B ltac:(lia) ltac:(lia) EB) as (_ & _ & _ & _ & Bw & _).
  destruct (prepare_inv a 364 380 A ltac:(lia) ltac:(lia) EA) as (_ & _ & _ & _ & Aw & _).
  unfold left_box, right_box. rewrite !box_step_eq by lia. cbn [res_bind draw_boxes].
  unfold draw_slots, slot. cbn [fold_left].
  assert (Hl : slot_layers 364 380 (slot_layers 364 380 (paste_masked (paste_masked T B 91 239) A 503 239)
                 (91, 239, 455, 619)) (503, 239, 865, 619) ≡
               slot_layers 364 380 (paste_masked (slot_layers 364 380 (paste_masked T B 91 239)
                 (91, 239, 455, 619)) A 503 239) (503, 239, 865, 619)).
  { apply slot_layers_proper; [|reflexivity].
    apply (pointwise_commute _ _ _ _ _ (layers_band 364 380 91 239 455 619 ltac:(geom))
             (paste_band A 364 503 239 Aw)).
    intros x y. apply band_disjoint. lia. }
  split; apply res_equiv_ok; [exact Hl|]. etransitivity; [exact Hl|].
  apply (pointwise_commute _ _ _ _ _ (slot_band 364 380 A 503 239 865 619 ltac:(geom) Aw)
           (slot_band 364 380 B 91 239 455 619 ltac:(geom) Bw)).
  intros x y. apply band_disjoint. lia.
Qed.

End Facts.

End CollageOrder.
