(* ===== verification/CollageScenarios.v ===== *)
(** * Concrete runs of [_prepare] and [make_collage]

    [toy_pil] is a small instance of the [Pil] interface that satisfies
    its laws: a decoder reading a three-byte header (width, height, grey
    level) into a uniform opaque image, a template of [900 × 700], a
    resampler that spreads the source's top-left pixel, corner pieces that
    fill their whole bounding box, arcs that draw the ring of width [wd]
    inside it, a blur that is the identity ([blur_reach 3 = 0]) and an
    encoder that writes the image's size.  The witnesses below apply the
    theorems of [Prepare] and [Collage] on it; the theorems themselves hold
    for every [Pil]. *)

From Stdlib Require Import QArith.
From S2P Require Import Prelude Pixel Raster Draw Prepare Orchestrator Collage.

Module CollageScenarios.
Import Pixel Raster Draw Prepare Collage.

Local Open Scope Z_scope.

Definition toy_open_bytes (l : bytes) : res (raster rgba) :=
  match l with
  | w :: h :: c :: _ =>
      if (byte_val w =? 0) || (byte_val h =? 0) then Err DecodeError
      else Ok (new (byte_val w) (byte_val h) (RGBA (byte_val c) (byte_val c) (byte_val c) 255))
  | _ => Err DecodeError
  end.

Definition TEMPLATE : raster rgba := new 900 700 (RGBA 30 60 90 255).

Definition toy_open_path (p : string) : res (raster rgba) :=
  if String.eqb p "data/template.png" then Ok TEMPLATE
  else Err TemplateLoadError.

Definition toy_resize (im : raster rgba) (w h : Z) (box : Q * Q * Q * Q) : raster rgba :=
  new w h (if in_bounds im 0 0 then px im 0 0 else RGBA 0 0 0 0).

Definition toy_ring (x0 y0 x1 y1 wd x y : Z) : bool :=
  rect_in x0 y0 x1 y1 x y && negb (rect_in (x0 + wd) (y0 + wd) (x1 - wd) (y1 - wd) x y).

Lemma toy_open_bytes_ok b im :
  toy_open_bytes b = Ok im -> 0 < width im /\ 0 < height im /\ raster_ok im.
Proof.
  destruct b as [|w [|h [|c r]]]; simpl; try discriminate.
  destruct (_ || _) eqn:E; [discriminate|]. intros [= <-]. zbool.
  pose proof (byte_val_range w). pose proof (byte_val_range h). pose proof (byte_val_range c).
  split; [simpl; byte_lia|]. split; [simpl; byte_lia|].
  intros x y _. unfold rgba_ok. simpl. split_and!; byte_lia.
Qed.

Lemma toy_open_path_ok p im : toy_open_path p = Ok im -> raster_ok im.
Proof.
  unfold toy_open_path. destruct (String.eqb _ _); [|discriminate].
  intros [= <-] x y _; unfold rgba_ok, is_byte; simpl; lia.
Qed.

Lemma toy_resize_ok im w h box : raster_ok im -> raster_ok (toy_resize im w h box).
Proof.
  intros Hok x y _. unfold toy_resize. simpl.
  destruct (in_bounds im 0 0) eqn:E; [apply Hok, E|]. unfold rgba_ok, is_byte. simpl. lia.
Qed.

Lemma toy_blur_const (rad : Z) (im : raster rgba) x y c :
  in_bounds im x y = true ->
  (forall x' y', in_bounds im x' y' = true -> Z.abs (x' - x) <= 0 ->
     Z.abs (y' - y) <= 0 -> px im x' y' = c) ->
  px im x y = c.
Proof. intros Hb H. apply H; [exact Hb | rewrite Z.sub_diag; reflexivity | rewrite Z.sub_diag; reflexivity]. Qed.

Definition toy_pil : Pil := {|
  open_bytes := toy_open_bytes;
  open_path := toy_open_path;
  save_png im := [byte_of_Z (width im); byte_of_Z (height im)];
  resize_box := toy_resize;
  pieslice x0 y0 x1 y1 _ _ x y := rect_in x0 y0 x1 y1 x y;
  arc x0 y0 x1 y1 _ _ wd x y := toy_ring x0 y0 x1 y1 wd x y;
  ellipse x0 y0 x1 y1 x y := rect_in x0 y0 x1 y1 x y;
  gaussian_blur _ im := im;
  blur_reach _ := 0;
  open_bytes_ok := toy_open_bytes_ok;
  open_path_ok := toy_open_path_ok;
  resize_box_size im w h box := conj eq_refl eq_refl;
  resize_box_ok := toy_resize_ok;
  pieslice_in_box x0 y0 x1 y1 _ _ x y H := proj1 (rect_in_iff x0 y0 x1 y1 x y) H;
  arc_in_box x0 y0 x1 y1 _ _ wd x y H :=
    proj1 (rect_in_iff x0 y0 x1 y1 x y) (proj1 (andb_prop _ _ H));
  ellipse_in_box x0 y0 x1 y1 x y H := proj1 (rect_in_iff x0 y0 x1 y1 x y) H;
  blur_size rad im := conj eq_refl eq_refl;
  blur_const := toy_blur_const;
  blur_proper rad := fun i1 i2 H => H;
  blur_ok rad im H := H;
  save_png_proper i1 i2 H := ltac:(destruct H as (Hw & Hh & _); simpl; rewrite Hw, Hh; reflexivity)
|}.
#[local] Existing Instance toy_pil.

(** A [200 × 150] grey photo (level 120) and a [100 × 250] one (level 60). *)
Definition photo_before : bytes := [byte_of_Z 200; byte_of_Z 150; byte_of_Z 120].
Definition photo_after : bytes := [byte_of_Z 100; byte_of_Z 250; byte_of_Z 60].
Definition img_before : raster rgba := new 200 150 (RGBA 120 120 120 255).
Definition img_after : raster rgba := new 100 250 (RGBA 60 60 60 255).

Definition ok_or {A} (d : A) (r : res A) : A := match r with Ok a => a | Err _ => d end.

Definition canvas : raster rgba := ok_or TEMPLATE (compose_canvas TEMPLATE photo_before photo_after).
Definition fitted_before : raster rgba := ok_or img_before (fit img_before 364 380).
Definition fitted_after : raster rgba := ok_or img_after (fit img_after 364 380).

Lemma TEMPLATE_ok : raster_ok TEMPLATE.
Proof. intros x y _. unfold rgba_ok, is_byte. simpl. lia. Qed.

(** ** Witnesses *)

Lemma make_collage_spec_witness :
  exists B A, _prepare photo_before 364 380 = Ok B /\ _prepare photo_after 364 380 = Ok A /\
    compose_canvas TEMPLATE photo_before photo_after = Ok (canvas_of TEMPLATE B A) /\
    make_collage "data/template.png" photo_before photo_after =
      Ok (save_png (to_rgb (canvas_of TEMPLATE B A))) /\
    width (canvas_of TEMPLATE B A) = width TEMPLATE /\
    height (canvas_of TEMPLATE B A) = height TEMPLATE.
Proof.
  apply (make_collage_spec "data/template.png" photo_before photo_after TEMPLATE img_before img_after);
    reflexivity.
Defined.

Lemma make_collage_errors_witness :
  make_collage "template.png" photo_before photo_after = Err TemplateLoadError /\
  make_collage "data/template.png" [] photo_after = Err DecodeError /\
  make_collage "data/template.png" photo_before [byte_of_Z 0; byte_of_Z 1; byte_of_Z 2] =
    Err DecodeError.
Proof.
  split_and!.
  - apply (proj1 (make_collage_errors "template.png" photo_before photo_after TemplateLoadError)).
    reflexivity.
  - apply (proj1 (proj2 (make_collage_errors "data/template.png" [] photo_after DecodeError))
             TEMPLATE); reflexivity.
  - apply (proj2 (proj2 (make_collage_errors "data/template.png" photo_before
             [byte_of_Z 0; byte_of_Z 1; byte_of_Z 2] DecodeError)) TEMPLATE img_before);
      reflexivity.
Defined.

Lemma collage_outside_slots_witness : px canvas 10 10 = px TEMPLATE 10 10.
Proof.
  apply (collage_outside_slots TEMPLATE photo_before photo_after canvas 10 10);
    [reflexivity | lia | lia].
Defined.

Lemma collage_slot_interior_witness :
  px canvas 200 400 =
    RGBA (darken40 (red (px fitted_before (200 - 91) (400 - 239))))
         (darken40 (green (px fitted_before (200 - 91) (400 - 239))))
         (darken40 (blue (px fitted_before (200 - 91) (400 - 239)))) 255.
Proof.
  apply (collage_slot_interior TEMPLATE photo_before photo_after canvas 91 photo_before
           img_before fitted_before 200 400);
    [reflexivity | exact TEMPLATE_ok | reflexivity | left; split; reflexivity
    | reflexivity | reflexivity | simpl; unfold slot_interior; lia].
Defined.

Lemma right_slot_overhang_witness :
  px canvas 454 400 = RGBA 215 215 215 255 /\ px canvas 455 400 = WHITE /\
  px canvas 864 400 = RGBA 215 215 215 255 /\ px canvas 865 400 = RGBA 215 215 215 255 /\
  px canvas 866 400 = RGBA (darken40 (red (px fitted_after 363 (400 - 239))))
                         (darken40 (green (px fitted_after 363 (400 - 239))))
                         (darken40 (blue (px fitted_after 363 (400 - 239)))) 255.
Proof.
  apply (right_slot_overhang TEMPLATE photo_before photo_after canvas img_after fitted_after 400);
    [reflexivity | exact TEMPLATE_ok | reflexivity | reflexivity | reflexivity | lia | simpl; lia].
Defined.

Lemma fit_spec_witness :
  exists l t r b f, fit_box 200 150 364 380 = Ok (l, t, r, b) /\
    fit img_before 364 380 = Ok f /\ width f = 364 /\ height f = 380 /\ raster_ok f /\
    (f = resize_box img_before 364 380 (l, t, r, b) \/
     (f = img_before /\ width img_before = 364 /\ height img_before = 380)) /\
    (0 <= l /\ r <= inject_Z 200 /\ 0 <= t /\ b <= inject_Z 150)%Q /\
    ((r - l) * inject_Z 380 == (b - t) * inject_Z 364)%Q /\
    (r - l == inject_Z 200 \/ b - t == inject_Z 150)%Q /\
    (l == inject_Z 200 - r /\ t == inject_Z 150 - b)%Q.
Proof.
  apply (fit_spec img_before 364 380); [reflexivity | reflexivity | reflexivity | reflexivity |].
  intros x y _. unfold rgba_ok, is_byte. simpl. lia.
Defined.

Lemma prepare_spec_witness :
  exists fitted out, fit img_before 364 380 = Ok fitted /\
    _prepare photo_before 364 380 = Ok out /\
    width out = 364 /\ height out = 380 /\ raster_ok out /\
    forall x y,
      (red (px out x y), green (px out x y), blue (px out x y)) =
        (red (px fitted x y), green (px fitted x y), blue (px fitted x y)) /\
      (alpha (px out x y) = 0 \/ alpha (px out x y) = 255) /\
      ((CORNER_RAD + 1 <= x <= 364 - CORNER_RAD - 1 /\ 0 <= y <= 380) \/
       (0 <= x <= 364 /\ CORNER_RAD + 1 <= y <= 380 - CORNER_RAD - 1) ->
       alpha (px out x y) = 255) /\
      (alpha (px out x y) = 255 -> 0 <= x <= 364 /\ 0 <= y <= 380).
Proof.
  apply (prepare_spec photo_before 364 380 img_before); [reflexivity |].
  unfold regular_box, CORNER_RAD. lia.
Defined.

Lemma paste_px_exact_witness :
  let d := RGBA 10 20 30 255 in let s := RGBA 200 100 50 128 in
  paste_px d s = RGBA (mix (alpha s) (red d) (red s)) (mix (alpha s) (green d) (green s))
                      (mix (alpha s) (blue d) (blue s)) (mix (alpha s) (alpha d) (alpha s)) /\
  rgba_ok (paste_px d s) /\
  (alpha s = 255 -> paste_px d s = s) /\ (alpha s = 0 -> paste_px d s = d).
Proof.
  apply paste_px_exact; unfold rgba_ok, is_byte; simpl; lia.
Defined.

Lemma alpha_composite_px_exact_witness :
  let d := RGBA 10 20 30 200 in let s := RGBA 200 100 50 128 in
  alpha_composite_px d s = alpha_composite_Z d s /\ rgba_ok (alpha_composite_Z d s) /\
  (alpha s = 0 -> alpha_composite_px d s = d) /\ (alpha s = 255 -> alpha_composite_px d s = s).
Proof.
  apply alpha_composite_px_exact; unfold rgba_ok, is_byte; simpl; lia.
Defined.

Lemma compose_canvas_type_witness :
  raster_ok canvas /\ width canvas = width TEMPLATE /\ height canvas = height TEMPLATE /\
  (opaque TEMPLATE -> opaque canvas).
Proof.
  apply (compose_canvas_type TEMPLATE photo_before photo_after canvas);
    [exact TEMPLATE_ok | reflexivity].
Defined.

End CollageScenarios.
