(* ===== verification/EndToEnd.v ===== *)
(** * From a Telegram photo to the delivered collage

    The running program ([Program.bot_step]) with [make_collage] on
    [TEMPLATE_PATH] as its compositor, the [Composer] that line 107 calls
    through [asyncio.to_thread].  Two facts tie the components together:
    the photos of the requests are, in order, those of the updates
    [accepted_photo] picks out of the bot's events (a new photo message
    that is not [/start], the largest size, downloaded, status sent), and
    a request that ends [Succeeded] received, after its status and
    "Готово!", the PNG of the canvas [make_collage] draws from that photo
    and the generated one. *)

From S2P Require Import Prelude Pixel Raster Draw Prepare Config Bot Orchestrator OrchestratorInv Program Collage Scenarios CollageScenarios.

Module EndToEnd.
Import Raster Prepare Orchestrator OrchestratorInv Program Collage.

Section E2E.
Context `{P : Pil}.
Variable bot_username : string.
Variable download : string -> res bytes.
Variable c : Config.config.

(** The compositor of the running program. *)
Definition program_composer : Composer := collage_composer (Config.TEMPLATE_PATH c).
#[local] Existing Instance program_composer.

(** The photo a bot event hands to the orchestrator, read off the update
    the way a user sees it: a new message that is not a [/start] command
    and has a photo, whose largest size Telegram delivers, and whose
    status reply was sent. *)
Definition accepted_photo (ev : bot_event) : option bytes :=
  match ev with
  | Incoming u (Ok _) =>
      match Bot.message u with
      | Some m =>
          if Bot.is_start bot_username m then None
          else match last (Bot.photo m) with
               | Some p => match download (Bot.file_id p) with Ok b => Some b | Err _ => None end
               | None => None
               end
      | None => None
      end
  | _ => None
  end.

(** The photo of the request an orchestrator event creates. *)
Definition arrive_photo (ev : event) : option bytes :=
  match ev with Arrive b (Ok _) => Some b | _ => None end.

Lemma before_insert (ts : list task) k t' :
  (before_bytes <$> ts) !! k = Some (before_bytes t') ->
  before_bytes <$> <[k:=t']> ts = before_bytes <$> ts.
Proof. intros H. rewrite list_fmap_insert. apply list_insert_id. exact H. Qed.

Lemma before_wake oj ts : before_bytes <$> wake oj ts = before_bytes <$> ts.
Proof.
  destruct oj as [j|]; simpl; [|reflexivity]. destruct (ts !! j) as [tj|] eqn:Hj; [|reflexivity].
  apply before_insert. rewrite list_lookup_fmap, Hj. reflexivity.
Qed.

(** A step keeps the photos of the existing requests, and a new request
    gets the photo of its [Arrive] event. *)
Lemma photos_step w ev w' :
  sstep w ev w' -> before_bytes <$> w_tasks w' = (before_bytes <$> w_tasks w) ++ option_list (arrive_photo ev).
Proof.
  intros Hs. destruct Hs; unfold set_task, fail_task; cbn [w_tasks arrive_photo option_list];
    rewrite ?app_nil_r; try reflexivity.
  { rewrite fmap_app. reflexivity. }
  all: rewrite before_insert; rewrite ?before_wake; try reflexivity;
    rewrite list_lookup_fmap; match goal with H : w_tasks _ !! _ = Some _ |- _ => rewrite H end;
    reflexivity.
Qed.

Lemma photos_run evs w w' :
  run step w evs = Some w' ->
  before_bytes <$> w_tasks w' = (before_bytes <$> w_tasks w) ++ omap arrive_photo evs.
Proof.
  revert w. induction evs as [|ev evs IH]; simpl; intros w Hrun.
  - injection Hrun as <-. rewrite app_nil_r. reflexivity.
  - destruct (step w ev) as [w1|] eqn:Hs; [|discriminate].
    rewrite (IH w1 Hrun), (photos_step w ev w1 (step_sstep _ _ _ Hs)), <- app_assoc.
    destruct (arrive_photo ev); reflexivity.
Qed.

(** The orchestrator sees exactly the accepted photos of the updates. *)
Lemma orch_events_photos ev :
  omap arrive_photo (orch_events bot_username download ev) = option_list (accepted_photo ev).
Proof.
  destruct ev as [u r|ev]; [|destruct ev; reflexivity]. simpl.
  destruct (Bot.process_update bot_username u) as [| |[p|e]] eqn:E.
  3: { destruct (Bot.process_photo_ok_inv _ _ _ E) as (m & -> & -> & ->).
       destruct (download (Bot.file_id p)), r; reflexivity. }
  all: destruct r as [u'|]; [|reflexivity]; destruct (Bot.message u) as [m|] eqn:Hm; [|reflexivity];
    destruct (Bot.is_start bot_username m) eqn:Hs; [reflexivity|];
    destruct (last (Bot.photo m)) as [p|] eqn:Hl; [|reflexivity];
    rewrite (Bot.process_photo_message _ _ _ _ Hm Hs Hl) in E; discriminate.
Qed.

Lemma photos_of_run evs s :
  run (bot_step bot_username download) bot_init evs = Some s ->
  before_bytes <$> w_tasks (b_world s) = omap accepted_photo evs.
Proof.
  intros Hrun. rewrite (photos_run _ _ _ (bot_run_orch bot_username download evs bot_init s Hrun)).
  cbn. clear. induction evs as [|ev evs IH]; [reflexivity|].
  cbn [List.flat_map]. rewrite omap_app, orch_events_photos, IH. cbn.
  destruct (accepted_photo ev); reflexivity.
Qed.

(** What a collage returned by [make_collage] is made of. *)
Lemma make_collage_inv p b a cc :
  make_collage p b a = Ok cc ->
  exists T B A, open_path p = Ok T /\ _prepare b 364 380 = Ok B /\ _prepare a 364 380 = Ok A /\
    cc = save_png (to_rgb (canvas_of T B A)).
Proof.
  unfold make_collage. destruct (open_path p) as [T|e]; simpl; [|discriminate].
  destruct (compose_canvas T b a) as [cv|e] eqn:Hc; simpl; [|discriminate].
  intros [= <-]. destruct (compose_canvas_inv T b a cv Hc) as (B & A & HB & HA & ->). eauto 10.
Qed.

(** C34: end to end: in the running program with [make_collage] on
    [TEMPLATE_PATH] as compositor, the photos of the requests are, in
    order, exactly the photos of the accepted updates (a new message, not
    a [/start] command, with a photo whose largest size Telegram
    delivered, and whose status reply was sent), and a request that ends
    [Succeeded] received exactly its status, "Готово!" and the PNG of the
    canvas drawn on the template from its photo and the photo OpenAI
    generated, both prepared to [364 × 380]. *)
Theorem delivered_collage_end_to_end evs s :
  run (bot_step bot_username download) bot_init evs = Some s ->
  before_bytes <$> w_tasks (b_world s) = omap accepted_photo evs /\
  forall i t, w_tasks (b_world s) !! i = Some t -> t_pc t = Finished Succeeded ->
  exists a T B A,
    after_bytes t = Some a /\ open_path (Config.TEMPLATE_PATH c) = Ok T /\
    _prepare (before_bytes t) 364 380 = Ok B /\ _prepare a 364 380 = Ok A /\
    msgs_of i (w_out (b_world s)) =
      [MStatus PROCESSING; MEdit DONE; MPhoto (save_png (to_rgb (canvas_of T B A)))].
Proof.
  intros Hrun. split; [exact (photos_of_run evs s Hrun)|]. intros i t Ht Hp.
  pose proof (bot_run_orch bot_username download evs bot_init s Hrun) as Ho.
  destruct (reachable_inv (b_world s) (ex_intro _ _ Ho)) as [_ _ Hf _ _ _ _ Hout].
  specialize (Hout i). rewrite Ht in Hout. unfold msgs_inv in Hout. rewrite Hp in Hout.
  destruct Hout as (cc & Hc & Hm).
  destruct (Forall_lookup_1 _ _ _ _ Hf Ht) as [Hcol _].
  destruct (Hcol cc Hc) as (a & Ha & Hcomp).
  destruct (make_collage_inv _ _ _ _ Hcomp) as (T & B & A & HT & HB & HA & ->).
  exists a, T, B, A. auto.
Qed.

End E2E.

(** ** One request through the whole program, on [CollageScenarios.toy_pil] *)

#[local] Existing Instance CollageScenarios.toy_pil.

Definition demo_config : Config.config :=
  Config.mk_config (Some "sk-demo"%string) (Some "123456:demo"%string) "data/template.png".

(** Telegram delivers the [200 × 150] photo; OpenAI answers with the
    [100 × 250] one. *)
Definition e2e_download (fid : string) : res bytes := Ok CollageScenarios.photo_before.

Definition e2e_events : list bot_event :=
  [Incoming (Bot.new_update photo_message) (Ok tt); Resume (Enter 0);
   Resume (ApiReturns 0 (Scenarios.answer CollageScenarios.photo_after));
   Resume (ComposeReturns 0); Resume (EditReturns 0 (Ok tt)); Resume (ReplyReturns 0 (Ok tt))].

Definition e2e_run : option bot :=
  @run _ _ (@bot_step (program_composer demo_config) "AgingBot" e2e_download) bot_init e2e_events.

Definition e2e_bot : bot := match e2e_run with Some s => s | None => bot_init end.

Definition e2e_task : task :=
  match w_tasks (b_world e2e_bot) !! 0%nat with Some t => t | None => mk_task [] None None Acquiring end.

Lemma delivered_collage_end_to_end_witness :
  before_bytes <$> w_tasks (b_world e2e_bot) = omap (accepted_photo "AgingBot" e2e_download) e2e_events /\
  forall i t, w_tasks (b_world e2e_bot) !! i = Some t -> t_pc t = Finished Succeeded ->
  exists a T B A,
    after_bytes t = Some a /\ open_path (Config.TEMPLATE_PATH demo_config) = Ok T /\
    _prepare (before_bytes t) 364 380 = Ok B /\ _prepare a 364 380 = Ok A /\
    msgs_of i (w_out (b_world e2e_bot)) =
      [MStatus PROCESSING; MEdit DONE; MPhoto (save_png (to_rgb (canvas_of T B A)))].
Proof.
  apply (delivered_collage_end_to_end "AgingBot" e2e_download demo_config e2e_events e2e_bot).
  vm_compute. reflexivity.
Defined.

(** The one request has the photo Telegram delivered, and ends
    [Succeeded] with a collage of the template's size, [900 × 700]. *)
Example e2e_delivered :
  before_bytes <$> w_tasks (b_world e2e_bot) = [CollageScenarios.photo_before] /\
  t_pc e2e_task = Finished Succeeded /\
  msgs_of 0 (w_out (b_world e2e_bot)) =
    [MStatus PROCESSING; MEdit DONE; MPhoto [byte_of_Z 900; byte_of_Z 700]] /\
  w_total (b_world e2e_bot) = 1%nat.
Proof. vm_compute. split_and!; reflexivity. Qed.

End EndToEnd.
